(** * Money is Time: the content script, embedded and verified

    A shallow embedding of the content script of the "money is time" browser
    extension (the revision with the [MONEY] pattern, scale suffixes and the
    three display modes), together with the structured-price helper.

    Conventions of the embedding.
    - A JavaScript string is the list of its UTF-16 code units ([jsstring]).
    - A JavaScript number is either [NaN], an infinity, or a finite binary64
      carried by its value, a rational; every operation rounds its result to
      the nearest binary64, ties to even, as the language does.
    - The DOM is a finite tree of text nodes and elements; a call of
      [replaceChild] is recorded in a log of mutation records. *)

From Stdlib Require Import String Ascii DecimalString.
From Stdlib Require Import List Bool Arith ZArith NArith QArith Qround Qpower
  Lia Lqa Sorted.
Import ListNotations.


(* ================================================================= *)
(** ** Strings *)

Module JsString.

Definition jsstring := list N.

(** The code units of an ASCII literal. *)
Definition str (s : string) : jsstring :=
  map N_of_ascii (list_ascii_of_string s).

Definition eqb (a b : jsstring) : bool :=
  if list_eq_dec N.eq_dec a b then true else false.

(** [s.slice(i, j)] for [0 <= i], [0 <= j]. *)
Definition slice (s : jsstring) (i j : nat) : jsstring :=
  firstn (j - i) (skipn i s).

(** [s.slice(i)]. *)
Definition sliceFrom (s : jsstring) (i : nat) : jsstring := skipn i s.

(** [parts.join(sep)]. *)
Fixpoint join (sep : jsstring) (parts : list jsstring) : jsstring :=
  match parts with
  | [] => []
  | [p] => p
  | p :: rest => p ++ sep ++ join sep rest
  end.

(** WhiteSpace and LineTerminator code units: the set of [\s] and of
    [String.prototype.trim]. *)
Definition isSpace (c : N) : bool :=
  existsb (N.eqb c)
    [9; 10; 11; 12; 13; 32; 160; 5760; 8232; 8233; 8239; 8287; 12288; 65279]%N
  || ((8192 <=? c) && (c <=? 8202))%N.

Definition isDigit (c : N) : bool := ((48 <=? c) && (c <=? 57))%N.

Definition isUpper (c : N) : bool := ((65 <=? c) && (c <=? 90))%N.
Definition isLower (c : N) : bool := ((97 <=? c) && (c <=? 122))%N.

(** [\w]: basic Latin letters, digits and underscore. *)
Definition isWordChar (c : N) : bool :=
  isUpper c || isLower c || isDigit c || (c =? 95)%N.

Definition toLowerUnit (c : N) : N := if isUpper c then (c + 32)%N else c.
Definition toUpperUnit (c : N) : N := if isLower c then (c - 32)%N else c.

(** [s.toLowerCase()] on the basic Latin range, which is all that the scale
    suffixes can contain. *)
Definition toLowerCase (s : jsstring) : jsstring := map toLowerUnit s.

(** [!s.trim()]: the string is empty once white space is stripped. *)
Definition isBlank (s : jsstring) : bool := forallb isSpace s.

(** [s.replace(/,/g, "")]. *)
Definition stripCommas (s : jsstring) : jsstring :=
  filter (fun c => negb (c =? 44)%N) s.

(** [s.trim()]. *)
Fixpoint trimStart (s : jsstring) : jsstring :=
  match s with
  | c :: rest => if isSpace c then trimStart rest else s
  | [] => []
  end.

Definition trim (s : jsstring) : jsstring :=
  rev (trimStart (rev (trimStart s))).

(** The longest prefix of units satisfying [p], and what follows it. *)
Fixpoint span (p : N -> bool) (s : jsstring) : jsstring * jsstring :=
  match s with
  | c :: rest =>
      if p c then let (pre, post) := span p rest in (c :: pre, post)
      else ([], s)
  | [] => ([], [])
  end.

Fixpoint startsWith (prefix s : jsstring) : bool :=
  match prefix, s with
  | [], _ => true
  | p :: prefix', c :: s' => (p =? c)%N && startsWith prefix' s'
  | _ :: _, [] => false
  end.

(** A string is truthy when it is not empty; [null] and [undefined] are
    falsy. *)
Definition truthy (o : option jsstring) : bool :=
  match o with
  | Some (_ :: _) => true
  | _ => false
  end.

(** [a || b] where [b] is a string. *)
Definition orElse (a : option jsstring) (b : jsstring) : jsstring :=
  match a with
  | Some (c :: rest) => c :: rest
  | _ => b
  end.

(** [/\s$/.test(s)]. *)
Definition endsWithSpace (s : jsstring) : bool :=
  match rev s with
  | c :: _ => isSpace c
  | [] => false
  end.

End JsString.
Import JsString.

(* ================================================================= *)
(** ** Numbers *)

Module JsNumber.

(** A Number: the value of a finite binary64 as a rational, the two
    infinities and [NaN].  The two zeros are one value: the script compares
    and prints numbers, and neither tells a negative zero from zero. *)
Inductive number : Type :=
| NaN
| PosInf
| NegInf
| Fin (q : Q).

Definition isFinite (x : number) : bool :=
  match x with Fin _ => true | _ => false end.

(** [x <= 0]; any comparison with [NaN] is false. *)
Definition leZero (x : number) : bool :=
  match x with
  | NaN => false
  | PosInf => false
  | NegInf => true
  | Fin q => Qle_bool q 0
  end.

(** [x > 0]. *)
Definition gtZero (x : number) : bool :=
  match x with
  | PosInf => true
  | Fin q => negb (Qle_bool q 0)
  | _ => false
  end.

(** [x < y]. *)
Definition ltb (x y : number) : bool :=
  match x, y with
  | NaN, _ | _, NaN => false
  | _, NegInf | PosInf, _ => false
  | NegInf, _ | _, PosInf => true
  | Fin a, Fin b => negb (Qle_bool b a)
  end.

(** *** Rounding to binary64 *)

Definition pow2 (z : Z) : Q := Qpower 2 z.

(** For [0 < q], the exponent [l] with [2^l <= q < 2^(l+1)]. *)
Definition ilog2 (q : Q) : Z :=
  let l := (Z.log2 (Qnum q) - Z.log2 (Zpos (Qden q)))%Z in
  if Qle_bool (pow2 l) q then l else (l - 1)%Z.

(** The nearest integer, ties to even. *)
Definition roundHalfEven (s : Q) : Z :=
  let m := Qfloor s in
  match Qcompare (s - inject_Z m) (1 # 2) with
  | Lt => m
  | Gt => (m + 1)%Z
  | Eq => if Z.even m then m else (m + 1)%Z
  end.

(** The binary64 nearest to [0 < q]: 53 significant bits, the exponent of the
    last bit not below [-1074], ties to even, and infinity from [2^1024]
    on. *)
Definition roundPositive (q : Q) : number :=
  let e := Z.max (ilog2 q - 52) (-1074) in
  let m := roundHalfEven (q / pow2 e) in
  let v := inject_Z m * pow2 e in
  if Qle_bool (pow2 1024) v then PosInf else Fin (Qred v).

Definition round64 (q : Q) : number :=
  match Qcompare q 0 with
  | Eq => Fin 0
  | Gt => roundPositive q
  | Lt =>
      match roundPositive (- q) with
      | Fin v => Fin (Qred (- v))
      | _ => NegInf
      end
  end.

(** *** Arithmetic *)

(** The infinity with the sign of [q], for [q] other than zero. *)
Definition infinityOf (q : Q) : number :=
  if Qle_bool q 0 then NegInf else PosInf.

(** [x * y]. *)
Definition mul (x y : number) : number :=
  match x, y with
  | NaN, _ | _, NaN => NaN
  | Fin a, Fin b => round64 (a * b)
  | Fin a, PosInf | PosInf, Fin a =>
      if Qeq_bool a 0 then NaN else infinityOf a
  | Fin a, NegInf | NegInf, Fin a =>
      if Qeq_bool a 0 then NaN else infinityOf (- a)
  | PosInf, PosInf | NegInf, NegInf => PosInf
  | PosInf, NegInf | NegInf, PosInf => NegInf
  end.

(** [x / y]. *)
Definition div (x y : number) : number :=
  match x, y with
  | NaN, _ | _, NaN => NaN
  | Fin a, Fin b =>
      if Qeq_bool b 0 then (if Qeq_bool a 0 then NaN else infinityOf a)
      else round64 (a / b)
  | Fin _, _ => Fin 0
  | PosInf, Fin b => if Qle_bool 0 b then PosInf else NegInf
  | NegInf, Fin b => if Qle_bool 0 b then NegInf else PosInf
  | _, _ => NaN
  end.

(** [x - y]. *)
Definition sub (x y : number) : number :=
  match x, y with
  | NaN, _ | _, NaN => NaN
  | Fin a, Fin b => round64 (a - b)
  | PosInf, PosInf | NegInf, NegInf => NaN
  | PosInf, _ | _, NegInf => PosInf
  | NegInf, _ | _, PosInf => NegInf
  end.

(** [Math.floor(x)]; the floor of a binary64 is a binary64. *)
Definition floor (x : number) : number :=
  match x with
  | Fin q => Fin (inject_Z (Qfloor q))
  | other => other
  end.

(** [x * k] for a finite positive factor [k]. *)
Definition scale (x : number) (k : Q) : number := mul x (Fin k).

(** *** Printing *)

(** The decimal digits of a natural number. *)
Definition digitsOf (n : N) : jsstring :=
  str (NilZero.string_of_uint (N.to_uint n)).

Fixpoint dropTrailingZeros (rev_digits : jsstring) : jsstring :=
  match rev_digits with
  | 48%N :: rest => dropTrailingZeros rest
  | other => other
  end.

(** Whether the binary64 nearest to the whole number [v] is [z]. *)
Definition readsAs (z v : Z) : bool :=
  match round64 (inject_Z v) with
  | Fin q => Qeq_bool q (inject_Z z)
  | _ => false
  end.

(** The decimal of [k] significant digits that reads as [0 < z], if there is
    one: of the two next to [z], the nearer, and of two equally near the one
    whose last digit is even. *)
Definition decimalOf (z : Z) (k : nat) : option Z :=
  let n := length (digitsOf (Z.to_N z)) in
  let step := (10 ^ Z.of_nat (n - k))%Z in
  let lo := (z / step * step)%Z in
  let hi := (lo + step)%Z in
  match readsAs z lo, readsAs z hi with
  | true, false => Some lo
  | false, true => Some hi
  | false, false => None
  | true, true =>
      match (z - lo ?= hi - z)%Z with
      | Lt => Some lo
      | Gt => Some hi
      | Eq => if Z.even (lo / step) then Some lo else Some hi
      end
  end.

(** The decimal with the fewest significant digits that reads as [z]; 17
    digits are enough for a binary64. *)
Definition shortestDecimal (z : Z) : Z :=
  match flat_map (fun k => match decimalOf z k with
                           | Some v => [v]
                           | None => []
                           end) (seq 1 17) with
  | v :: _ => v
  | [] => z
  end.

(** [Number::toString] on a whole number, the value of a binary64: the
    digits are those of the shortest decimal that reads as the number,
    followed by zeros up to the units below [10^21], and in the exponential
    form [d.ddde+n] beyond that. *)
Definition integerToString (z : Z) : jsstring :=
  let sign := if (z <? 0)%Z then str "-" else [] in
  let digits := digitsOf (Z.to_N (shortestDecimal (Z.abs z))) in
  if (Z.abs z <? 10 ^ 21)%Z then sign ++ digits
  else
    let mantissa := rev (dropTrailingZeros (rev digits)) in
    let exponent := digitsOf (N.of_nat (length digits - 1)) in
    match mantissa with
    | [] => sign ++ digits
    | d :: [] => sign ++ [d] ++ str "e+" ++ exponent
    | d :: more => sign ++ [d] ++ str "." ++ more ++ str "e+" ++ exponent
    end.

(** [`${x}`] for a whole number or an infinity; the script prints nothing
    but the counts of the parts, which [Math.floor] has made whole. *)
Definition numberToString (x : number) : jsstring :=
  match x with
  | NaN => str "NaN"
  | PosInf => str "Infinity"
  | NegInf => str "-Infinity"
  | Fin q => integerToString (Qfloor q)
  end.

(** *** Reading *)

(** The value of a string of decimal digits. *)
Definition digitsValue (ds : jsstring) : Z :=
  fold_left (fun acc c => (acc * 10 + Z.of_N (c - 48))%Z) ds 0%Z.

(** The optional [ExponentPart] at the head of [s]: [e] or [E], an optional
    sign and at least one digit. *)
Definition exponentPart (s : jsstring) : Z :=
  match s with
  | c :: rest =>
      if ((c =? 101) || (c =? 69))%N then
        let '(negative, body) :=
          match rest with
          | 45%N :: t => (true, t)
          | 43%N :: t => (false, t)
          | _ => (false, rest)
          end in
        let (ds, _) := span isDigit body in
        match ds with
        | [] => 0%Z
        | _ => if negative then (- digitsValue ds)%Z else digitsValue ds
        end
      else 0%Z
  | [] => 0%Z
  end.

(** An optional sign at the head of [s], and what follows it. *)
Definition signOf (s : jsstring) : bool * jsstring :=
  match s with
  | 45%N :: t => (true, t)
  | 43%N :: t => (false, t)
  | _ => (false, s)
  end.

(** The mathematical value of the longest prefix of [s] that is an unsigned
    decimal literal (digits, an optional fraction, an optional exponent; one
    of the two digit strings may be empty), or [None] when there is none. *)
Definition unsignedDecimal (s : jsstring) : option Q :=
  let (intDigits, s3) := span isDigit s in
  let (fracDigits, s4) :=
    match s3 with
    | 46%N :: t => span isDigit t
    | _ => ([], s3)
    end in
  match intDigits, fracDigits with
  | [], [] => None
  | _, _ =>
      let mantissa :=
        inject_Z (digitsValue intDigits)
        + inject_Z (digitsValue fracDigits)
          / inject_Z (10 ^ Z.of_nat (length fracDigits)) in
      Some (mantissa * Qpower 10 (exponentPart s4))
  end.

(** [parseFloat(s)]: leading white space is skipped and the longest prefix
    that is a [StrDecimalLiteral] is converted to the nearest binary64,
    which is an infinity for a literal too large; [NaN] when there is no
    such prefix. *)
Definition parseFloat (s : jsstring) : number :=
  let (negative, s2) := signOf (trimStart s) in
  if startsWith (str "Infinity") s2 then (if negative then NegInf else PosInf)
  else
    match unsignedDecimal s2 with
    | None => NaN
    | Some value => round64 (if negative then - value else value)
    end.

End JsNumber.
Import JsNumber.

(* ================================================================= *)
(** ** Settings *)

(** The fields of [settings] that the scan reads.  [loadSettings] stores a
    schedule value only when [Number(v) > 0] and falls back to the default
    otherwise. *)
Record Settings : Type := mkSettings {
  hourlyRate : number;
  displayMode : jsstring;
  hoursPerDay : number;
  daysPerWeek : number
}.

Definition DEFAULT : Settings :=
  {| hourlyRate := Fin 15;
     displayMode := str "inline";
     hoursPerDay := Fin 8;
     daysPerWeek := Fin 5 |}.

(* ================================================================= *)
(** ** Time formatter *)

Module TimeFormatter.

Record timeUnit : Type := mkUnit { short : jsstring; minutes : number }.

Definition workMinutesPerDay (st : Settings) : number :=
  mul (hoursPerDay st) (Fin 60).
Definition workMinutesPerWeek (st : Settings) : number :=
  mul (workMinutesPerDay st) (daysPerWeek st).
Definition workMinutesPerMonth (st : Settings) : number :=
  mul (workMinutesPerWeek st) (div (Fin 52) (Fin 12)).
Definition workMinutesPerYear (st : Settings) : number :=
  mul (workMinutesPerWeek st) (Fin 52).

Definition UNITS (st : Settings) : list timeUnit :=
  [ mkUnit (str "c") (mul (workMinutesPerYear st) (Fin 100));
    mkUnit (str "y") (workMinutesPerYear st);
    mkUnit (str "mo") (workMinutesPerMonth st);
    mkUnit (str "w") (workMinutesPerWeek st);
    mkUnit (str "d") (workMinutesPerDay st);
    mkUnit (str "h") (Fin 60);
    mkUnit (str "min") (Fin 1) ].

(** One entry of [parts]: the source pushes the string
    [`${count}${unit.short}`]; the embedding keeps the count and the unit it
    was pushed for, and renders the string with [partString]. *)
Record part : Type := mkPart { count : number; unit_of : timeUnit }.

Definition partString (p : part) : jsstring :=
  numberToString (count p) ++ short (unit_of p).

(** The [for (const unit of UNITS)] loop, with [remaining] and [parts] as
    loop state. *)
Fixpoint unitsLoop (units : list timeUnit) (remaining : number)
  (parts : list part) : list part :=
  match units with
  | [] => parts
  | unit :: rest =>
      if (3 <=? length parts)%nat then parts
      else if leZero (minutes unit) then unitsLoop rest remaining parts
      else
        let count := floor (div remaining (minutes unit)) in
        if gtZero count then
          unitsLoop rest (sub remaining (mul count (minutes unit)))
                    (parts ++ [mkPart count unit])
        else unitsLoop rest remaining parts
  end.

(** [(amount / hourlyRate) * 60] *)
Definition totalMinutes (amount hourlyRate : number) : number :=
  mul (div amount hourlyRate) (Fin 60).

(** The value of [parts] when the loop is left, or [None] when the guard at
    the head of the function returns [null]. *)
Definition timeParts (st : Settings) (amount hourlyRate : number)
  : option (list part) :=
  if negb (isFinite amount) || leZero amount
     || negb (isFinite hourlyRate) || leZero hourlyRate then None
  else
    let remaining := floor (totalMinutes amount hourlyRate) in
    Some (unitsLoop (UNITS st) remaining []).

(** [formatTimeFromMoney(amount, hourlyRate)]; [None] is [null]. *)
Definition formatTimeFromMoney (st : Settings) (amount hourlyRate : number)
  : option jsstring :=
  match timeParts st amount hourlyRate with
  | None => None
  | Some parts =>
      if (length parts =? 0)%nat then Some (str "<1m")
      else Some (join (str " ") (map partString parts))
  end.

End TimeFormatter.
Import TimeFormatter.


(* ================================================================= *)
(** ** The formatter in the other revisions of the script *)

(** The revision before the money pattern was introduced: the same units and
    loop, the parts joined without a separator. *)
Module CompactRevision.

Definition formatTimeFromMoney (st : Settings) (amount hourlyRate : number)
  : option jsstring :=
  match timeParts st amount hourlyRate with
  | None => None
  | Some parts =>
      if (length parts =? 0)%nat then Some (str "<1m")
      else Some (join [] (map partString parts))
  end.

End CompactRevision.

(** The first revision ([content.js]): calendar units with singular and
    plural labels, no guard on the minute values of the table. *)
Module CalendarRevision.

Record calendarUnit : Type := mkCalendarUnit {
  labelSingular : jsstring;
  labelPlural : jsstring;
  minutes : Q
}.

(** The products are whole numbers far below [2^53]: they are exact. *)
Definition UNITS : list calendarUnit :=
  [ mkCalendarUnit (str "decade") (str "decades") (60 * 24 * 365 * 10);
    mkCalendarUnit (str "year") (str "years") (60 * 24 * 365);
    mkCalendarUnit (str "month") (str "months") (60 * 24 * 30);
    mkCalendarUnit (str "week") (str "weeks") (60 * 24 * 7);
    mkCalendarUnit (str "day") (str "days") (60 * 24);
    mkCalendarUnit (str "hour") (str "hours") 60;
    mkCalendarUnit (str "min") (str "mins") 1 ].

(** [count === 1] *)
Definition isOne (x : number) : bool :=
  match x with Fin q => Qeq_bool q 1 | _ => false end.

Fixpoint unitsLoop (units : list calendarUnit) (remaining : number)
  (parts : list jsstring) : list jsstring :=
  match units with
  | [] => parts
  | unit :: rest =>
      if (3 <=? length parts)%nat then parts
      else
        let count := floor (div remaining (Fin (minutes unit))) in
        if gtZero count then
          let label :=
            if isOne count then labelSingular unit else labelPlural unit in
          unitsLoop rest (sub remaining (mul count (Fin (minutes unit))))
                    (parts ++ [numberToString count ++ str " " ++ label])
        else unitsLoop rest remaining parts
  end.

Definition formatTimeFromMoney (amount hourlyRate : number) : option jsstring :=
  if negb (isFinite amount) || leZero amount
     || negb (isFinite hourlyRate) || leZero hourlyRate then None
  else
    let remaining := floor (totalMinutes amount hourlyRate) in
    let parts := unitsLoop UNITS remaining [] in
    if (length parts =? 0)%nat then Some (str "<1 min")
    else Some (join (str " ") parts).

End CalendarRevision.

(* ================================================================= *)
(** ** Regular expressions *)

(** A backtracking matcher in the style of the ECMAScript specification.  The
    continuation of the specification is replaced by the list of all end
    states a pattern can reach from a given state, in the priority order of
    the backtracking search: the head of the list is the state the search
    stops at.  Characters are compared as under the [i] flag (without [u]),
    which the money pattern carries; the one pattern of the script without
    that flag holds no letter, so the comparison is the same for it. *)
Module Regex.

Local Open Scope nat_scope.

Inductive classItem : Type :=
| CChar (c : N)      (* a pattern character *)
| CDigit             (* \d *)
| CSpace.            (* \s *)

Inductive regex : Type :=
| Empty
| Class (items : list classItem)                 (* a character or a [...] class *)
| WordB                                           (* \b *)
| Seq (a b : regex)
| Alt (a b : regex)
| Quant (r : regex) (min : nat) (max : option nat)  (* greedy r{min,max} *)
| Group (name : string) (r : regex).              (* (?<name>r) *)

Definition Lit (c : string) : regex := Class (map CChar (str c)).
Definition Digit : regex := Class [CDigit].
Definition Space : regex := Class [CSpace].
Definition Star (r : regex) : regex := Quant r 0 None.
Definition Plus (r : regex) : regex := Quant r 1 None.
Definition Opt (r : regex) : regex := Quant r 0 (Some 1).

(** A literal word: its characters in sequence. *)
Definition Word (w : string) : regex :=
  fold_right (fun c r => Seq (Class [CChar c]) r) Empty (str w).

Declare Scope regex_scope.
Delimit Scope regex_scope with re.
Bind Scope regex_scope with regex.
Notation "a ';;' b" := (Seq a b) (at level 41, right associativity) : regex_scope.
Notation "a '<|>' b" := (Alt a b) (at level 51, right associativity) : regex_scope.

(** A stretch of the input: start and end offsets. *)
Definition interval : Type := (nat * nat)%type.

Record MatchState : Type := mkState {
  endIndex : nat;
  captures : list (string * interval)
}.

Definition capture (name : string) (caps : list (string * interval))
  : option interval :=
  match find (fun e => String.eqb (fst e) name) caps with
  | Some e => Some (snd e)
  | None => None
  end.

(** Canonicalize under the [i] flag.  Only basic Latin letters are folded: a
    code unit above 127 never canonicalizes to a basic Latin one, and no code
    unit other than the pound and euro signs themselves canonicalizes to
    them, so on the characters of the script's patterns this is the
    specification's comparison. *)
Definition canonicalize (c : N) : N := toUpperUnit c.

Definition itemMatches (ch : N) (it : classItem) : bool :=
  match it with
  | CChar c => (canonicalize ch =? canonicalize c)%N
  | CDigit => isDigit ch
  | CSpace => isSpace ch
  end.

Definition classMatches (items : list classItem) (ch : N) : bool :=
  existsb (itemMatches ch) items.

Definition isWordCharAt (input : jsstring) (e : nat) : bool :=
  match nth_error input e with
  | Some c => isWordChar c
  | None => false
  end.

(** [\b] holds at [e] when exactly one of the units at [e - 1] and [e] is a
    word character; positions outside the input are not. *)
Definition isWordBoundary (input : jsstring) (e : nat) : bool :=
  let a := match e with 0 => false | S p => isWordCharAt input p end in
  let b := isWordCharAt input e in
  xorb a b.

(** RepeatMatcher: [m] is the matcher of the quantified atom.  An iteration
    that is not required ([min = 0]) and consumes nothing is rejected.  The
    counter [fuel] bounds the number of iterations; [min] plus the length of
    the input is always enough (lemma [repeatMatcher_fuel]). *)
Fixpoint repeatMatcher (m : MatchState -> list MatchState) (fuel min : nat)
  (max : option nat) (x : MatchState) : list MatchState :=
  match max with
  | Some 0 => [x]
  | _ =>
      match fuel with
      | 0 => if (min =? 0)%nat then [x] else []
      | S fuel' =>
          let d (y : MatchState) :=
            if (min =? 0)%nat && (endIndex y =? endIndex x)%nat then []
            else repeatMatcher m fuel' (pred min) (option_map pred max) y in
          let z := flat_map d (m x) in
          if (min =? 0)%nat then z ++ [x] else z
      end
  end.

Fixpoint rmatch (r : regex) (input : jsstring) (x : MatchState)
  : list MatchState :=
  match r with
  | Empty => [x]
  | Class items =>
      match nth_error input (endIndex x) with
      | Some ch =>
          if classMatches items ch
          then [mkState (S (endIndex x)) (captures x)]
          else []
      | None => []
      end
  | WordB => if isWordBoundary input (endIndex x) then [x] else []
  | Seq a b => flat_map (rmatch b input) (rmatch a input x)
  | Alt a b => rmatch a input x ++ rmatch b input x
  | Quant r' min max =>
      repeatMatcher (rmatch r' input) (min + length input) min max x
  | Group name r' =>
      map (fun y => mkState (endIndex y)
                            ((name, (endIndex x, endIndex y)) :: captures y))
          (rmatch r' input x)
  end.

(** The result of a successful [exec]: [match.index], the end of the match
    (the new [lastIndex] of a global pattern) and the captures. *)
Record MatchResult : Type := mkResult {
  index : nat;
  matchEnd : nat;
  groups : list (string * interval)
}.

(** The search of RegExpBuiltinExec: the first start position at or after
    [i] from which the pattern matches. *)
Fixpoint searchFrom (r : regex) (input : jsstring) (i fuel : nat)
  : option MatchResult :=
  match fuel with
  | 0 => None
  | S fuel' =>
      match rmatch r input (mkState i []) with
      | y :: _ => Some (mkResult i (endIndex y) (captures y))
      | [] => searchFrom r input (S i) fuel'
      end
  end.

(** [r.exec(input)] with [r.lastIndex = lastIndex]; [None] is [null] (every
    start position up to and including the length of the input is tried). *)
Definition exec (r : regex) (input : jsstring) (lastIndex : nat)
  : option MatchResult :=
  searchFrom r input lastIndex (S (length input) - lastIndex).

(** [r.lastIndex = 0; r.test(input)]. *)
Definition test (r : regex) (input : jsstring) : bool :=
  match exec r input 0 with Some _ => true | None => false end.

(** The successive results of [while ((match = r.exec(input)) !== null)] for
    a global pattern whose [lastIndex] is [lastIndex] on entry: each [exec]
    leaves [lastIndex] at the end of its match.  The loop body of the script
    never writes [lastIndex]. *)
Fixpoint execLoop (r : regex) (input : jsstring) (fuel lastIndex : nat)
  : list MatchResult :=
  match fuel with
  | 0 => []
  | S fuel' =>
      match exec r input lastIndex with
      | None => []
      | Some m => m :: execLoop r input fuel' (matchEnd m)
      end
  end.

(** [match[0]]. *)
Definition matched (input : jsstring) (m : MatchResult) : jsstring :=
  slice input (index m) (matchEnd m).

(** [match.groups.name]. *)
Definition group (input : jsstring) (m : MatchResult) (name : string)
  : option jsstring :=
  match capture name (groups m) with
  | Some (a, b) => Some (slice input a b)
  | None => None
  end.

End Regex.
Import Regex.

(* ================================================================= *)
(** ** The money pattern *)

Module MONEY.

Local Open Scope nat_scope.
Local Open Scope regex_scope.

(** [[$£€]] *)
Definition SYMBOLS : regex := Class [CChar 36%N; CChar 163%N; CChar 8364%N].

(** [(?:\d{1,3}(?:,\d{3})+|\d+)(?:\.\d+)?] *)
Definition NUMBER : regex :=
  ((Quant Digit 1 (Some 3) ;; Plus (Lit "," ;; Quant Digit 3 (Some 3)))
   <|> Plus Digit)
  ;; Opt (Lit "." ;; Plus Digit).

(** [\b(?:trillion|tn|t|billion|bn|b|million|mn|m|thousand|k)\b] *)
Definition SCALE : regex :=
  WordB ;;
  (Word "trillion" <|> Word "tn" <|> Word "t" <|> Word "billion" <|> Word "bn"
   <|> Word "b" <|> Word "million" <|> Word "mn" <|> Word "m"
   <|> Word "thousand" <|> Word "k") ;;
  WordB.

(** [\b(?:USD|GBP|EUR)\b] *)
Definition CODES : regex :=
  WordB ;; (Word "USD" <|> Word "GBP" <|> Word "EUR") ;; WordB.

Definition SYMBOL_FIRST : regex :=
  Group "sym" SYMBOLS ;; Star Space ;; Group "num1" NUMBER ;; Star Space ;;
  Opt (Group "suf1" SCALE).

Definition CODE_LAST : regex :=
  Group "num2" NUMBER ;; Star Space ;; Opt (Group "suf2" SCALE) ;; Star Space ;;
  Group "code1" CODES.

Definition CODE_FIRST : regex :=
  Group "code2" CODES ;; Star Space ;; Group "num3" NUMBER ;; Star Space ;;
  Opt (Group "suf3" SCALE).

(** [new RegExp(`${SYMBOL_FIRST}|${CODE_LAST}|${CODE_FIRST}`, "gi")] *)
Definition regex : Regex.regex := SYMBOL_FIRST <|> CODE_LAST <|> CODE_FIRST.

(** The own properties of [SCALE_MAP]. *)
Definition SCALE_MAP : list (jsstring * Q) :=
  [ (str "k", 1000); (str "thousand", 1000);
    (str "m", 1000000); (str "mn", 1000000); (str "million", 1000000);
    (str "b", 1000000000); (str "bn", 1000000000); (str "billion", 1000000000);
    (str "t", 1000000000000); (str "tn", 1000000000000);
    (str "trillion", 1000000000000) ]%Q.

(** [multiplier(suffix)].  Only the own properties of [SCALE_MAP] are looked
    up: a suffix is a word of [SCALE], never the name of an inherited
    property. *)
Definition multiplier (suffix : jsstring) : Q :=
  match suffix with
  | [] => 1%Q
  | _ =>
      let key := toLowerCase suffix in
      match find (fun e => JsString.eqb (fst e) key) SCALE_MAP with
      | Some e => snd e
      | None => 1%Q
      end
  end.

(** [amountFromMatch(m)], for a match [m] on [input]. *)
Definition amountFromMatch (input : jsstring) (m : MatchResult) : number :=
  let g := group input m in
  let numStr :=
    stripCommas (orElse (g "num1"%string)
                   (orElse (g "num2"%string) (orElse (g "num3"%string) []))) in
  let sufStr :=
    orElse (g "suf1"%string)
      (orElse (g "suf2"%string) (orElse (g "suf3"%string) [])) in
  let base := parseFloat numStr in
  if negb (isFinite base) then NaN
  else scale base (multiplier sufStr).

End MONEY.

(* ================================================================= *)
(** ** The document tree *)

Module Dom.

Definition attrs : Type := list (jsstring * jsstring).

Local Unset Elimination Schemes.

Inductive node : Type :=
| Text (nodeValue : jsstring)
| Element (tagName : jsstring) (attributes : attrs) (childNodes : list node).

Local Set Elimination Schemes.

(** What [replaceChild(frag, node)] does to the tree, as a mutation observer
    is told: the node taken out and the nodes put in its place. *)
Record mutation : Type := mkMutation {
  removedNode : node;
  addedNodes : list node
}.

Definition hasAttribute (name : jsstring) (a : attrs) : bool :=
  existsb (fun e => JsString.eqb (fst e) name) a.

(** [el.setAttribute(name, value)]. *)
Fixpoint setAttribute (name value : jsstring) (a : attrs) : attrs :=
  match a with
  | [] => [(name, value)]
  | e :: rest =>
      if JsString.eqb (fst e) name then (name, value) :: rest
      else e :: setAttribute name value rest
  end.

Definition getAttribute (name : jsstring) (a : attrs) : option jsstring :=
  match find (fun e => JsString.eqb (fst e) name) a with
  | Some e => Some (snd e)
  | None => None
  end.

(** The element and its ancestors seen from a node, nearest first: tag name
    and attributes of each. *)
Definition ancestors : Type := list (jsstring * attrs).

(** [parent.closest("[name]")] where the list starts at [parent]. *)
Definition closestAttr (name : jsstring) (anc : ancestors) : bool :=
  existsb (fun e => hasAttribute name (snd e)) anc.

Fixpoint textContent (n : node) : jsstring :=
  match n with
  | Text v => v
  | Element _ _ children => flat_map textContent children
  end.

(** The tokens of a [class] attribute (split at ASCII white space). *)
Fixpoint tokens (cur : jsstring) (s : jsstring) : list jsstring :=
  match s with
  | [] => match cur with [] => [] | _ => [rev cur] end
  | c :: rest =>
      if existsb (N.eqb c) [9; 10; 12; 13; 32]%N
      then match cur with [] => tokens [] rest | _ => rev cur :: tokens [] rest end
      else tokens (c :: cur) rest
  end.

Definition hasClass (cls : jsstring) (a : attrs) : bool :=
  match getAttribute (str "class") a with
  | Some v => existsb (JsString.eqb cls) (tokens [] v)
  | None => false
  end.

(** The first element with class [cls] among [n] and its descendants, in
    document order. *)
Fixpoint findClass (cls : jsstring) (n : node) : option node :=
  match n with
  | Text _ => None
  | Element _ a children =>
      if hasClass cls a then Some n
      else
        (fix first (l : list node) : option node :=
           match l with
           | [] => None
           | c :: rest =>
               match findClass cls c with
               | Some found => Some found
               | None => first rest
               end
           end) children
  end.

(** [el.querySelector("." + cls)]: descendants only. *)
Definition querySelectorClass (cls : jsstring) (el : node) : option node :=
  match el with
  | Text _ => None
  | Element _ _ children =>
      (fix first (l : list node) : option node :=
         match l with
         | [] => None
         | c :: rest =>
             match findClass cls c with
             | Some found => Some found
             | None => first rest
             end
         end) children
  end.

End Dom.
Import Dom.

(* ================================================================= *)
(** ** The content script *)

Module Content.

Local Open Scope nat_scope.

Definition SKIP_TAGS : list jsstring :=
  map str ["SCRIPT"; "STYLE"; "NOSCRIPT"; "IFRAME"; "CODE"; "PRE"; "TEXTAREA";
           "INPUT"]%string.

Definition isSkipTag (tag : jsstring) : bool :=
  existsb (JsString.eqb tag) SKIP_TAGS.

Definition PROCESSED : jsstring := str "data-mt-processed".
Definition IGNORE : jsstring := str "data-mt-ignore".

(** The [span] elements the script creates. *)
Definition wrapperAttrs : attrs :=
  [(PROCESSED, str "true"); (str "class", str "mt-wrapper")].

Definition annotationSpan (text : jsstring) : node :=
  Element (str "SPAN") [(str "class", str "mt-annotation")]
          (match text with [] => [] | _ => [Text text] end).

(** The wrapper appended for a convertible match. *)
Definition wrapperFor (st : Settings) (fullMatch timeStr : jsstring) : node :=
  let moneyText := Text fullMatch in
  if JsString.eqb (displayMode st) (str "tooltip") then
    Element (str "SPAN") (wrapperAttrs ++ [(str "title", timeStr)]) [moneyText]
  else if JsString.eqb (displayMode st) (str "inline") then
    let ann :=
      annotationSpan ((if endsWithSpace fullMatch then [] else str " ")
                      ++ str "(" ++ timeStr ++ str ") ") in
    Element (str "SPAN") wrapperAttrs [moneyText; ann]
  else if JsString.eqb (displayMode st) (str "replace") then
    Element (str "SPAN") wrapperAttrs [Text timeStr]
  else Element (str "SPAN") wrapperAttrs [].

(** One turn of the [while] loop of [buildAnnotatedFragment], on the local
    [lastIndex] and the children of [frag]. *)
Definition annotateMatch (st : Settings) (textNodeValue : jsstring)
  (state : nat * list node) (m : MatchResult) : nat * list node :=
  let (lastIndex, frag) := state in
  let fullMatch := matched textNodeValue m in
  let amount := MONEY.amountFromMatch textNodeValue m in
  let matchStart := index m in
  let frag1 :=
    if lastIndex <? matchStart
    then frag ++ [Text (slice textNodeValue lastIndex matchStart)]
    else frag in
  let timeStr := formatTimeFromMoney st amount (hourlyRate st) in
  let frag2 :=
    if truthy timeStr
    then frag1 ++ [wrapperFor st fullMatch (orElse timeStr [])]
    else frag1 ++ [Text fullMatch] in
  (matchEnd m, frag2).

(** The matches the loop of [buildAnnotatedFragment] goes through. *)
Definition moneyMatches (textNodeValue : jsstring) : list MatchResult :=
  execLoop MONEY.regex textNodeValue (S (length textNodeValue)) 0.

(** [buildAnnotatedFragment(textNodeValue)]: the children of the fragment. *)
Definition buildAnnotatedFragment (st : Settings) (textNodeValue : jsstring)
  : list node :=
  let (lastIndex, frag) :=
    fold_left (annotateMatch st textNodeValue) (moneyMatches textNodeValue)
              (0, []) in
  if lastIndex <? length textNodeValue
  then frag ++ [Text (sliceFrom textNodeValue lastIndex)]
  else frag.

(** The last statement of [processTextNode]:
    [if (frag && frag.childNodes.length > 0) parent.replaceChild(frag, node)].
    [Some frag] when the node is replaced, [None] when the tree is left
    alone. *)
Definition commitFragment (frag : list node) : option (list node) :=
  if 0 <? length frag then Some frag else None.

(** [processTextNode(node)] for a text node with value [text] below the
    elements [anc]: [Some frag] when [parent.replaceChild(frag, node)] is
    called, [None] when the function returns without touching the tree. *)
Definition processTextNode (st : Settings) (anc : ancestors) (text : jsstring)
  : option (list node) :=
  match anc with
  | [] => None
  | parent :: _ =>
      if isSkipTag (fst parent) then None
      else if closestAttr PROCESSED anc then None
      else if closestAttr IGNORE anc then None
      else if negb (Regex.test MONEY.regex text) then None
      else commitFragment (buildAnnotatedFragment st text)
  end.

(** The [acceptNode] filter of the tree walker. *)
Definition acceptNode (anc : ancestors) (nodeValue : jsstring) : bool :=
  match nodeValue with
  | [] => false
  | _ =>
      if isBlank nodeValue then false
      else
        match anc with
        | [] => false
        | parent :: _ =>
            if isSkipTag (fst parent) then false
            else if closestAttr PROCESSED anc then false
            else true
        end
  end.

(** The text nodes the walker hands out below [n], in document order, each
    with its ancestors. *)
Fixpoint textNodes (anc : ancestors) (n : node) : list (ancestors * jsstring) :=
  match n with
  | Text v => if acceptNode anc v then [(anc, v)] else []
  | Element tag a children =>
      flat_map (textNodes ((tag, a) :: anc)) children
  end.

(** The scan below [n].  The script first collects the accepted text nodes
    and then calls [processTextNode] on each; a call replaces the one node it
    is given by nodes it has just created, so it changes neither the value
    nor the ancestors of another collected node, and the two loops are run
    here as one traversal.  The result is what stands in place of [n], and
    the mutation records in document order. *)
Fixpoint scanNode (st : Settings) (anc : ancestors) (n : node)
  : list node * list mutation :=
  match n with
  | Text v =>
      if acceptNode anc v then
        match processTextNode st anc v with
        | Some frag => (frag, [mkMutation n frag])
        | None => ([n], [])
        end
      else ([n], [])
  | Element tag a children =>
      let results := map (scanNode st ((tag, a) :: anc)) children in
      ([Element tag a (flat_map fst results)], flat_map snd results)
  end.

(** [processDocument(root)]: the tree afterwards and the mutations made.  The
    root is the topmost element of the model. *)
Definition processDocument (st : Settings) (root : node) : node * list mutation :=
  match root with
  | Text _ => (root, [])
  | Element tag a children =>
      let results := map (scanNode st [(tag, a)]) children in
      (Element tag a (flat_map fst results), flat_map snd results)
  end.

End Content.
Import Content.

(* ================================================================= *)
(** ** Structured prices *)

Module StructuredPrice.

Local Open Scope nat_scope.

(** [/([\d,.]+)/] *)
Definition NUMERIC : regex :=
  Group "1" (Plus (Class [CDigit; CChar 44%N; CChar 46%N])).

(** [el.querySelector(sel)?.textContent || ''] *)
Definition partText (cls : string) (el : node) : jsstring :=
  orElse (option_map textContent (querySelectorClass (str cls) el)) [].

(** The value of [priceText] after the [if]/[else]; [None] when the function
    returns at [if (!whole) return]. *)
Definition priceText (el : node) : option jsstring :=
  let offscreen := querySelectorClass (str "a-offscreen") el in
  if truthy (option_map (fun o => trim (textContent o)) offscreen)
  then option_map (fun o => trim (textContent o)) offscreen
  else
    let symbol := partText "a-price-symbol" el in
    let whole := partText "a-price-whole" el in
    let fraction := partText "a-price-fraction" el in
    match whole with
    | [] => None
    | _ => Some (symbol ++ whole ++ fraction)
    end.

(** The value of [amount]; [None] when the function has returned before. *)
Definition priceAmount (el : node) : option number :=
  match priceText el with
  | None => None
  | Some text =>
      match Regex.exec NUMERIC text 0 with
      | None => None
      | Some m =>
          Some (parseFloat (stripCommas (orElse (group text m "1"%string) [])))
      end
  end.

(** [processStructuredPrice(el)], for an element below [anc]: the element
    afterwards. *)
Definition processStructuredPrice (st : Settings) (anc : ancestors) (el : node)
  : node :=
  match el with
  | Text _ => el
  | Element tag a children =>
      if closestAttr PROCESSED ((tag, a) :: anc) then el
      else
        match priceAmount el with
        | None => el
        | Some amount =>
            let timeStr := formatTimeFromMoney st amount (hourlyRate st) in
            if negb (truthy timeStr) then el
            else
              match querySelectorClass (str "mt-annotation") el with
              | Some _ => el
              | None =>
                  let ann :=
                    annotationSpan (str " (~" ++ orElse timeStr [] ++ str ")") in
                  Element tag (setAttribute PROCESSED (str "true") a)
                          (children ++ [ann])
              end
        end
  end.

End StructuredPrice.
Import StructuredPrice.

(* ================================================================= *)
(** * Properties of the rounding *)

Module RoundingFacts.

Local Open Scope Q_scope.

(** Neither negative nor [NaN]. *)
Definition nonneg (x : number) : Prop :=
  x = PosInf \/ exists q, x = Fin q /\ 0 <= q.

(** At least one. *)
Definition atLeastOne (x : number) : Prop :=
  x = PosInf \/ exists q, x = Fin q /\ 1 <= q.

Lemma two_not_zero : ~ 2 == 0.
Proof. discriminate. Qed.

Lemma pow2_pos (z : Z) : 0 < pow2 z.
Proof. apply Qpower_0_lt. reflexivity. Qed.

Lemma pow2_le (n m : Z) : (n <= m)%Z -> pow2 n <= pow2 m.
Proof. intros H. apply Qpower_le_compat_l; [exact H | discriminate]. Qed.

Lemma pow2_lt (n m : Z) : (n < m)%Z -> pow2 n < pow2 m.
Proof. intros H. apply Qpower_lt_compat_l; [exact H | reflexivity]. Qed.

Lemma pow2_plus (n m : Z) : pow2 (n + m) == pow2 n * pow2 m.
Proof. apply Qpower_plus, two_not_zero. Qed.

Lemma pow2_Z (n : Z) : (0 <= n)%Z -> inject_Z (2 ^ n) == pow2 n.
Proof. intros H. apply (Zpower_Qpower 2 n H). Qed.

Lemma Qle_bool_false (a b : Q) : Qle_bool a b = false <-> b < a.
Proof.
  split; intros H.
  - apply Qnot_le_lt. intros Hle. apply Qle_bool_iff in Hle. congruence.
  - destruct (Qle_bool a b) eqn:E; [|reflexivity].
    apply Qle_bool_iff in E. exfalso. exact (Qlt_not_le _ _ H E).
Qed.

(** [ilog2] is the exponent of the leading bit. *)
Lemma ilog2_spec (q : Q) :
  0 < q -> pow2 (ilog2 q) <= q /\ q < pow2 (ilog2 q + 1).
Proof.
  intros Hq. destruct q as [n d].
  assert (Hn : (0 < n)%Z).
  { unfold Qlt in Hq. simpl in Hq. lia. }
  pose proof (Z.log2_spec n Hn) as [Hn1 Hn2].
  pose proof (Z.log2_spec (Zpos d) (Pos2Z.is_pos d)) as [Hd1 Hd2].
  pose proof (Z.log2_nonneg n) as Ha.
  pose proof (Z.log2_nonneg (Zpos d)) as Hb.
  set (a := Z.log2 n) in *. set (b := Z.log2 (Zpos d)) in *.
  assert (Hnq1 : pow2 a <= inject_Z n).
  { rewrite <- pow2_Z by exact Ha. rewrite <- Zle_Qle. exact Hn1. }
  assert (Hnq2 : inject_Z n < pow2 (a + 1)).
  { rewrite <- pow2_Z by lia. rewrite <- Zlt_Qlt.
    replace (a + 1)%Z with (Z.succ a) by lia. exact Hn2. }
  assert (Hdq1 : pow2 b <= inject_Z (Zpos d)).
  { rewrite <- pow2_Z by exact Hb. rewrite <- Zle_Qle. exact Hd1. }
  assert (Hdq2 : inject_Z (Zpos d) < pow2 (b + 1)).
  { rewrite <- pow2_Z by lia. rewrite <- Zlt_Qlt.
    replace (b + 1)%Z with (Z.succ b) by lia. exact Hd2. }
  assert (Hdpos : 0 < inject_Z (Zpos d)) by reflexivity.
  assert (Hq' : n # d == inject_Z n / inject_Z (Zpos d)) by apply Qmake_Qdiv.
  (* the quotient lies strictly between 2^(a-b-1) and 2^(a-b+1) *)
  assert (Hup : n # d < pow2 (a - b + 1)).
  { rewrite Hq'. apply Qlt_shift_div_r; [exact Hdpos|].
    apply Qlt_le_trans with (pow2 (a + 1)); [exact Hnq2|].
    replace (a + 1)%Z with ((a - b + 1) + b)%Z by lia.
    rewrite pow2_plus. apply Qmult_le_l; [apply pow2_pos | exact Hdq1]. }
  assert (Hlow : pow2 (a - b - 1) < n # d).
  { rewrite Hq'. apply Qlt_shift_div_l; [exact Hdpos|].
    apply Qlt_le_trans with (pow2 a); [|exact Hnq1].
    replace a with ((a - b - 1) + (b + 1))%Z at 2 by lia.
    rewrite pow2_plus. apply Qmult_lt_l; [apply pow2_pos | exact Hdq2]. }
  unfold ilog2. cbn [Qnum Qden]. fold a b.
  destruct (Qle_bool (pow2 (a - b)) (n # d)) eqn:E.
  - apply Qle_bool_iff in E. split; [exact E | exact Hup].
  - apply Qle_bool_false in E. split.
    + apply Qlt_le_weak. exact Hlow.
    + replace (a - b - 1 + 1)%Z with (a - b)%Z by lia. exact E.
Qed.

Lemma roundHalfEven_floor (s : Q) : (Qfloor s <= roundHalfEven s)%Z.
Proof.
  unfold roundHalfEven.
  destruct (Qcompare _ _); [destruct (Z.even _)| |]; lia.
Qed.

Lemma Qred_le (v w : Q) : w <= v -> w <= Qred v.
Proof. intros H. rewrite Qred_correct. exact H. Qed.

(** Rounding keeps a lower bound that is a power of two times what the
    leading bit stands for. *)
Lemma roundPositive_lower (q : Q) :
  0 < q ->
  roundPositive q = PosInf
  \/ exists v, roundPositive q = Fin v
               /\ 0 <= v
               /\ ((-1022 <= ilog2 q)%Z -> pow2 (ilog2 q) <= v).
Proof.
  intros Hq. destruct (ilog2_spec q Hq) as [Hlo _].
  unfold roundPositive.
  set (e := Z.max (ilog2 q - 52) (-1074)).
  set (m := roundHalfEven (q / pow2 e)).
  destruct (Qle_bool (pow2 1024) (inject_Z m * pow2 e)); [left; reflexivity|].
  right. exists (Qred (inject_Z m * pow2 e)). split; [reflexivity|].
  pose proof (pow2_pos e) as He.
  assert (Hs : 0 <= q / pow2 e).
  { apply Qle_shift_div_l; [exact He|]. rewrite Qmult_0_l.
    apply Qlt_le_weak. exact Hq. }
  assert (Hm0 : (0 <= m)%Z).
  { pose proof (roundHalfEven_floor (q / pow2 e)) as H.
    pose proof (Qfloor_resp_le _ _ Hs) as H0.
    change (Qfloor 0) with 0%Z in H0. unfold m. lia. }
  split.
  - apply Qred_le. apply Qmult_le_0_compat;
      [change 0 with (inject_Z 0); rewrite <- Zle_Qle; exact Hm0
      |apply Qlt_le_weak; exact He].
  - intros Hnormal. apply Qred_le.
    assert (Ee : e = (ilog2 q - 52)%Z) by (unfold e; lia).
    assert (H52 : pow2 52 <= q / pow2 e).
    { apply Qle_shift_div_l; [exact He|].
      rewrite <- pow2_plus, Ee.
      replace (52 + (ilog2 q - 52))%Z with (ilog2 q) by lia. exact Hlo. }
    assert (Hm52 : (2 ^ 52 <= m)%Z).
    { pose proof (roundHalfEven_floor (q / pow2 e)) as H.
      rewrite <- pow2_Z in H52 by lia.
      pose proof (Qfloor_resp_le _ _ H52) as H0.
      rewrite Qfloor_Z in H0. unfold m. lia. }
    replace (ilog2 q) with (52 + e)%Z at 1 by lia.
    rewrite pow2_plus. apply Qmult_le_compat_r;
      [|apply Qlt_le_weak; exact He].
    rewrite <- pow2_Z by lia. rewrite <- Zle_Qle. exact Hm52.
Qed.

Lemma round64_zero (q : Q) : q == 0 -> round64 q = Fin 0.
Proof.
  intros H. unfold round64. apply Qeq_alt in H. rewrite H. reflexivity.
Qed.

Lemma round64_positive (q : Q) : 0 < q -> round64 q = roundPositive q.
Proof.
  intros H. unfold round64. apply Qgt_alt in H. rewrite H. reflexivity.
Qed.

(** A number that is not negative rounds to one that is not negative. *)
Lemma round64_nonneg (q : Q) : 0 <= q -> nonneg (round64 q).
Proof.
  intros H. destruct (Qlt_le_dec 0 q) as [Hpos|Hle].
  - rewrite (round64_positive q Hpos).
    destruct (roundPositive_lower q Hpos) as [E|[v [E [Hv _]]]];
      [left; exact E | right; exists v; auto].
  - rewrite (round64_zero q); [|apply Qle_antisym; assumption].
    right. exists 0. split; [reflexivity | apply Qle_refl].
Qed.

(** A number from one on rounds to a number from one on. *)
Lemma round64_atLeastOne (q : Q) : 1 <= q -> atLeastOne (round64 q).
Proof.
  intros H.
  assert (Hpos : 0 < q) by (apply Qlt_le_trans with 1; [reflexivity | exact H]).
  rewrite (round64_positive q Hpos).
  destruct (ilog2_spec q Hpos) as [_ Hup].
  assert (Hl : (0 <= ilog2 q)%Z).
  { destruct (Z.le_gt_cases 0 (ilog2 q)) as [Hge|Hlt]; [exact Hge|].
    exfalso. assert (Hle : pow2 (ilog2 q + 1) <= pow2 0) by (apply pow2_le; lia).
    change (pow2 0) with 1 in Hle.
    exact (Qlt_not_le _ _ (Qlt_le_trans _ _ _ Hup Hle) H). }
  destruct (roundPositive_lower q Hpos) as [E|[v [E [_ Hv]]]];
    [left; exact E|].
  right. exists v. split; [exact E|].
  apply Qle_trans with (pow2 (ilog2 q)); [|apply Hv; lia].
  change 1 with (pow2 0). apply pow2_le. exact Hl.
Qed.

Lemma gtZero_nonneg (x : number) :
  nonneg x -> gtZero x = negb (leZero x).
Proof. intros [->|[q [-> _]]]; reflexivity. Qed.

Lemma atLeastOne_floor (x : number) : atLeastOne x -> gtZero (floor x) = true.
Proof.
  intros [->|[q [-> Hq]]]; [reflexivity|].
  cbn [floor gtZero]. apply negb_true_iff. apply Qle_bool_false.
  pose proof (Qfloor_resp_le _ _ Hq) as H. change (Qfloor 1) with 1%Z in H.
  change 0 with (inject_Z 0). rewrite <- Zlt_Qlt. lia.
Qed.

End RoundingFacts.
Import RoundingFacts.

(* ================================================================= *)
(** * Properties of the time formatter *)

Module TimeFormatterFacts.

Local Open Scope Q_scope.

(** The value of a finite number. *)
Definition valueOf (x : number) : Q :=
  match x with Fin q => q | _ => 0 end.

Definition unitMinutes (p : part) : Q := valueOf (minutes (unit_of p)).

(** The minutes accounted for by a list of parts. *)
Definition partsMinutes (parts : list part) : Q :=
  fold_right (fun p acc => valueOf (count p) * unitMinutes p + acc) 0 parts.



Definition integral (q : Q) : Prop := exists z : Z, q == inject_Z z.

Definition integralUnit (u : timeUnit) : Prop :=
  exists z : Z, minutes u = Fin (inject_Z z).

Lemma partsMinutes_app parts p :
  partsMinutes (parts ++ [p])
  == partsMinutes parts + valueOf (count p) * unitMinutes p.
Proof.
  induction parts as [|q parts IH]; simpl.
  - ring.
  - rewrite IH. ring.
Qed.

(** What [Math.floor(remaining / m)] says about [remaining], for [m > 0]. *)
Lemma floor_div_bounds (remaining m : Q) :
  0 < m ->
  inject_Z (Qfloor (remaining / m)) * m <= remaining
  /\ remaining < inject_Z (Qfloor (remaining / m)) * m + m.
Proof.
  intros Hm.
  assert (Hne : ~ m == 0) by (intro E; rewrite E in Hm; discriminate).
  pose proof (Qfloor_le (remaining / m)) as Hlo.
  pose proof (Qlt_floor (remaining / m)) as Hhi.
  rewrite inject_Z_plus in Hhi.
  assert (Hr : remaining == (remaining / m) * m) by (field; exact Hne).
  split.
  - rewrite Hr at 2. apply Qmult_le_r; assumption.
  - rewrite Hr at 1.
    setoid_replace (inject_Z (Qfloor (remaining / m)) * m + m)
      with ((inject_Z (Qfloor (remaining / m)) + inject_Z 1) * m) by ring.
    apply Qmult_lt_r; assumption.
Qed.

(** ** The shape of the result *)



(** Every emitted part is for a unit of the table. *)
Lemma unitsLoop_units (P : timeUnit -> Prop) (units : list timeUnit) :
  forall remaining parts,
  Forall P units ->
  Forall (fun p => P (unit_of p)) parts ->
  Forall (fun p => P (unit_of p)) (unitsLoop units remaining parts).
Proof.
  induction units as [|unit rest IH]; intros remaining parts Hu Hp;
    cbn [unitsLoop]; [exact Hp|].
  inversion Hu; subst.
  destruct (3 <=? length parts)%nat; [exact Hp|].
  destruct (leZero (minutes unit)); [apply IH; assumption|].
  destruct (gtZero _); [|apply IH; assumption].
  apply IH; [assumption|].
  apply Forall_app. split; [exact Hp | repeat constructor; assumption].
Qed.


(** ** The guard *)

Lemma valid_guard (a r : Q) :
  0 < a -> 0 < r ->
  negb (isFinite (Fin a)) || leZero (Fin a)
  || negb (isFinite (Fin r)) || leZero (Fin r) = false.
Proof.
  intros Ha Hr. simpl.
  rewrite (proj2 (Qle_bool_false a 0) Ha), (proj2 (Qle_bool_false r 0) Hr).
  reflexivity.
Qed.

Lemma timeParts_valid (st : Settings) (a r : Q) :
  0 < a -> 0 < r ->
  timeParts st (Fin a) (Fin r)
  = Some (unitsLoop (UNITS st) (floor (totalMinutes (Fin a) (Fin r))) []).
Proof.
  intros Ha Hr. unfold timeParts. rewrite (valid_guard a r Ha Hr). reflexivity.
Qed.

Lemma positive_not_zero (q : Q) : 0 < q -> Qeq_bool q 0 = false.
Proof.
  intros H. destruct (Qeq_bool q 0) eqn:E; [|reflexivity].
  apply Qeq_bool_iff in E. rewrite E in H. discriminate H.
Qed.

(** The computed total of a positive amount at a positive rate is not
    negative and not [NaN]; it may be zero or infinite. *)
Lemma totalMinutes_nonneg (a r : Q) :
  0 < a -> 0 < r -> nonneg (totalMinutes (Fin a) (Fin r)).
Proof.
  intros Ha Hr. unfold totalMinutes, div.
  rewrite (positive_not_zero r Hr).
  destruct (round64_nonneg (a / r)) as [E|[q [E Hq]]].
  - apply Qle_shift_div_l; [exact Hr|]. rewrite Qmult_0_l.
    apply Qlt_le_weak. exact Ha.
  - rewrite E. left. reflexivity.
  - rewrite E. cbn [mul]. apply round64_nonneg.
    apply Qmult_le_0_compat; [exact Hq | discriminate].
Qed.

(** ** When nothing is left *)

Lemma quotient_of_zero (m : number) :
  leZero m = false -> gtZero (floor (div (Fin 0) m)) = false.
Proof.
  intros H. destruct m as [| | |q]; try reflexivity.
  cbn [leZero] in H. apply Qle_bool_false in H.
  unfold div. rewrite (positive_not_zero q H).
  rewrite (round64_zero (0 / q)) by (unfold Qdiv; ring). reflexivity.
Qed.

Lemma unitsLoop_done (units : list timeUnit) : forall parts,
  unitsLoop units (Fin 0) parts = parts.
Proof.
  induction units as [|unit rest IH]; intros parts; cbn [unitsLoop];
    [reflexivity|].
  destruct (3 <=? length parts)%nat; [reflexivity|].
  destruct (leZero (minutes unit)) eqn:E; [apply IH|].
  rewrite (quotient_of_zero _ E). apply IH.
Qed.

(** ** A run without rounding *)

(** [x] is the finite number of value [q]. *)
Definition sameValue (x : number) (q : Q) : bool :=
  match x with Fin v => Qeq_bool v q | _ => false end.

(** Whether the loop, from [remaining] on with [n] parts emitted, goes
    through without a rounding error that matters: every count is the floor
    of the true quotient, and every product and every difference is the true
    one. *)
Fixpoint exactSteps (units : list timeUnit) (remaining : number) (n : nat)
  : bool :=
  match units with
  | [] => true
  | unit :: rest =>
      if (3 <=? n)%nat then true
      else if leZero (minutes unit) then exactSteps rest remaining n
      else
        match remaining, minutes unit with
        | Fin r, Fin m =>
            let count := floor (div remaining (minutes unit)) in
            sameValue count (inject_Z (Qfloor (r / m)))
            && if gtZero count then
                 let product := mul count (minutes unit) in
                 let next := sub remaining product in
                 sameValue product (valueOf count * m)
                 && sameValue next (r - valueOf count * m)
                 && exactSteps rest next (S n)
               else exactSteps rest remaining n
        | _, _ => false
        end
  end.

(** Whether [formatTimeFromMoney(amount, hourlyRate)] runs without a rounding
    error that matters: the floored total is the floor of the true total, and
    so on through the loop. *)
Definition exactRun (st : Settings) (amount hourlyRate : number) : bool :=
  match amount, hourlyRate with
  | Fin a, Fin r =>
      sameValue (floor (totalMinutes amount hourlyRate))
                (inject_Z (Qfloor (a / r * 60)))
      && exactSteps (UNITS st) (floor (totalMinutes amount hourlyRate)) 0
  | _, _ => false
  end.

Lemma sameValue_inv (x : number) (q : Q) :
  sameValue x q = true -> exists v, x = Fin v /\ v == q.
Proof.
  destruct x as [| | |v]; try discriminate.
  intros H. exists v. split; [reflexivity | apply Qeq_bool_iff; exact H].
Qed.

(** The state of the loop between two turns: what has been emitted so far,
    against the minute count [start] the loop began with. *)
Record loopInv (start remaining : Q) (parts : list part) : Prop := mkInv {
  inv_nonneg : 0 <= remaining;
  inv_sum : partsMinutes parts + remaining == start;
  inv_above : Forall (fun p => remaining < unitMinutes p) parts;
  inv_whole : Forall (fun p => integral (valueOf (count p))) parts
}.

Lemma loopInv_init (start : Q) : 0 <= start -> loopInv start start [].
Proof.
  intros H. constructor; simpl; try constructor; try assumption. ring.
Qed.

Lemma loopInv_step start r parts unit (m c r2 : Q) :
  loopInv start r parts ->
  minutes unit = Fin m -> 0 < m ->
  c == inject_Z (Qfloor (r / m)) -> 0 < c ->
  r2 == r - c * m ->
  loopInv start r2 (parts ++ [mkPart (Fin c) unit]).
Proof.
  intros [Hnn Hsum Habove Hwhole] Hunit Hm Hc Hcpos Hr2.
  destruct (floor_div_bounds r m Hm) as [Hlo Hhi].
  rewrite <- Hc in Hlo, Hhi.
  assert (Hc1 : 1 <= c).
  { rewrite Hc in Hcpos |- *. change 1 with (inject_Z 1).
    change 0 with (inject_Z 0) in Hcpos.
    rewrite <- Zle_Qle. rewrite <- Zlt_Qlt in Hcpos. lia. }
  assert (Hmc : m <= c * m).
  { setoid_replace m with (1 * m) at 1 by ring.
    apply Qmult_le_r; assumption. }
  constructor.
  - rewrite Hr2. lra.
  - rewrite partsMinutes_app. unfold unitMinutes. cbn [count unit_of valueOf].
    rewrite Hunit. cbn [valueOf]. rewrite Hr2, <- Hsum. ring.
  - apply Forall_app; split.
    + eapply Forall_impl; [|exact Habove]. intros q Hq; cbn beta in *.
      rewrite Hr2. lra.
    + repeat constructor. unfold unitMinutes. cbn [unit_of]. rewrite Hunit.
      cbn [valueOf]. rewrite Hr2. lra.
  - apply Forall_app; split; [assumption|]. repeat constructor.
    cbn [count valueOf]. exists (Qfloor (r / m)). exact Hc.
Qed.

Lemma integral_step (r m c r2 : Q) :
  integral r -> integral m -> integral c -> r2 == r - c * m -> integral r2.
Proof.
  intros [zr Hr] [zm Hm] [zc Hc] E. exists (zr - zc * zm)%Z.
  rewrite E, Hr, Hm, Hc. unfold Zminus.
  rewrite inject_Z_plus, inject_Z_opp, inject_Z_mult. ring.
Qed.

(** A run without rounding keeps the invariant; [remaining'] is the value of
    [remaining] when the loop is left.  On a table of whole minute values the
    remainder stays a whole number. *)
Lemma exactSteps_inv units : forall start r parts,
  loopInv start r parts ->
  exactSteps units (Fin r) (length parts) = true ->
  exists r',
    loopInv start r' (unitsLoop units (Fin r) parts)
    /\ (Forall integralUnit units -> integral r -> integral r').
Proof.
  induction units as [|unit rest IH]; intros start r parts Hinv Hex;
    cbn [unitsLoop exactSteps] in *.
  - exists r. split; [assumption | tauto].
  - destruct (3 <=? length parts)%nat.
    + exists r. split; [assumption | tauto].
    + destruct (leZero (minutes unit)) eqn:Hm.
      * destruct (IH _ _ _ Hinv Hex) as [r' [H1 H2]].
        exists r'. split; [assumption|].
        intros Hu Hr. inversion Hu; subst. auto.
      * destruct (minutes unit) as [| | |m] eqn:Eunit; try discriminate.
        cbn [leZero] in Hm. apply Qle_bool_false in Hm.
        apply andb_true_iff in Hex. destruct Hex as [Hcount Hex].
        apply sameValue_inv in Hcount. destruct Hcount as [c [Ec Hc]].
        rewrite Ec in *.
        destruct (gtZero (Fin c)) eqn:Hpos.
        -- apply andb_true_iff in Hex. destruct Hex as [Hex Hrest].
           apply andb_true_iff in Hex. destruct Hex as [Hprod Hnext].
           apply sameValue_inv in Hprod, Hnext.
           destruct Hprod as [p [Ep Hp]]. destruct Hnext as [r2 [Er2 Hr2]].
           cbn [valueOf] in *. rewrite Er2 in *.
           cbn [gtZero] in Hpos. apply negb_true_iff in Hpos.
           apply Qle_bool_false in Hpos.
           assert (Hinv' : loopInv start r2 (parts ++ [mkPart (Fin c) unit]))
             by (eapply loopInv_step; eauto).
           assert (Hlen : length (parts ++ [mkPart (Fin c) unit])
                          = S (length parts))
             by (rewrite length_app; simpl; lia).
           rewrite <- Hlen in Hrest.
           destruct (IH _ _ _ Hinv' Hrest) as [r' [H1 H2]].
           exists r'. split; [assumption|].
           intros Hu Hr. inversion Hu as [|? ? [zm Hzm] Hu']; subst.
           apply H2; [assumption|].
           eapply integral_step; [exact Hr | | | exact Hr2].
           ++ exists zm. rewrite Eunit in Hzm. injection Hzm as ->.
              reflexivity.
           ++ exists (Qfloor (r / m)). exact Hc.
        -- destruct (IH _ _ _ Hinv Hex) as [r' [H1 H2]].
           exists r'. split; [assumption|].
           intros Hu Hr. inversion Hu; subst. auto.
Qed.

End TimeFormatterFacts.
Import TimeFormatterFacts.







(** The bound of claim C3 for one call: the emitted minutes do not exceed the
    true total [a / r * 60], and the shortfall is below the minute value of
    every emitted unit, hence below the smallest. *)
Definition truncationBound (a r : Q) (parts : list part) : Prop :=
  partsMinutes parts <= a / r * 60
  /\ forall p, In p parts -> a / r * 60 - partsMinutes parts < unitMinutes p.

(** The binary64 numbers written 7.51 and 901.7. *)
Definition hours751 : Q := 4227754150194053 # 562949953421312.
Definition amount9017 : Q := 3965718539062477 # 4398046511104.

(** A schedule of 7.51 hours a day, five days a week. *)
Definition schedule751 : Settings :=
  {| hourlyRate := Fin 60;
     displayMode := str "inline";
     hoursPerDay := Fin hours751;
     daysPerWeek := Fin 5 |}.

(** C3, counterexample.  With 7.51 hours a day, an amount of 901.70 at a rate
    of 60 is 901.7 minutes; the formatter emits 1 d, 7 h and 30 min, which
    account for about 900.6 minutes, and the shortfall of about 1.1 minutes
    is not below the one minute of the smallest emitted unit.  No rounding
    error is involved: the run is an exact one. *)
Lemma truncationBound_counterexample :
  exists parts,
    timeParts schedule751 (Fin amount9017) (Fin 60) = Some parts
    /\ map count parts = [Fin 1; Fin 7; Fin 30]
    /\ map (fun p => short (unit_of p)) parts = [str "d"; str "h"; str "min"]
    /\ parts <> []
    /\ exactRun schedule751 (Fin amount9017) (Fin 60) = true
    /\ ~ truncationBound amount9017 60 parts.
Proof.
  eexists. split; [vm_compute; reflexivity|].
  split; [reflexivity|]. split; [reflexivity|]. split; [discriminate|].
  split; [vm_compute; reflexivity|].
  intros [_ H].
  specialize (H (mkPart (Fin 30) (mkUnit (str "min") (Fin 1)))).
  assert (Hin : In (mkPart (Fin 30) (mkUnit (str "min") (Fin 1)))
                   [mkPart (Fin 1)
                      (mkUnit (str "d")
                         (Fin (7927039031613849 # 17592186044416)));
                    mkPart (Fin 7) (mkUnit (str "h") (Fin 60));
                    mkPart (Fin 30) (mkUnit (str "min") (Fin 1))])
    by (right; right; left; reflexivity).
  specialize (H Hin). vm_compute in H. discriminate H.
Qed.

(** With rounding the formatter can lose a whole minute: 123 at a rate of 60
    is exactly 123 minutes, the computed total is a little less, and the
    string is "2h 2min". *)
Example rounding_loses_a_minute :
  123 / 60 * 60 == 123
  /\ floor (totalMinutes (Fin 123) (Fin 60)) = Fin 122
  /\ formatTimeFromMoney DEFAULT (Fin 123) (Fin 60) = Some (str "2h 2min")
  /\ exactRun DEFAULT (Fin 123) (Fin 60) = false.
Proof. repeat split; vm_compute; reflexivity. Qed.

(** C3, as amended.  When the run goes through without a rounding error that
    matters, the emitted minutes never exceed the true total, and the
    shortfall is below the minute value of every emitted unit plus one; when
    moreover every entry of the unit table is a whole number of minutes (as
    with the default schedule) the shortfall is below the minute value of
    every emitted unit.  Nothing is said of a run that rounding affects. *)
Theorem truncation_bound (st : Settings) (a r : Q) (parts : list part) :
  0 < a -> 0 < r ->
  timeParts st (Fin a) (Fin r) = Some parts ->
  exactRun st (Fin a) (Fin r) = true ->
  partsMinutes parts <= a / r * 60
  /\ (forall p, In p parts ->
        a / r * 60 - partsMinutes parts < unitMinutes p + 1)
  /\ (Forall integralUnit (UNITS st) -> truncationBound a r parts).
Proof.
  intros Ha Hr Hparts Hexact.
  rewrite (timeParts_valid st a r Ha Hr) in Hparts.
  unfold exactRun in Hexact. apply andb_true_iff in Hexact.
  destruct Hexact as [Hfloor Hsteps].
  apply sameValue_inv in Hfloor. destruct Hfloor as [f [Ef Hf]].
  rewrite Ef in *.
  assert (E : unitsLoop (UNITS st) (Fin f) [] = parts) by congruence.
  clear Hparts. subst parts.
  assert (Htotal : 0 <= a / r * 60).
  { apply Qmult_le_0_compat; [|discriminate].
    apply Qle_shift_div_l; [exact Hr|]. rewrite Qmult_0_l.
    apply Qlt_le_weak. exact Ha. }
  assert (Hf0 : 0 <= f).
  { rewrite Hf. change 0 with (inject_Z 0). rewrite <- Zle_Qle.
    change 0%Z with (Qfloor 0). apply Qfloor_resp_le. exact Htotal. }
  destruct (exactSteps_inv (UNITS st) f f [] (loopInv_init f Hf0) Hsteps)
    as [r' [[Hnn Hsum Habove Hwhole] Hint]].
  set (parts := unitsLoop (UNITS st) (Fin f) []) in *.
  pose proof (Qfloor_le (a / r * 60)) as Hlo.
  pose proof (Qlt_floor (a / r * 60)) as Hhi.
  rewrite inject_Z_plus in Hhi. change (inject_Z 1) with 1 in Hhi.
  rewrite <- Hf in Hlo, Hhi.
  assert (Hle : partsMinutes parts <= a / r * 60) by lra.
  split; [exact Hle|]. split.
  - intros p Hp. rewrite Forall_forall in Habove.
    specialize (Habove p Hp). cbn beta in Habove. lra.
  - intros Hunits. split; [exact Hle|].
    intros p Hp.
    destruct Hint as [k Hk];
      [assumption | exists (Qfloor (a / r * 60)); exact Hf|].
    rewrite Forall_forall in Habove. specialize (Habove p Hp).
    cbn beta in Habove.
    assert (Hunit : exists j, unitMinutes p == inject_Z j).
    { assert (Hall : Forall (fun q => integralUnit (unit_of q)) parts).
      { apply unitsLoop_units; [exact Hunits | constructor]. }
      rewrite Forall_forall in Hall.
      destruct (Hall p Hp) as [j Hj]. exists j. unfold unitMinutes.
      rewrite Hj. reflexivity. }
    destruct Hunit as [j Hj].
    assert (Hkj : (k < j)%Z) by (rewrite Zlt_Qlt, <- Hk, <- Hj; exact Habove).
    assert (Hkj' : inject_Z k <= inject_Z j - 1).
    { setoid_replace (inject_Z j - 1) with (inject_Z (j - 1)).
      - rewrite <- Zle_Qle. lia.
      - unfold Zminus. rewrite inject_Z_plus, inject_Z_opp. reflexivity. }
    lra.
Qed.

Lemma default_units_integral : Forall integralUnit (UNITS DEFAULT).
Proof.
  repeat constructor; unfold integralUnit.
  - exists 12480000%Z. reflexivity.
  - exists 124800%Z. reflexivity.
  - exists 10400%Z. reflexivity.
  - exists 2400%Z. reflexivity.
  - exists 480%Z. reflexivity.
  - exists 60%Z. reflexivity.
  - exists 1%Z. reflexivity.
Qed.

Lemma truncation_bound_witness :
  let parts :=
    unitsLoop (UNITS DEFAULT) (floor (totalMinutes (Fin 1000) (Fin 15))) [] in
  partsMinutes parts <= 1000 / 15 * 60
  /\ (forall p, In p parts ->
        1000 / 15 * 60 - partsMinutes parts < unitMinutes p + 1)
  /\ truncationBound 1000 15 parts.
Proof.
  intro parts.
  destruct (truncation_bound DEFAULT 1000 15 parts) as [H1 [H2 H3]];
    [reflexivity | reflexivity | reflexivity | vm_compute; reflexivity |].
  split; [exact H1|]. split; [exact H2|].
  apply H3. exact default_units_integral.
Defined.

(** The guard at the head of [formatTimeFromMoney]. *)
Definition invalidInput (amount hourlyRate : number) : Prop :=
  isFinite amount = false \/ leZero amount = true
  \/ isFinite hourlyRate = false \/ leZero hourlyRate = true.

(** The binary64 number written 0.1. *)
Definition tenth : Q := 3602879701896397 # 36028797018963968.

(** C4, counterexample.  A tenth of a currency unit at a rate of 15 is 0.4
    minutes: no part is emitted and the string returned is "<1m", which is
    not the string "<1 min". *)
Lemma sentinel_counterexample :
  floor (totalMinutes (Fin tenth) (Fin 15)) = Fin 0
  /\ formatTimeFromMoney DEFAULT (Fin tenth) (Fin 15) = Some (str "<1m")
  /\ formatTimeFromMoney DEFAULT (Fin tenth) (Fin 15) <> Some (str "<1 min").
Proof.
  split; [reflexivity|]. split; [reflexivity|]. vm_compute. discriminate.
Qed.

(** C4, as amended.  [formatTimeFromMoney] returns [null] exactly when the
    amount or the hourly rate is not finite or not positive; and for valid
    inputs whose floored total of minutes is 0 it returns the string "<1m". *)
Theorem formatTime_null_iff_invalid (st : Settings) (amount hourlyRate : number) :
  (formatTimeFromMoney st amount hourlyRate = None
   <-> invalidInput amount hourlyRate)
  /\ (forall a r, amount = Fin a -> hourlyRate = Fin r -> 0 < a -> 0 < r ->
      floor (totalMinutes amount hourlyRate) = Fin 0 ->
      formatTimeFromMoney st amount hourlyRate = Some (str "<1m")).
Proof.
  split.
  - unfold formatTimeFromMoney, timeParts, invalidInput.
    destruct amount as [| | |a], hourlyRate as [| | |r];
      cbn [isFinite leZero negb orb];
      try destruct (Qle_bool a 0); try destruct (Qle_bool r 0);
      cbn [orb];
      try (split;
           [ intros _;
             first [ left; reflexivity | right; left; reflexivity
                   | right; right; left; reflexivity
                   | right; right; right; reflexivity ]
           | reflexivity ]).
    split.
    + destruct (length _ =? 0)%nat; discriminate.
    + intros [H|[H|[H|H]]]; discriminate.
  - intros a r -> -> Ha Hr Hfloor.
    unfold formatTimeFromMoney. rewrite (timeParts_valid st a r Ha Hr).
    rewrite Hfloor, unitsLoop_done. reflexivity.
Qed.

Lemma formatTime_null_iff_invalid_witness :
  formatTimeFromMoney DEFAULT (Fin tenth) (Fin 15) = Some (str "<1m").
Proof.
  apply (proj2 (formatTime_null_iff_invalid DEFAULT (Fin tenth) (Fin 15))
           tenth 15); reflexivity.
Defined.

(** C5, counterexample.  The parts are joined with a space: the string for
    1000 at 15 an hour is not "1w3d2h". *)
Lemma scenario_1000_counterexample :
  formatTimeFromMoney DEFAULT (Fin 1000) (Fin 15) <> Some (str "1w3d2h").
Proof. vm_compute. discriminate. Qed.

(** C5, as amended.  With amount 1000, rate 15, 8 hours a day and 5 days a
    week: a day is 480 work minutes and a week 2400, the total is 4000
    minutes, which is also the floor of the total as computed, the loop emits
    1 week, 3 days and 2 hours (2400 + 1440 + 120 of the 4000 minutes, the
    last 40 dropped), and the string is "1w 3d 2h". *)
Theorem scenario_1000 :
  workMinutesPerDay DEFAULT = Fin 480
  /\ workMinutesPerWeek DEFAULT = Fin 2400
  /\ 1000 / 15 * 60 == 4000
  /\ floor (totalMinutes (Fin 1000) (Fin 15)) = Fin 4000
  /\ (exists parts,
        timeParts DEFAULT (Fin 1000) (Fin 15) = Some parts
        /\ map count parts = [Fin 1; Fin 3; Fin 2]
        /\ map (fun p => short (unit_of p)) parts = [str "w"; str "d"; str "h"]
        /\ partsMinutes parts == 3960)
  /\ formatTimeFromMoney DEFAULT (Fin 1000) (Fin 15) = Some (str "1w 3d 2h").
Proof.
  repeat split; try reflexivity.
  eexists. repeat split; reflexivity.
Qed.

(** The same scenarios in the other revisions of the formatter: the strings
    "1w3d2h" and "<1 min" are theirs. *)
Example compact_revision_1000 :
  CompactRevision.formatTimeFromMoney DEFAULT (Fin 1000) (Fin 15)
  = Some (str "1w3d2h").
Proof. reflexivity. Qed.

Example calendar_revision_sentinel :
  CalendarRevision.formatTimeFromMoney (Fin tenth) (Fin 15)
  = Some (str "<1 min").
Proof. reflexivity. Qed.

Example calendar_revision_1000 :
  CalendarRevision.formatTimeFromMoney (Fin 1000) (Fin 15)
  = Some (str "2 days 18 hours 40 mins").
Proof. reflexivity. Qed.

(** A count beyond [10^21] is printed in the exponential form, with the
    digits that tell the binary64 from its neighbours. *)
Example large_count :
  formatTimeFromMoney DEFAULT (Fin (inject_Z (2 ^ 100))) (Fin 15)
  = Some (str "4.0629826930391966e+23c").
Proof. vm_compute. reflexivity. Qed.

(** Below [10^21] too the digits are those of the shortest decimal that reads
    as the number: [2^64] is printed with three zeros at the end. *)
Example count_above_2_53 :
  numberToString (Fin (inject_Z (2 ^ 64))) = str "18446744073709552000"
  /\ numberToString (Fin (inject_Z (2 ^ 53))) = str "9007199254740992".
Proof. split; vm_compute; reflexivity. Qed.

(* ================================================================= *)
(** * Properties of the matcher *)

Module RegexFacts.

Local Open Scope nat_scope.

(** A pattern that can match without consuming input. *)
Fixpoint nullable (r : regex) : bool :=
  match r with
  | Empty => true
  | Class _ => false
  | WordB => true
  | Seq a b => nullable a && nullable b
  | Alt a b => nullable a || nullable b
  | Quant r' min max =>
      (min =? 0) || nullable r'
      || match max with Some 0 => true | _ => false end
  | Group _ r' => nullable r'
  end.

(** No quantifier has its bounds out of order (a syntax error in a pattern). *)
Fixpoint wellFormed (r : regex) : bool :=
  match r with
  | Seq a b | Alt a b => wellFormed a && wellFormed b
  | Quant r' min max =>
      match max with Some k => min <=? k | None => true end && wellFormed r'
  | Group _ r' => wellFormed r'
  | _ => true
  end.

(** The words a pattern can cover, the assertions left aside: a match of the
    pattern from [i] to [j] covers such a word ([rmatch_word]). *)
Fixpoint matchesWord (r : regex) (w : jsstring) : Prop :=
  match r with
  | Empty => w = []
  | Class items => exists ch, w = [ch] /\ classMatches items ch = true
  | WordB => w = []
  | Seq a b => exists u v, w = u ++ v /\ matchesWord a u /\ matchesWord b v
  | Alt a b => matchesWord a w \/ matchesWord b w
  | Quant r' min max =>
      exists ws, w = concat ws /\ Forall (matchesWord r') ws
                 /\ min <= length ws
                 /\ (forall k, max = Some k -> length ws <= k)
  | Group _ r' => matchesWord r' w
  end.

(** The patterns enclosed by the groups called [n] inside [r]. *)
Fixpoint groupsNamed (n : string) (r : regex) : list regex :=
  match r with
  | Seq a b | Alt a b => groupsNamed n a ++ groupsNamed n b
  | Quant r' _ _ => groupsNamed n r'
  | Group n' r' => (if String.eqb n' n then [r'] else []) ++ groupsNamed n r'
  | _ => []
  end.

(** A pattern that sets the group [n] on every path through it (groups under
    a quantifier are not counted). *)
Fixpoint alwaysSets (n : string) (r : regex) : bool :=
  match r with
  | Seq a b => alwaysSets n a || alwaysSets n b
  | Alt a b => alwaysSets n a && alwaysSets n b
  | Group n' r' => String.eqb n' n || alwaysSets n r'
  | _ => false
  end.

(** *** Lists and slices *)

Lemma flat_map_nil {A B : Type} (f : A -> list B) (l : list A) :
  (forall a, In a l -> f a = []) -> flat_map f l = [].
Proof.
  induction l as [|a l IH]; intros H; simpl; [reflexivity|].
  rewrite (H a (or_introl eq_refl)), IH; [reflexivity|].
  intros b Hb. apply H. right. exact Hb.
Qed.

Lemma flat_map_ext_in {A B : Type} (f g : A -> list B) (l : list A) :
  (forall a, In a l -> f a = g a) -> flat_map f l = flat_map g l.
Proof.
  induction l as [|a l IH]; intros H; simpl; [reflexivity|].
  rewrite (H a (or_introl eq_refl)), IH; [reflexivity|].
  intros b Hb. apply H. right. exact Hb.
Qed.

Lemma firstn_plus {A : Type} (a b : nat) (l : list A) :
  firstn (a + b) l = firstn a l ++ firstn b (skipn a l).
Proof.
  revert l. induction a as [|a IH]; intros l; [reflexivity|].
  destruct l as [|c l]; simpl.
  - rewrite firstn_nil. reflexivity.
  - rewrite IH. reflexivity.
Qed.

Lemma slice_refl (s : jsstring) (i : nat) : slice s i i = [].
Proof. unfold slice. rewrite Nat.sub_diag. reflexivity. Qed.

Lemma slice_app (s : jsstring) (i j k : nat) :
  i <= j -> j <= k -> slice s i k = slice s i j ++ slice s j k.
Proof.
  intros Hij Hjk. unfold slice.
  replace (k - i) with ((j - i) + (k - j)) by lia.
  rewrite firstn_plus, skipn_skipn.
  replace (j - i + i) with j by lia. reflexivity.
Qed.

Lemma slice_unit (s : jsstring) (i : nat) (ch : N) :
  nth_error s i = Some ch -> slice s i (S i) = [ch].
Proof.
  unfold slice. replace (S i - i) with 1 by lia.
  revert i. induction s as [|c s IH]; intros [|i] H; simpl in *;
    try discriminate.
  - injection H as ->. reflexivity.
  - apply IH. exact H.
Qed.

(** *** Quantifiers as iteration *)

Section Iterates.

Variable m : MatchState -> list MatchState.

(** [iterates n x y]: [y] is reached from [x] by [n] runs of [m]. *)
Inductive iterates : nat -> MatchState -> MatchState -> Prop :=
| iterates_stop (x : MatchState) : iterates 0 x x
| iterates_step (n : nat) (x z y : MatchState) :
    In z (m x) -> iterates n z y -> iterates (S n) x y.

Lemma repeatMatcher_stop (fuel min : nat) (x : MatchState) :
  repeatMatcher m fuel min (Some 0) x = [x].
Proof. destruct fuel; reflexivity. Qed.

Lemma repeatMatcher_S (fuel min : nat) (max : option nat) (x : MatchState) :
  max <> Some 0 ->
  repeatMatcher m (S fuel) min max x
  = (flat_map (fun y =>
       if (min =? 0) && (endIndex y =? endIndex x) then []
       else repeatMatcher m fuel (pred min) (option_map pred max) y) (m x))
    ++ (if min =? 0 then [x] else []).
Proof.
  intros Hmax. cbn [repeatMatcher].
  destruct max as [[|k]|]; try congruence;
    (destruct (min =? 0); [reflexivity | rewrite app_nil_r; reflexivity]).
Qed.

Lemma max_cases (max : option nat) : {max = Some 0} + {max <> Some 0}.
Proof. destruct max as [[|k]|]; [left | right | right]; congruence. Qed.

(** Every end state of [repeatMatcher] is reached by a number of runs of the
    atom that respects the bounds of the quantifier. *)
Lemma repeatMatcher_iterates (fuel : nat) : forall min max x y,
  In y (repeatMatcher m fuel min max x) ->
  exists n,
    iterates n x y
    /\ (forall k, max = Some k -> n <= k)
    /\ ((forall k, max = Some k -> min <= k) -> min <= n)
    /\ (0 < min -> max <> Some 0 -> 0 < n).
Proof.
  assert (Hstop : forall min max (x : MatchState),
    min = 0 \/ max = Some 0 ->
    exists n,
      iterates n x x
      /\ (forall k, max = Some k -> n <= k)
      /\ ((forall k, max = Some k -> min <= k) -> min <= n)
      /\ (0 < min -> max <> Some 0 -> 0 < n)).
  { intros min max x H. exists 0. split; [constructor|].
    split; [intros; lia|]. split.
    - intros Hwf. destruct H as [->| ->]; [lia|]. apply (Hwf 0 eq_refl).
    - intros Hmin Hmax. destruct H; [lia | congruence]. }
  induction fuel as [|fuel IH]; intros min max x y Hy.
  - destruct (max_cases max) as [->|Hmax].
    + rewrite repeatMatcher_stop in Hy. destruct Hy as [<-|[]].
      apply Hstop. right; reflexivity.
    + cbn [repeatMatcher] in Hy.
      assert (Hy' : In y (if min =? 0 then [x] else []))
        by (destruct max as [[|k]|]; [congruence | exact Hy | exact Hy]).
      destruct (min =? 0) eqn:E; [|destruct Hy'].
      destruct Hy' as [<-|[]]. apply Hstop. left. apply Nat.eqb_eq. exact E.
  - destruct (max_cases max) as [->|Hmax].
    + rewrite repeatMatcher_stop in Hy. destruct Hy as [<-|[]].
      apply Hstop. right; reflexivity.
    + rewrite (repeatMatcher_S _ _ _ _ Hmax) in Hy.
      apply in_app_or in Hy. destruct Hy as [Hy|Hy].
      * apply in_flat_map in Hy. destruct Hy as [z [Hz Hy]].
        destruct ((min =? 0) && (endIndex z =? endIndex x)); [destruct Hy|].
        destruct (IH _ _ _ _ Hy) as [n [Hit [Hub [Hlb _]]]].
        exists (S n). split; [econstructor; eassumption|].
        split; [|split].
        -- intros k ->. destruct k as [|k]; [congruence|].
           specialize (Hub k eq_refl). lia.
        -- intros Hwf. enough (pred min <= n) by lia. apply Hlb.
           intros k Hk. destruct max as [k'|]; [|discriminate].
           injection Hk as <-. specialize (Hwf k' eq_refl). lia.
        -- intros; lia.
      * destruct (min =? 0) eqn:E; [|destruct Hy].
        destruct Hy as [<-|[]]. apply Hstop. left. apply Nat.eqb_eq. exact E.
Qed.

End Iterates.

Section Matcher.

Variable input : jsstring.

(** End states lie at or after the start state, and inside the input unless
    nothing was consumed. *)
Definition advances (m : MatchState -> list MatchState) : Prop :=
  forall x y, In y (m x) ->
    endIndex x <= endIndex y
    /\ (endIndex y = endIndex x \/ endIndex y <= length input).

Definition consumes (m : MatchState -> list MatchState) : Prop :=
  forall x y, In y (m x) -> endIndex x < endIndex y.

(** A capture of an end state was there at the start or was set by a group
    of that name, to a span its pattern covers. *)
Definition capturesFrom (r : regex) (m : MatchState -> list MatchState)
  : Prop :=
  forall x y, In y (m x) ->
  forall n sp, capture n (captures y) = Some sp ->
    capture n (captures x) = Some sp
    \/ exists r', In r' (groupsNamed n r)
                  /\ matchesWord r' (slice input (fst sp) (snd sp)).

Definition keepsCaptures (m : MatchState -> list MatchState) : Prop :=
  forall x y n, In y (m x) ->
    capture n (captures x) <> None -> capture n (captures y) <> None.

Lemma iterates_advances m (n : nat) (x y : MatchState) :
  advances m -> iterates m n x y ->
  endIndex x <= endIndex y
  /\ (endIndex y = endIndex x \/ endIndex y <= length input).
Proof.
  intros Hm Hit. induction Hit as [x|n x z y Hz _ IH]; [lia|].
  destruct (Hm _ _ Hz). lia.
Qed.

Lemma iterates_consumes m (n : nat) (x y : MatchState) :
  advances m -> consumes m -> iterates m n x y -> 0 < n ->
  endIndex x < endIndex y.
Proof.
  intros Hadv Hm Hit Hn. destruct Hit as [x|n x z y Hz Hit]; [lia|].
  pose proof (Hm _ _ Hz). destruct (iterates_advances m _ _ _ Hadv Hit). lia.
Qed.

Lemma iterates_word m (W : jsstring -> Prop) (n : nat) (x y : MatchState) :
  advances m ->
  (forall x y, In y (m x) -> W (slice input (endIndex x) (endIndex y))) ->
  iterates m n x y ->
  exists ws, length ws = n
             /\ slice input (endIndex x) (endIndex y) = concat ws
             /\ Forall W ws.
Proof.
  intros Hadv Hm Hit. induction Hit as [x|n x z y Hz Hit [ws [Hlen [Hs Hall]]]].
  - exists []. rewrite slice_refl. repeat split. constructor.
  - exists (slice input (endIndex x) (endIndex z) :: ws).
    split; [simpl; congruence|]. split.
    + simpl. rewrite <- Hs. apply slice_app;
        [apply (Hadv _ _ Hz) | apply (iterates_advances m _ _ _ Hadv Hit)].
    + constructor; [apply Hm; exact Hz | exact Hall].
Qed.

Lemma iterates_capturesFrom (r : regex) m (n : nat) (x y : MatchState) :
  capturesFrom r m -> iterates m n x y ->
  forall name sp, capture name (captures y) = Some sp ->
    capture name (captures x) = Some sp
    \/ exists r', In r' (groupsNamed name r)
                  /\ matchesWord r' (slice input (fst sp) (snd sp)).
Proof.
  intros Hm Hit name sp. induction Hit as [x|n x z y Hz _ IH]; [auto|].
  intros Hc. destruct (IH Hc) as [Hc'|Hg]; [|right; exact Hg].
  exact (Hm _ _ Hz name sp Hc').
Qed.

Lemma iterates_keeps m (n : nat) (x y : MatchState) (name : string) :
  keepsCaptures m -> iterates m n x y ->
  capture name (captures x) <> None -> capture name (captures y) <> None.
Proof.
  intros Hm Hit. induction Hit as [x|n x z y Hz _ IH]; [auto|].
  intros Hc. apply IH. exact (Hm _ _ name Hz Hc).
Qed.

(** *** The matcher *)

(** The patterns that pass their start state on or fail (the empty pattern,
    a class, an assertion): the end state [y] has the captures of [x]. *)
Ltac leaf_state Hy :=
  repeat match type of Hy with
         | In _ (match nth_error ?s ?e with _ => _ end) =>
             destruct (nth_error s e); [|destruct Hy]
         | In _ (if ?b then _ else _) => destruct b; [|destruct Hy]
         end;
  destruct Hy as [<-|[]].

Lemma rmatch_advances (r : regex) : advances (rmatch r input).
Proof.
  induction r as [|items| |a IHa b IHb|a IHa b IHb|r IH min max|name r IH];
    intros x y Hy; cbn [rmatch] in Hy.
  - simpl in Hy. intuition (subst; auto).
  - destruct (nth_error input (endIndex x)) as [ch|] eqn:Hnth; [|destruct Hy].
    destruct (classMatches items ch); [|destruct Hy].
    destruct Hy as [<-|[]]. simpl.
    assert (endIndex x < length input) by (apply nth_error_Some; congruence).
    lia.
  - destruct (isWordBoundary input (endIndex x)); simpl in Hy;
      intuition (subst; auto).
  - apply in_flat_map in Hy. destruct Hy as [z [Hz Hy]].
    destruct (IHa _ _ Hz), (IHb _ _ Hy). lia.
  - apply in_app_or in Hy. destruct Hy as [Hy|Hy]; [apply IHa | apply IHb]; exact Hy.
  - apply repeatMatcher_iterates in Hy. destruct Hy as [n [Hit _]].
    exact (iterates_advances _ _ _ _ IH Hit).
  - apply in_map_iff in Hy. destruct Hy as [z [<- Hz]]. simpl. apply IH. exact Hz.
Qed.

(** A pattern that is not nullable consumes at least one code unit. *)
Lemma rmatch_consumes (r : regex) :
  nullable r = false -> consumes (rmatch r input).
Proof.
  induction r as [|items| |a IHa b IHb|a IHa b IHb|r IH min max|name r IH];
    intros Hn x y Hy; cbn [nullable] in Hn; try discriminate;
    cbn [rmatch] in Hy.
  - destruct (nth_error input (endIndex x)) as [ch|]; [|destruct Hy].
    destruct (classMatches items ch); [|destruct Hy].
    destruct Hy as [<-|[]]. simpl. lia.
  - apply in_flat_map in Hy. destruct Hy as [z [Hz Hy]].
    destruct (rmatch_advances a _ _ Hz) as [Ha _].
    destruct (rmatch_advances b _ _ Hy) as [Hb _].
    apply andb_false_iff in Hn. destruct Hn as [Hn|Hn].
    + pose proof (IHa Hn _ _ Hz). lia.
    + pose proof (IHb Hn _ _ Hy). lia.
  - apply orb_false_iff in Hn. destruct Hn as [Hna Hnb].
    apply in_app_or in Hy. destruct Hy as [Hy|Hy]; [apply IHa | apply IHb]; auto.
  - apply orb_false_iff in Hn. destruct Hn as [Hn Hmax].
    apply orb_false_iff in Hn. destruct Hn as [Hmin Hr].
    apply Nat.eqb_neq in Hmin.
    apply repeatMatcher_iterates in Hy. destruct Hy as [n [Hit [_ [_ Hpos]]]].
    apply (iterates_consumes _ n _ _ (rmatch_advances r) (IH Hr) Hit).
    apply Hpos; [lia|]. destruct max as [[|k]|]; congruence.
  - apply in_map_iff in Hy. destruct Hy as [z [<- Hz]]. simpl. apply IH; auto.
Qed.

(** Once [fuel] covers the iterations still owed and the input still ahead,
    more of it changes nothing: the result of [repeatMatcher] is that of the
    unbounded recursion. *)
Lemma repeatMatcher_fuel m :
  advances m ->
  forall fuel min max x,
    min + (length input - endIndex x) <= fuel ->
    repeatMatcher m (S fuel) min max x = repeatMatcher m fuel min max x.
Proof.
  intros Hm fuel min max x.
  destruct (max_cases max) as [->|Hmax];
    [intros _; rewrite !repeatMatcher_stop; reflexivity|].
  revert min max x Hmax.
  induction fuel as [|fuel IH]; intros min max x Hmax Hfuel.
  - assert (min = 0) by lia. subst min.
    rewrite (repeatMatcher_S _ _ _ _ _ Hmax).
    replace (repeatMatcher m 0 0 max x) with [x]
      by (destruct max as [[|k]|]; [congruence | reflexivity | reflexivity]).
    rewrite flat_map_nil; [reflexivity|].
    intros y Hy. destruct (Hm _ _ Hy) as [H1 H2].
    assert (E : endIndex y = endIndex x) by lia.
    rewrite E, !Nat.eqb_refl. reflexivity.
  - rewrite (repeatMatcher_S _ (S fuel) _ _ _ Hmax),
            (repeatMatcher_S _ fuel _ _ _ Hmax).
    f_equal. apply flat_map_ext_in. intros y Hy.
    destruct ((min =? 0) && (endIndex y =? endIndex x)) eqn:E; [reflexivity|].
    destruct (max_cases (option_map pred max)) as [E0|Hmax'];
      [rewrite E0, !repeatMatcher_stop; reflexivity|].
    apply IH; [exact Hmax'|].
    destruct (Hm _ _ Hy) as [H1 H2].
    apply andb_false_iff in E. destruct E as [E|E]; apply Nat.eqb_neq in E; lia.
Qed.

Corollary quant_fuel (r : regex) (min : nat) (max : option nat) (extra : nat)
  (x : MatchState) :
  repeatMatcher (rmatch r input) (min + length input + extra) min max x
  = rmatch (Quant r min max) input x.
Proof.
  cbn [rmatch]. induction extra as [|extra IH].
  - rewrite Nat.add_0_r. reflexivity.
  - rewrite Nat.add_succ_r, repeatMatcher_fuel; [exact IH| |lia].
    apply rmatch_advances.
Qed.

(** The word between the start and the end of a match is a word of the
    pattern. *)
Lemma rmatch_word (r : regex) :
  wellFormed r = true ->
  forall x y, In y (rmatch r input x) ->
    matchesWord r (slice input (endIndex x) (endIndex y)).
Proof.
  induction r as [|items| |a IHa b IHb|a IHa b IHb|r IH min max|name r IH];
    intros Hwf x y Hy; cbn [rmatch] in Hy; cbn [matchesWord wellFormed] in *.
  - destruct Hy as [<-|[]]. apply slice_refl.
  - destruct (nth_error input (endIndex x)) as [ch|] eqn:Hnth; [|destruct Hy].
    destruct (classMatches items ch) eqn:Hc; [|destruct Hy].
    destruct Hy as [<-|[]]. cbn [endIndex].
    exists ch. split; [apply slice_unit; exact Hnth | exact Hc].
  - destruct (isWordBoundary input (endIndex x)); [|destruct Hy].
    destruct Hy as [<-|[]]. apply slice_refl.
  - apply andb_true_iff in Hwf. destruct Hwf as [Ha Hb].
    apply in_flat_map in Hy. destruct Hy as [z [Hz Hy]].
    exists (slice input (endIndex x) (endIndex z)),
           (slice input (endIndex z) (endIndex y)).
    split; [|split; [apply IHa | apply IHb]; assumption].
    apply slice_app;
      [apply (rmatch_advances a _ _ Hz) | apply (rmatch_advances b _ _ Hy)].
  - apply andb_true_iff in Hwf. destruct Hwf as [Ha Hb].
    apply in_app_or in Hy. destruct Hy as [Hy|Hy];
      [left; apply IHa | right; apply IHb]; assumption.
  - apply andb_true_iff in Hwf. destruct Hwf as [Hb Hr].
    apply repeatMatcher_iterates in Hy. destruct Hy as [n [Hit [Hub [Hlb _]]]].
    destruct (iterates_word _ _ _ _ _ (rmatch_advances r) (IH Hr) Hit)
      as [ws [Hlen [Hs Hall]]].
    exists ws. split; [exact Hs|]. split; [exact Hall|]. rewrite Hlen.
    split; [|exact Hub].
    apply Hlb. intros k ->. apply Nat.leb_le. exact Hb.
  - apply in_map_iff in Hy. destruct Hy as [z [<- Hz]]. cbn [endIndex].
    apply IH; assumption.
Qed.

(** *** Captures *)

Lemma rmatch_capturesFrom (r : regex) :
  wellFormed r = true -> capturesFrom r (rmatch r input).
Proof.
  induction r as [|items| |a IHa b IHb|a IHa b IHb|r IH min max|name r IH];
    intros Hwf x y Hy n sp Hc; cbn [rmatch] in Hy; cbn [wellFormed] in Hwf;
    cbn [groupsNamed].
  1-3: leaf_state Hy; left; exact Hc.
  - apply andb_true_iff in Hwf. destruct Hwf as [Ha Hb].
    apply in_flat_map in Hy. destruct Hy as [z [Hz Hy]].
    destruct (IHb Hb _ _ Hy n sp Hc) as [Hc'|[r' [Hin Hw]]].
    + destruct (IHa Ha _ _ Hz n sp Hc') as [Hc''|[r' [Hin Hw]]];
        [left; exact Hc''|].
      right. exists r'. split; [apply in_or_app; left; exact Hin | exact Hw].
    + right. exists r'. split; [apply in_or_app; right; exact Hin | exact Hw].
  - apply andb_true_iff in Hwf. destruct Hwf as [Ha Hb].
    apply in_app_or in Hy. destruct Hy as [Hy|Hy].
    + destruct (IHa Ha _ _ Hy n sp Hc) as [Hc'|[r' [Hin Hw]]];
        [left; exact Hc'|].
      right. exists r'. split; [apply in_or_app; left; exact Hin | exact Hw].
    + destruct (IHb Hb _ _ Hy n sp Hc) as [Hc'|[r' [Hin Hw]]];
        [left; exact Hc'|].
      right. exists r'. split; [apply in_or_app; right; exact Hin | exact Hw].
  - apply andb_true_iff in Hwf. destruct Hwf as [_ Hr].
    apply repeatMatcher_iterates in Hy. destruct Hy as [k [Hit _]].
    exact (iterates_capturesFrom r _ _ _ _ (IH Hr) Hit n sp Hc).
  - apply in_map_iff in Hy. destruct Hy as [z [<- Hz]].
    cbn [captures] in Hc. unfold capture in Hc. cbn [find fst] in Hc.
    destruct (String.eqb name n) eqn:E.
    + cbn [snd] in Hc. injection Hc as <-. right. exists r.
      split; [left; reflexivity|]. cbn [fst snd].
      apply rmatch_word; assumption.
    + destruct (IH Hwf _ _ Hz n sp Hc) as [Hc'|[r' [Hin Hw]]];
        [left; exact Hc'|].
      right. exists r'. split; [exact Hin | exact Hw].
Qed.

Lemma rmatch_keeps (r : regex) : keepsCaptures (rmatch r input).
Proof.
  induction r as [|items| |a IHa b IHb|a IHa b IHb|r IH min max|name r IH];
    intros x y n Hy Hc; cbn [rmatch] in Hy.
  1-3: leaf_state Hy; exact Hc.
  - apply in_flat_map in Hy. destruct Hy as [z [Hz Hy]].
    exact (IHb _ _ n Hy (IHa _ _ n Hz Hc)).
  - apply in_app_or in Hy. destruct Hy as [Hy|Hy];
      [exact (IHa _ _ n Hy Hc) | exact (IHb _ _ n Hy Hc)].
  - apply repeatMatcher_iterates in Hy. destruct Hy as [k [Hit _]].
    exact (iterates_keeps _ _ _ _ n IH Hit Hc).
  - apply in_map_iff in Hy. destruct Hy as [z [<- Hz]].
    cbn [captures]. unfold capture. cbn [find fst].
    destruct (String.eqb name n); [discriminate|].
    exact (IH _ _ n Hz Hc).
Qed.

Lemma rmatch_sets (r : regex) (n : string) :
  alwaysSets n r = true ->
  forall x y, In y (rmatch r input x) -> capture n (captures y) <> None.
Proof.
  induction r as [|items| |a IHa b IHb|a IHa b IHb|r IH min max|name r IH];
    intros Hs x y Hy; cbn [alwaysSets] in Hs; try discriminate;
    cbn [rmatch] in Hy.
  - apply in_flat_map in Hy. destruct Hy as [z [Hz Hy]].
    apply orb_true_iff in Hs. destruct Hs as [Hs|Hs].
    + exact (rmatch_keeps b _ _ n Hy (IHa Hs _ _ Hz)).
    + exact (IHb Hs _ _ Hy).
  - apply andb_true_iff in Hs. destruct Hs as [Ha Hb].
    apply in_app_or in Hy. destruct Hy as [Hy|Hy];
      [exact (IHa Ha _ _ Hy) | exact (IHb Hb _ _ Hy)].
  - apply in_map_iff in Hy. destruct Hy as [z [<- Hz]].
    cbn [captures]. unfold capture. cbn [find fst].
    destruct (String.eqb name n) eqn:E; [discriminate|].
    cbn [orb] in Hs. exact (IH Hs _ _ Hz).
Qed.

(** *** Searching *)

(** What a successful search returns. *)
Lemma searchFrom_some (r : regex) : forall fuel i m,
  searchFrom r input i fuel = Some m ->
  i <= index m < i + fuel
  /\ exists y rest,
       rmatch r input (mkState (index m) []) = y :: rest
       /\ matchEnd m = endIndex y /\ groups m = captures y.
Proof.
  induction fuel as [|fuel IH]; intros i m H; cbn [searchFrom] in H;
    [discriminate|].
  destruct (rmatch r input (mkState i [])) as [|y rest] eqn:E.
  - destruct (IH _ _ H) as [Hi Hy]. split; [lia | exact Hy].
  - injection H as <-. cbn [index matchEnd groups]. split; [lia|].
    exists y, rest. auto.
Qed.

Lemma exec_some (r : regex) (lastIndex : nat) (m : MatchResult) :
  exec r input lastIndex = Some m ->
  lastIndex <= index m <= matchEnd m
  /\ matchEnd m <= length input
  /\ exists y rest,
       rmatch r input (mkState (index m) []) = y :: rest
       /\ matchEnd m = endIndex y /\ groups m = captures y.
Proof.
  intros H. apply searchFrom_some in H.
  destruct H as [Hi [y [rest [Hy [He Hg]]]]].
  assert (Hin : In y (rmatch r input (mkState (index m) [])))
    by (rewrite Hy; left; reflexivity).
  destruct (rmatch_advances r _ _ Hin) as [H1 H2]. cbn [endIndex] in H1, H2.
  split; [lia|]. split; [lia|]. exists y, rest. auto.
Qed.

Lemma exec_consumes (r : regex) (lastIndex : nat) (m : MatchResult) :
  nullable r = false ->
  exec r input lastIndex = Some m -> index m < matchEnd m.
Proof.
  intros Hn H. destruct (exec_some _ _ _ H) as [_ [_ [y [rest [Hy [He _]]]]]].
  assert (Hin : In y (rmatch r input (mkState (index m) [])))
    by (rewrite Hy; left; reflexivity).
  pose proof (rmatch_consumes r Hn _ _ Hin) as Hlt. cbn [endIndex] in Hlt. lia.
Qed.

(** A match ends where the next one may start at the earliest. *)
Definition spanBefore (m1 m2 : MatchResult) : Prop :=
  matchEnd m1 <= index m2 /\ index m1 < index m2.

Definition spanInside (m : MatchResult) : Prop :=
  index m < matchEnd m <= length input.

Lemma execLoop_spans (r : regex) :
  nullable r = false ->
  forall fuel lastIndex,
    Forall (fun m => lastIndex <= index m) (execLoop r input fuel lastIndex)
    /\ Forall spanInside (execLoop r input fuel lastIndex)
    /\ StronglySorted spanBefore (execLoop r input fuel lastIndex).
Proof.
  intros Hn. induction fuel as [|fuel IH]; intros lastIndex;
    cbn [execLoop]; [repeat constructor|].
  destruct (exec r input lastIndex) as [m|] eqn:E; [|repeat constructor].
  destruct (exec_some _ _ _ E) as [Hi [Hlen _]].
  pose proof (exec_consumes _ _ _ Hn E) as Hlt.
  destruct (IH (matchEnd m)) as [Hfrom [Hinside Hsorted]].
  split; [|split].
  - constructor; [lia|].
    eapply Forall_impl; [|exact Hfrom]. cbn beta. intros; lia.
  - constructor; [unfold spanInside; lia | exact Hinside].
  - constructor; [exact Hsorted|].
    eapply Forall_impl; [|exact Hfrom]. unfold spanBefore. cbn beta. intros; lia.
Qed.

(** The loop stops by itself before the counter of [execLoop] runs out. *)
Lemma execLoop_fuel (r : regex) :
  nullable r = false ->
  forall fuel lastIndex,
    length input < fuel + lastIndex ->
    execLoop r input (S fuel) lastIndex = execLoop r input fuel lastIndex.
Proof.
  intros Hn. induction fuel as [|fuel IH]; intros lastIndex Hfuel.
  - cbn [execLoop]. unfold exec.
    replace (S (length input) - lastIndex) with 0 by lia. reflexivity.
  - change (execLoop r input (S (S fuel)) lastIndex)
      with (match exec r input lastIndex with
            | None => []
            | Some m => m :: execLoop r input (S fuel) (matchEnd m)
            end).
    change (execLoop r input (S fuel) lastIndex)
      with (match exec r input lastIndex with
            | None => []
            | Some m => m :: execLoop r input fuel (matchEnd m)
            end).
    destruct (exec r input lastIndex) as [m|] eqn:E; [|reflexivity].
    f_equal. apply IH.
    destruct (exec_some _ _ _ E) as [Hi _].
    pose proof (exec_consumes _ _ _ Hn E). lia.
Qed.

End Matcher.

End RegexFacts.
Import RegexFacts.

Module MoneyFacts.

Local Open Scope nat_scope.

Lemma money_not_nullable : nullable MONEY.regex = false.
Proof. reflexivity. Qed.

(** Running the loop of [buildAnnotatedFragment] with a larger counter finds
    the same matches: [moneyMatches] is the whole sequence of results that
    [exec] returns before it returns [null]. *)
Lemma moneyMatches_complete (text : jsstring) (extra : nat) :
  execLoop MONEY.regex text (S (length text) + extra) 0 = moneyMatches text.
Proof.
  unfold moneyMatches. induction extra as [|extra IH].
  - rewrite Nat.add_0_r. reflexivity.
  - rewrite Nat.add_succ_r, execLoop_fuel; [exact IH | exact money_not_nullable | lia].
Qed.

End MoneyFacts.
Import MoneyFacts.

(** C6.  For every input string, the spans [index, matchEnd) of the matches
    that the loop of [buildAnnotatedFragment] obtains from the money pattern
    are non-empty, lie inside the string, and each span ends no later than
    the next begins: they are pairwise disjoint and strictly increasing by
    start offset. *)
Theorem money_spans_disjoint_sorted (text : jsstring) :
  Forall (spanInside text) (moneyMatches text)
  /\ StronglySorted spanBefore (moneyMatches text).
Proof.
  destruct (execLoop_spans text MONEY.regex money_not_nullable
              (S (length text)) 0) as [_ [H1 H2]].
  split; assumption.
Qed.

Module NumberFacts.

Definition digitsOnly (w : jsstring) : Prop :=
  Forall (fun c => isDigit c = true) w.

(** A digit followed by digits and commas. *)
Definition groupedDigits (w : jsstring) : Prop :=
  (exists d rest, w = d :: rest /\ isDigit d = true)
  /\ Forall (fun c => isDigit c = true \/ c = 44%N) w.

(** Nothing, or a point followed by at least one digit. *)
Definition decimalPart (f : jsstring) : Prop :=
  f = [] \/ exists ds, f = 46%N :: ds /\ ds <> [] /\ digitsOnly ds.

(** The shape of a numeric capture: a non-empty digit string, possibly with
    commas between digits, possibly followed by a decimal part. *)
Definition numberShape (w : jsstring) : Prop :=
  exists ip fp, w = ip ++ fp /\ groupedDigits ip /\ decimalPart fp.

Lemma isDigit_range (c : N) : isDigit c = true <-> (48 <= c <= 57)%N.
Proof.
  unfold isDigit. rewrite andb_true_iff, !N.leb_le. tauto.
Qed.

Lemma digit_cases (c : N) :
  isDigit c = true -> In c [48; 49; 50; 51; 52; 53; 54; 55; 56; 57]%N.
Proof.
  intros H. apply isDigit_range in H. simpl.
  assert (c = 48 \/ c = 49 \/ c = 50 \/ c = 51 \/ c = 52 \/ c = 53 \/ c = 54
          \/ c = 55 \/ c = 56 \/ c = 57)%N by lia.
  intuition auto.
Qed.

Lemma span_digits (ds rest : jsstring) :
  digitsOnly ds ->
  match rest with [] => True | c :: _ => isDigit c = false end ->
  span isDigit (ds ++ rest) = (ds, rest).
Proof.
  intros Hds Hrest. induction Hds as [|d ds Hd _ IH]; simpl.
  - destruct rest as [|c rest]; [reflexivity|]. simpl. rewrite Hrest. reflexivity.
  - rewrite Hd, IH. reflexivity.
Qed.

Lemma digitsValue_nonneg (ds : jsstring) : (0 <= digitsValue ds)%Z.
Proof.
  unfold digitsValue.
  assert (H : forall acc, (0 <= acc)%Z ->
    (0 <= fold_left (fun a c => a * 10 + Z.of_N (c - 48)) ds acc)%Z).
  { induction ds as [|d ds IH]; intros acc Hacc; simpl; [exact Hacc|].
    apply IH. lia. }
  apply H. lia.
Qed.

Lemma decimalPart_head (fp : jsstring) :
  decimalPart fp ->
  match fp with [] => True | c :: _ => isDigit c = false end.
Proof.
  intros [->|[ds [-> _]]]; [exact I | reflexivity].
Qed.

(** An unsigned decimal literal made of digits and a decimal part has a
    value, and it is not negative. *)
Lemma unsignedDecimal_digits (ds fp : jsstring) :
  digitsOnly ds -> ds <> [] -> decimalPart fp ->
  exists q, unsignedDecimal (ds ++ fp) = Some q /\ 0 <= q.
Proof.
  intros Hds Hne Hfp. unfold unsignedDecimal.
  rewrite (span_digits ds fp Hds (decimalPart_head fp Hfp)).
  assert (Hval : forall fs,
    0 <= (inject_Z (digitsValue ds)
          + inject_Z (digitsValue fs) / inject_Z (10 ^ Z.of_nat (length fs)))
         * Qpower 10 0).
  { intros fs. change (Qpower 10 0) with 1.
    assert (0 <= inject_Z (digitsValue ds)).
    { change 0 with (inject_Z 0). rewrite <- Zle_Qle. apply digitsValue_nonneg. }
    assert (0 <= inject_Z (digitsValue fs)).
    { change 0 with (inject_Z 0). rewrite <- Zle_Qle. apply digitsValue_nonneg. }
    assert (0 < inject_Z (10 ^ Z.of_nat (length fs))).
    { change 0 with (inject_Z 0). rewrite <- Zlt_Qlt. lia. }
    assert (0 <= inject_Z (digitsValue fs)
                 / inject_Z (10 ^ Z.of_nat (length fs))).
    { apply Qle_shift_div_l; [assumption|]. lra. }
    lra. }
  destruct Hfp as [->|[fs [-> [Hfs Hdig]]]].
  - destruct ds as [|d ds]; [congruence|].
    eexists. split; [reflexivity|]. apply (Hval []).
  - pose proof (span_digits fs [] Hdig I) as Hspan.
    rewrite app_nil_r in Hspan. rewrite Hspan.
    destruct ds as [|d ds]; [congruence|].
    eexists. split; [reflexivity|]. apply (Hval fs).
Qed.

(** [parseFloat] of such a literal is its value, rounded. *)
Lemma parseFloat_digits (d : N) (ds fp : jsstring) :
  isDigit d = true -> digitsOnly ds -> decimalPart fp ->
  exists q, parseFloat (d :: ds ++ fp) = round64 q /\ 0 <= q.
Proof.
  intros Hd Hds Hfp.
  destruct (unsignedDecimal_digits (d :: ds) fp) as [q [Hq Hpos]];
    [constructor; assumption | discriminate | assumption |].
  exists q. split; [|exact Hpos].
  change ((d :: ds) ++ fp) with (d :: ds ++ fp) in Hq.
  unfold parseFloat.
  assert (Hsign : signOf (trimStart (d :: ds ++ fp)) = (false, d :: ds ++ fp)).
  { apply digit_cases in Hd. simpl in Hd.
    decompose [or] Hd; subst; try contradiction; reflexivity. }
  rewrite Hsign.
  assert (Hinf : startsWith (str "Infinity") (d :: ds ++ fp) = false).
  { apply digit_cases in Hd. simpl in Hd.
    decompose [or] Hd; subst; try contradiction; reflexivity. }
  rewrite Hinf, Hq. reflexivity.
Qed.

Lemma stripCommas_digits (w : jsstring) : digitsOnly w -> stripCommas w = w.
Proof.
  intros H. induction H as [|c w Hc _ IH]; [reflexivity|].
  unfold stripCommas in *. simpl. rewrite IH.
  apply isDigit_range in Hc.
  destruct (N.eqb_spec c 44); [lia | reflexivity].
Qed.

Lemma stripCommas_grouped (w : jsstring) :
  Forall (fun c => isDigit c = true \/ c = 44%N) w -> digitsOnly (stripCommas w).
Proof.
  intros H. induction H as [|c w Hc _ IH]; [constructor|].
  unfold stripCommas in *. simpl.
  destruct (N.eqb_spec c 44) as [->|Hne]; simpl; [exact IH|].
  constructor; [|exact IH]. destruct Hc; [assumption | contradiction].
Qed.

(** [parseFloat] of a numeric capture without its commas is the rounding of
    a value that is not negative: a finite number that is not negative, or
    infinity when the literal is too large. *)
Lemma parseFloat_numberShape (w : jsstring) :
  numberShape w ->
  exists q, parseFloat (stripCommas w) = round64 q /\ 0 <= q.
Proof.
  intros [ip [fp [-> [[[d [rest [-> Hd]]] Hall] Hfp]]]].
  unfold stripCommas. rewrite filter_app.
  fold (stripCommas (d :: rest)). fold (stripCommas fp).
  assert (Efp : stripCommas fp = fp).
  { destruct Hfp as [->|[ds [-> [_ Hds]]]]; [reflexivity|].
    unfold stripCommas. simpl. fold (stripCommas ds).
    rewrite (stripCommas_digits ds Hds). reflexivity. }
  rewrite Efp.
  assert (Eip : stripCommas (d :: rest) = d :: stripCommas rest).
  { unfold stripCommas. simpl. apply isDigit_range in Hd.
    destruct (N.eqb_spec d 44); [lia | reflexivity]. }
  rewrite Eip. change ((d :: stripCommas rest) ++ fp)
    with (d :: stripCommas rest ++ fp).
  apply parseFloat_digits; [assumption | | assumption].
  apply stripCommas_grouped. inversion Hall; assumption.
Qed.

End NumberFacts.
Import NumberFacts.

Module AmountFacts.

Local Open Scope nat_scope.

Lemma word_digit (w : jsstring) :
  matchesWord Digit w -> exists c, w = [c] /\ isDigit c = true.
Proof.
  intros [ch [-> H]]. exists ch. split; [reflexivity|].
  unfold classMatches in H. simpl in H. rewrite orb_false_r in H. exact H.
Qed.

Lemma word_digits (min : nat) (max : option nat) (w : jsstring) :
  matchesWord (Quant Digit min max) w -> digitsOnly w /\ min <= length w.
Proof.
  intros [ws [-> [Hall [Hmin _]]]].
  assert (H : digitsOnly (concat ws) /\ length (concat ws) = length ws).
  { clear Hmin. induction Hall as [|w ws Hw _ [IH1 IH2]]; simpl.
    - split; [constructor | reflexivity].
    - apply word_digit in Hw. destruct Hw as [c [-> Hc]]. simpl.
      split; [constructor; assumption | congruence]. }
  destruct H as [H1 H2]. split; [exact H1 | lia].
Qed.

(** A pattern character that is not a letter matches itself only. *)
Lemma word_symbol (c : N) (w : jsstring) :
  isLower c = false -> isUpper c = false ->
  matchesWord (Class [CChar c]) w -> w = [c].
Proof.
  intros Hl Hu [ch [-> H]]. f_equal.
  unfold classMatches in H. simpl in H. rewrite orb_false_r in H.
  apply N.eqb_eq in H. unfold canonicalize, toUpperUnit in H.
  rewrite Hl in H.
  destruct (isLower ch) eqn:E; [|exact H].
  exfalso. unfold isLower, isUpper in *.
  apply andb_true_iff in E. destruct E as [E1 E2].
  apply N.leb_le in E1, E2.
  apply andb_false_iff in Hu.
  destruct Hu as [Hu|Hu]; apply N.leb_gt in Hu; lia.
Qed.

(** The words of [NUMBER] have the shape of a number. *)
Lemma number_shape (w : jsstring) :
  matchesWord MONEY.NUMBER w -> numberShape w.
Proof.
  unfold MONEY.NUMBER. intros [u [v [-> [Hint Hfrac]]]].
  exists u, v. split; [reflexivity|]. split.
  - destruct Hint as [Hgrouped|Hplain].
    + destruct Hgrouped as [u1 [u2 [-> [H1 H2]]]].
      apply word_digits in H1. destruct H1 as [Hd1 Hlen].
      unfold Plus in H2. destruct H2 as [ws [-> [Hall _]]].
      assert (Htail : Forall (fun c => isDigit c = true \/ c = 44%N) (concat ws)).
      { induction Hall as [|w ws Hw _ IH]; simpl; [constructor|].
        apply Forall_app. split; [|exact IH].
        destruct Hw as [a [b [-> [Ha Hb]]]].
        apply (word_symbol 44%N) in Ha; [|reflexivity|reflexivity]. subst a.
        apply word_digits in Hb. destruct Hb as [Hb _].
        constructor; [right; reflexivity|].
        eapply Forall_impl; [|exact Hb]. intros c Hc. left. exact Hc. }
      split.
      * destruct u1 as [|d rest]; [simpl in Hlen; lia|].
        exists d, (rest ++ concat ws). split; [reflexivity|].
        inversion Hd1; assumption.
      * apply Forall_app. split; [|exact Htail].
        eapply Forall_impl; [|exact Hd1]. intros c Hc. left. exact Hc.
    + unfold Plus in Hplain. apply word_digits in Hplain.
      destruct Hplain as [Hd Hlen]. split.
      * destruct u as [|d rest]; [simpl in Hlen; lia|].
        exists d, rest. split; [reflexivity|]. inversion Hd; assumption.
      * eapply Forall_impl; [|exact Hd]. intros c Hc. left. exact Hc.
  - unfold Opt in Hfrac. destruct Hfrac as [ws [-> [Hall [_ Hmax]]]].
    specialize (Hmax 1 eq_refl).
    destruct ws as [|w [|w' ws]]; [left; reflexivity| |simpl in Hmax; lia].
    right. simpl. rewrite app_nil_r.
    inversion Hall as [|? ? Hw _]; subst.
    destruct Hw as [a [b [-> [Ha Hb]]]].
    apply (word_symbol 46%N) in Ha; [|reflexivity|reflexivity]. subst a.
    unfold Plus in Hb. apply word_digits in Hb. destruct Hb as [Hb Hlen].
    exists b. split; [reflexivity|]. split; [|exact Hb].
    destruct b; [simpl in Hlen; lia | discriminate].
Qed.

Lemma numberShape_nonempty (w : jsstring) : numberShape w -> w <> [].
Proof.
  intros [ip [fp [-> [[[d [rest [-> _]]] _] _]]]]. discriminate.
Qed.

Lemma multiplier_pos (suffix : jsstring) : (0 < MONEY.multiplier suffix)%Q.
Proof.
  unfold MONEY.multiplier. destruct suffix as [|c suffix]; [reflexivity|].
  destruct (find _ MONEY.SCALE_MAP) as [e|] eqn:E; [|reflexivity].
  apply find_some in E. destruct E as [Hin _].
  simpl in Hin. decompose [or] Hin; subst; try contradiction; reflexivity.
Qed.

Section OneMatch.

Variable text : jsstring.

(** What a match from an empty capture list says about the group [n]. *)
Lemma capture_from_start (r : regex) (i : nat) (y : MatchState) (n : string) :
  wellFormed r = true ->
  In y (rmatch r text (mkState i [])) ->
  match capture n (captures y) with
  | Some sp =>
      exists r', In r' (groupsNamed n r)
                 /\ matchesWord r' (slice text (fst sp) (snd sp))
  | None => alwaysSets n r = false
  end.
Proof.
  intros Hwf Hy. destruct (capture n (captures y)) as [sp|] eqn:E.
  - destruct (rmatch_capturesFrom text r Hwf _ _ Hy n sp E) as [H|H];
      [discriminate H | exact H].
  - destruct (alwaysSets n r) eqn:Hs; [|reflexivity].
    exfalso. exact (rmatch_sets text r n Hs _ _ Hy E).
Qed.

Definition numericGroups : list string := ["num1"; "num2"; "num3"]%string.

(** The string [numStr] of [amountFromMatch] before the commas are removed. *)
Definition numericCapture (m : MatchResult) : jsstring :=
  orElse (group text m "num1")
    (orElse (group text m "num2") (orElse (group text m "num3") [])).

(** Every match of the money pattern has set one of the numeric groups, to a
    number-shaped string, and that string is what [amountFromMatch] reads. *)
Lemma money_numeric_capture (lastIndex : nat) (m : MatchResult) :
  exec MONEY.regex text lastIndex = Some m ->
  numberShape (numericCapture m)
  /\ exists name, In name numericGroups
                  /\ group text m name = Some (numericCapture m).
Proof.
  intros H. destruct (exec_some text _ _ _ H) as [_ [_ [y [rest [Hy [_ Hg]]]]]].
  assert (Hin : In y (rmatch MONEY.regex text (mkState (index m) [])))
    by (rewrite Hy; left; reflexivity).
  clear Hy H.
  unfold numericCapture, group. rewrite Hg. clear Hg.
  unfold MONEY.regex in Hin. cbn [rmatch] in Hin.
  assert (Hshape : forall r n i,
    wellFormed r = true -> groupsNamed n r = [MONEY.NUMBER] ->
    alwaysSets n r = true ->
    In y (rmatch r text (mkState i [])) ->
    exists a b, capture n (captures y) = Some (a, b)
                /\ numberShape (slice text a b)).
  { intros r n i Hwf Hgroups Hsets Hy.
    pose proof (capture_from_start r i y n Hwf Hy) as Hc.
    destruct (capture n (captures y)) as [[a b]|]; [|congruence].
    destruct Hc as [r' [Hr' Hw]]. rewrite Hgroups in Hr'.
    destruct Hr' as [<-|[]]. exists a, b. split; [reflexivity|].
    apply number_shape. exact Hw. }
  assert (Hnone : forall r n i,
    wellFormed r = true -> groupsNamed n r = [] ->
    In y (rmatch r text (mkState i [])) ->
    capture n (captures y) = None).
  { intros r n i Hwf Hgroups Hy.
    pose proof (capture_from_start r i y n Hwf Hy) as Hc.
    destruct (capture n (captures y)) as [sp|]; [|reflexivity].
    destruct Hc as [r' [Hr' _]]. rewrite Hgroups in Hr'. destruct Hr'. }
  assert (Hor : forall w other, numberShape w -> orElse (Some w) other = w).
  { intros w other Hw. apply numberShape_nonempty in Hw.
    destruct w; [congruence | reflexivity]. }
  apply in_app_or in Hin. destruct Hin as [Hin|Hin];
    [|apply in_app_or in Hin; destruct Hin as [Hin|Hin]].
  - destruct (Hshape MONEY.SYMBOL_FIRST "num1"%string _
                eq_refl eq_refl eq_refl Hin) as [a [b [Hc Hw]]].
    rewrite Hc, (Hor _ _ Hw). split; [exact Hw|].
    exists "num1"%string. split; [left; reflexivity|]. rewrite Hc. reflexivity.
  - rewrite (Hnone MONEY.CODE_LAST "num1"%string _ eq_refl eq_refl Hin).
    destruct (Hshape MONEY.CODE_LAST "num2"%string _
                eq_refl eq_refl eq_refl Hin) as [a [b [Hc Hw]]].
    cbn [orElse]. rewrite Hc, (Hor _ _ Hw). split; [exact Hw|].
    exists "num2"%string. split; [right; left; reflexivity|].
    rewrite Hc. reflexivity.
  - rewrite (Hnone MONEY.CODE_FIRST "num1"%string _ eq_refl eq_refl Hin).
    rewrite (Hnone MONEY.CODE_FIRST "num2"%string _ eq_refl eq_refl Hin).
    destruct (Hshape MONEY.CODE_FIRST "num3"%string _
                eq_refl eq_refl eq_refl Hin) as [a [b [Hc Hw]]].
    cbn [orElse]. rewrite Hc, (Hor _ _ Hw). split; [exact Hw|].
    exists "num3"%string. split; [right; right; left; reflexivity|].
    rewrite Hc. reflexivity.
Qed.

(** [amountFromMatch] of a match of the money pattern is [NaN] when the
    number read is infinite, and otherwise a number that is not negative:
    finite, or infinite when the product with the factor is too large. *)
Lemma amountFromMatch_value (lastIndex : nat) (m : MatchResult) :
  exec MONEY.regex text lastIndex = Some m ->
  (parseFloat (stripCommas (numericCapture m)) = PosInf
   /\ MONEY.amountFromMatch text m = NaN)
  \/ (isFinite (parseFloat (stripCommas (numericCapture m))) = true
      /\ nonneg (MONEY.amountFromMatch text m)).
Proof.
  intros H. destruct (money_numeric_capture lastIndex m H) as [Hshape _].
  destruct (parseFloat_numberShape _ Hshape) as [q [Hq Hpos]].
  unfold MONEY.amountFromMatch. fold (numericCapture m). rewrite Hq.
  destruct (round64_nonneg q Hpos) as [E|[b [E Hb]]]; rewrite E.
  - left. split; reflexivity.
  - right. split; [reflexivity|]. cbn [isFinite negb scale mul].
    apply round64_nonneg. apply Qmult_le_0_compat; [exact Hb|].
    apply Qlt_le_weak, multiplier_pos.
Qed.

End OneMatch.

End AmountFacts.
Import AmountFacts.

(* ================================================================= *)
(** * Properties of the scan *)

Module ScanFacts.

Local Open Scope nat_scope.

(** Induction on a tree: the property holds of an element once it holds of
    its children. *)
Definition node_induction (P : node -> Prop)
  (HText : forall v, P (Text v))
  (HElement : forall tag a children,
      Forall P children -> P (Element tag a children)) : forall n, P n :=
  fix F (n : node) : P n :=
    match n with
    | Text v => HText v
    | Element tag a children =>
        HElement tag a children
          ((fix G (l : list node) : Forall P l :=
              match l with
              | [] => Forall_nil P
              | c :: rest => Forall_cons c (F c) (G rest)
              end) children)
    end.

(** The fragment has a child whenever the loop ran at least once. *)
Lemma annotate_grows (st : Settings) (text : jsstring) (ms : list MatchResult) :
  forall state,
    length (snd state)
    <= length (snd (fold_left (annotateMatch st text) ms state)).
Proof.
  induction ms as [|m ms IH]; intros [lastIndex frag]; cbn [fold_left];
    [reflexivity|].
  etransitivity; [|apply IH].
  unfold annotateMatch. cbn [snd].
  destruct (lastIndex <? index m), (truthy _); rewrite ?length_app; simpl; lia.
Qed.

Lemma annotate_first (st : Settings) (text : jsstring) (m : MatchResult)
  (state : nat * list node) :
  0 < length (snd (annotateMatch st text state m)).
Proof.
  destruct state as [lastIndex frag]. unfold annotateMatch. cbn [snd].
  destruct (lastIndex <? index m), (truthy _); rewrite ?length_app; simpl; lia.
Qed.

Lemma test_moneyMatches (text : jsstring) :
  Regex.test MONEY.regex text = true -> moneyMatches text <> [].
Proof.
  unfold Regex.test, moneyMatches. cbn [execLoop].
  destruct (exec MONEY.regex text 0); [discriminate | discriminate].
Qed.

(** After a successful [test] the fragment is never empty. *)
Lemma fragment_nonempty (st : Settings) (text : jsstring) :
  Regex.test MONEY.regex text = true -> buildAnnotatedFragment st text <> [].
Proof.
  intros Ht. apply test_moneyMatches in Ht.
  unfold buildAnnotatedFragment.
  destruct (moneyMatches text) as [|m ms]; [congruence|]. cbn [fold_left].
  pose proof (annotate_grows st text ms (annotateMatch st text (0, []) m)) as Hg.
  pose proof (annotate_first st text m (0, [])) as Hf.
  destruct (fold_left _ ms _) as [lastIndex frag]. cbn [snd] in Hg.
  destruct frag as [|n frag]; [cbn [length] in Hg; lia|].
  destruct (lastIndex <? length text); discriminate.
Qed.

(** The guards of [processTextNode] that keep a text node as it is. *)
Definition guarded (anc : ancestors) : bool :=
  match anc with
  | [] => true
  | parent :: _ =>
      isSkipTag (fst parent) || closestAttr PROCESSED anc
      || closestAttr IGNORE anc
  end.

Lemma processTextNode_none (st : Settings) (anc : ancestors) (text : jsstring) :
  processTextNode st anc text = None
  <-> guarded anc = true \/ Regex.test MONEY.regex text = false.
Proof.
  unfold processTextNode, guarded. destruct anc as [|parent anc'].
  - split; [left; reflexivity | reflexivity].
  - destruct (isSkipTag (fst parent)); [split; [left|]; reflexivity|].
    destruct (closestAttr PROCESSED (parent :: anc'));
      [split; [left|]; reflexivity|].
    destruct (closestAttr IGNORE (parent :: anc'));
      [split; [left|]; reflexivity|].
    destruct (Regex.test MONEY.regex text) eqn:Ht;
      [|split; [right|]; reflexivity].
    cbn [negb orb]. unfold commitFragment.
    pose proof (fragment_nonempty st text Ht) as Hne.
    destruct (buildAnnotatedFragment st text) as [|n frag]; [congruence|].
    cbn. split; [discriminate | intros [H|H]; discriminate].
Qed.

Lemma processTextNode_some (st : Settings) (anc : ancestors) (text : jsstring)
  (frag : list node) :
  processTextNode st anc text = Some frag ->
  frag = buildAnnotatedFragment st text /\ frag <> []
  /\ Regex.test MONEY.regex text = true.
Proof.
  intros H.
  destruct (Regex.test MONEY.regex text) eqn:Ht.
  - unfold processTextNode in H. destruct anc as [|parent anc']; [discriminate|].
    destruct (isSkipTag _); [discriminate|].
    destruct (closestAttr PROCESSED _); [discriminate|].
    destruct (closestAttr IGNORE _); [discriminate|].
    rewrite Ht in H. cbn [negb] in H. unfold commitFragment in H.
    destruct (0 <? length (buildAnnotatedFragment st text)); [|discriminate].
    injection H as <-.
    split; [reflexivity|]. split; [apply fragment_nonempty; exact Ht | reflexivity].
  - assert (processTextNode st anc text = None)
      by (apply processTextNode_none; right; exact Ht).
    congruence.
Qed.

(** *** Annotated regions *)

(** A child of a fragment is a text node or an element that carries the
    processed marker. *)
Definition fragmentNode (n : node) : Prop :=
  match n with
  | Text _ => True
  | Element _ a _ => hasAttribute PROCESSED a = true
  end.

Lemma wrapperFor_marked (st : Settings) (fullMatch timeStr : jsstring) :
  fragmentNode (wrapperFor st fullMatch timeStr).
Proof.
  unfold wrapperFor.
  destruct (JsString.eqb (displayMode st) (str "tooltip")); [reflexivity|].
  destruct (JsString.eqb (displayMode st) (str "inline")); [reflexivity|].
  destruct (JsString.eqb (displayMode st) (str "replace")); reflexivity.
Qed.

Lemma annotate_fragmentNodes (st : Settings) (text : jsstring)
  (ms : list MatchResult) :
  forall state,
    Forall fragmentNode (snd state) ->
    Forall fragmentNode (snd (fold_left (annotateMatch st text) ms state)).
Proof.
  induction ms as [|m ms IH]; intros [lastIndex frag] H; cbn [fold_left];
    [exact H|].
  apply IH. unfold annotateMatch. cbn [snd] in *.
  destruct (lastIndex <? index m), (truthy _);
    repeat (apply Forall_app; split); try exact H;
    repeat constructor; apply wrapperFor_marked.
Qed.

Lemma fragment_nodes (st : Settings) (text : jsstring) :
  Forall fragmentNode (buildAnnotatedFragment st text).
Proof.
  unfold buildAnnotatedFragment.
  pose proof (annotate_fragmentNodes st text (moneyMatches text) (0, [])
                (Forall_nil _)) as H.
  destruct (fold_left _ _ _) as [lastIndex frag]. cbn [snd] in H.
  destruct (lastIndex <? length text); [|exact H].
  apply Forall_app. split; [exact H | repeat constructor].
Qed.

Lemma children_fixed (f : node -> list node * list mutation)
  (children : list node) :
  Forall (fun c => f c = ([c], [])) children ->
  flat_map fst (map f children) = children
  /\ flat_map snd (map f children) = [].
Proof.
  induction 1 as [|c children Hc _ [IH1 IH2]]; [split; reflexivity|].
  simpl. rewrite Hc, IH1, IH2. split; reflexivity.
Qed.

(** Below an element that carries the processed marker the scan changes
    nothing: the walker hands out none of the text nodes there. *)
Lemma scan_marked (st : Settings) (n : node) :
  forall anc, closestAttr PROCESSED anc = true ->
    scanNode st anc n = ([n], []).
Proof.
  induction n as [v|tag a children IH] using node_induction; intros anc Hanc.
  - cbn [scanNode]. unfold acceptNode.
    destruct v as [|c v]; [reflexivity|].
    destruct (isBlank (c :: v)); [reflexivity|].
    destruct anc as [|parent anc']; [reflexivity|].
    destruct (isSkipTag (fst parent)); [reflexivity|].
    rewrite Hanc. reflexivity.
  - cbn [scanNode].
    assert (Hanc' : closestAttr PROCESSED ((tag, a) :: anc) = true).
    { unfold closestAttr in *. cbn [existsb]. rewrite Hanc. apply orb_true_r. }
    destruct (children_fixed (scanNode st ((tag, a) :: anc)) children)
      as [E1 E2].
    { eapply Forall_impl; [|exact IH]. intros c Hc. apply Hc. exact Hanc'. }
    rewrite E1, E2. reflexivity.
Qed.

Lemma scan_wrapper (st : Settings) (anc : ancestors) (n : node) :
  fragmentNode n ->
  match n with Text s => Regex.test MONEY.regex s = false | _ => True end ->
  scanNode st anc n = ([n], []).
Proof.
  destruct n as [s|tag a children]; intros Hn Hs.
  - cbn [scanNode].
    assert (E : processTextNode st anc s = None)
      by (apply processTextNode_none; right; exact Hs).
    rewrite E. destruct (acceptNode anc s); reflexivity.
  - cbn [scanNode]. cbn [fragmentNode] in Hn.
    destruct (children_fixed (scanNode st ((tag, a) :: anc)) children)
      as [E1 E2].
    { apply Forall_forall. intros c _. apply scan_marked.
      unfold closestAttr. cbn [existsb snd]. rewrite Hn. reflexivity. }
    rewrite E1, E2. reflexivity.
Qed.

(** *** The second pass *)

Definition plainWithoutMatch (n : node) : bool :=
  match n with
  | Text s => negb (Regex.test MONEY.regex s)
  | Element _ _ _ => true
  end.

(** A text node the walker hands out is settled when the scan leaves it
    alone, or replaces it by a fragment none of whose plain text nodes
    contains a match of the money pattern. *)
Definition settledText (st : Settings) (p : ancestors * jsstring) : bool :=
  match processTextNode st (fst p) (snd p) with
  | Some frag => forallb plainWithoutMatch frag
  | None => true
  end.

Definition settled (st : Settings) (root : node) : bool :=
  forallb (settledText st) (textNodes [] root).

Lemma scan_again (st : Settings) (n : node) :
  forall anc,
    forallb (settledText st) (textNodes anc n) = true ->
    Forall (fun n' => scanNode st anc n' = ([n'], []))
           (fst (scanNode st anc n)).
Proof.
  induction n as [v|tag a children IH] using node_induction; intros anc Hs.
  - cbn [scanNode textNodes] in *.
    destruct (acceptNode anc v) eqn:Hacc.
    + cbn [forallb] in Hs. rewrite andb_true_r in Hs.
      unfold settledText in Hs. cbn [fst snd] in Hs.
      destruct (processTextNode st anc v) as [frag|] eqn:Hp; cbn [fst].
      * apply processTextNode_some in Hp. destruct Hp as [-> _].
        pose proof (fragment_nodes st v) as Hnodes.
        rewrite forallb_forall in Hs. rewrite Forall_forall in *.
        intros n' Hn'. apply scan_wrapper; [apply Hnodes; exact Hn'|].
        specialize (Hs n' Hn'). destruct n' as [s|]; [|exact I].
        cbn [plainWithoutMatch] in Hs. apply negb_true_iff. exact Hs.
      * constructor; [|constructor]. cbn [scanNode]. rewrite Hacc, Hp.
        reflexivity.
    + cbn [fst]. constructor; [|constructor]. cbn [scanNode]. rewrite Hacc.
      reflexivity.
  - cbn [scanNode textNodes fst] in *. constructor; [|constructor].
    cbn [scanNode].
    set (anc' := (tag, a) :: anc) in *.
    assert (Hall : Forall (fun c' => scanNode st anc' c' = ([c'], []))
                     (flat_map fst (map (scanNode st anc') children))).
    { clear - IH Hs. induction children as [|c children IHc]; [constructor|].
      cbn [map flat_map]. cbn [flat_map] in Hs.
      rewrite forallb_app in Hs. apply andb_true_iff in Hs.
      destruct Hs as [Hc Hrest].
      inversion IH as [|? ? IHhead IHtail]; subst.
      apply Forall_app. split; [apply IHhead; exact Hc|].
      apply IHc; assumption. }
    destruct (children_fixed (scanNode st anc') _ Hall) as [E1 E2].
    rewrite E1, E2. reflexivity.
Qed.

(** The mutation records of a scan are the replacements that
    [processTextNode] makes on the text nodes the walker collected, in the
    order of collection. *)
Lemma scan_log (st : Settings) (n : node) :
  forall anc,
    snd (scanNode st anc n)
    = flat_map (fun p =>
        match processTextNode st (fst p) (snd p) with
        | Some frag => [mkMutation (Text (snd p)) frag]
        | None => []
        end) (textNodes anc n).
Proof.
  induction n as [v|tag a children IH] using node_induction; intros anc.
  - cbn [scanNode textNodes]. destruct (acceptNode anc v); [|reflexivity].
    cbn [flat_map fst snd]. rewrite app_nil_r.
    destruct (processTextNode st anc v); reflexivity.
  - cbn [scanNode textNodes snd].
    induction children as [|c children IHc]; [reflexivity|].
    inversion IH as [|? ? IHhead IHtail]; subst.
    cbn [map flat_map]. rewrite flat_map_app, IHhead, IHc; [reflexivity|].
    exact IHtail.
Qed.

End ScanFacts.
Import ScanFacts.

Module TruthyFacts.

Lemma join_nonempty (sep p : jsstring) (ps : list jsstring) :
  p <> [] -> join sep (p :: ps) <> [].
Proof.
  intros Hp. destruct p as [|c p]; [congruence|].
  destruct ps; discriminate.
Qed.

Lemma partString_nonempty (p : part) :
  short (unit_of p) <> [] -> partString p <> [].
Proof.
  intros H E. unfold partString in E.
  apply app_eq_nil in E. destruct E as [_ E]. exact (H E).
Qed.

Lemma default_shorts (st : Settings) :
  Forall (fun u => short u <> []) (UNITS st).
Proof. repeat constructor; discriminate. Qed.

(** A valid amount and rate give a string, and it is not empty. *)
Lemma formatTime_truthy (st : Settings) (a r : Q) :
  0 < a -> 0 < r -> truthy (formatTimeFromMoney st (Fin a) (Fin r)) = true.
Proof.
  intros Ha Hr. unfold formatTimeFromMoney.
  rewrite (timeParts_valid st a r Ha Hr).
  pose proof (unitsLoop_units (fun u => short u <> []) (UNITS st)
                (floor (totalMinutes (Fin a) (Fin r))) []
                (default_shorts st) (Forall_nil _)) as Hs.
  destruct (unitsLoop _ _ _) as [|p ps]; [reflexivity|].
  cbn [length Nat.eqb map].
  assert (Hp : partString p <> []).
  { inversion Hs as [|? ? Hshort _]; subst.
    apply partString_nonempty. exact Hshort. }
  pose proof (join_nonempty (str " ") (partString p) (map partString ps) Hp) as Hj.
  destruct (join _ _); [congruence | reflexivity].
Qed.

(** The formatter gives a string exactly for a finite positive amount, the
    rate being finite and positive. *)
Lemma formatTime_truthy_iff (st : Settings) (amount : number) (r : Q) :
  0 < r ->
  truthy (formatTimeFromMoney st amount (Fin r)) = true
  <-> exists q, amount = Fin q /\ 0 < q.
Proof.
  intros Hr. split.
  - intros H. destruct amount as [| | |q]; try discriminate H.
    exists q. split; [reflexivity|].
    destruct (Qlt_le_dec 0 q) as [Hlt|Hle]; [exact Hlt|].
    unfold formatTimeFromMoney, timeParts in H.
    cbn [isFinite negb leZero orb] in H.
    rewrite (proj2 (Qle_bool_iff q 0) Hle) in H. discriminate H.
  - intros [q [E Hq]]. subst amount. apply formatTime_truthy; assumption.
Qed.

End TruthyFacts.
Import TruthyFacts.

(** C10, counterexample.  "$0" is a match of the money pattern; its amount is
    0, for which [formatTimeFromMoney] returns [null], so the loop takes the
    branch that appends the matched text as a plain text node. *)
Lemma fallback_reachable_counterexample :
  exists m,
    exec MONEY.regex (str "$0") 0 = Some m
    /\ MONEY.amountFromMatch (str "$0") m = Fin 0
    /\ truthy (formatTimeFromMoney DEFAULT
                 (MONEY.amountFromMatch (str "$0") m) (hourlyRate DEFAULT))
       = false
    /\ buildAnnotatedFragment DEFAULT (str "$0") = [Text (str "$0")].
Proof.
  eexists. split; [reflexivity|].
  split; [reflexivity|]. split; reflexivity.
Qed.

(** A dollar sign and a one followed by 309 zeros: more than the largest
    number. *)
Definition hugePrice : jsstring :=
  str "$1" ++ repeat (48%N) 309.

(** The digits of [hugePrice] read as [Infinity], [amountFromMatch] returns
    [NaN] by its own guard, and the matched text is appended as it is. *)
Example huge_price_not_a_number :
  exists m,
    exec MONEY.regex hugePrice 0 = Some m
    /\ parseFloat (stripCommas (numericCapture hugePrice m)) = PosInf
    /\ MONEY.amountFromMatch hugePrice m = NaN
    /\ buildAnnotatedFragment DEFAULT hugePrice = [Text hugePrice].
Proof.
  eexists. split; [vm_compute; reflexivity|].
  split; [vm_compute; reflexivity|]. split; vm_compute; reflexivity.
Qed.

(** C10, as amended.  For every match of the money pattern, one of the
    numeric groups is set to a non-empty digit string (commas and a decimal
    part allowed).  [amountFromMatch] is [NaN] exactly when those digits read
    as [Infinity] (a number above the largest binary64), and otherwise it is
    a number that is not negative.  With a finite positive hourly rate the
    formatter gives a string exactly when the amount is finite and positive:
    the branch of [buildAnnotatedFragment] that appends the plain matched
    text is taken exactly when the amount is zero, [NaN] or [Infinity]. *)
Theorem money_amount_and_fallback (st : Settings) (text : jsstring)
  (lastIndex : nat) (m : MatchResult) (rate : Q) :
  exec MONEY.regex text lastIndex = Some m ->
  hourlyRate st = Fin rate -> 0 < rate ->
  (exists name w, In name numericGroups
                  /\ group text m name = Some w /\ numberShape w)
  /\ (MONEY.amountFromMatch text m = NaN
      <-> parseFloat (stripCommas (numericCapture text m)) = PosInf)
  /\ (MONEY.amountFromMatch text m = NaN
      \/ MONEY.amountFromMatch text m = PosInf
      \/ exists q, MONEY.amountFromMatch text m = Fin q /\ 0 <= q)
  /\ (truthy (formatTimeFromMoney st (MONEY.amountFromMatch text m)
                (hourlyRate st)) = false
      <-> MONEY.amountFromMatch text m = NaN
          \/ MONEY.amountFromMatch text m = PosInf
          \/ exists q, MONEY.amountFromMatch text m = Fin q /\ q == 0).
Proof.
  intros Hexec Hrate Hpos.
  destruct (money_numeric_capture text lastIndex m Hexec)
    as [Hshape [name [Hin Hg]]].
  split; [exists name, (numericCapture text m); auto|].
  pose proof (amountFromMatch_value text lastIndex m Hexec) as Hv.
  pose proof (formatTime_truthy_iff st (MONEY.amountFromMatch text m) rate Hpos)
    as Ht.
  rewrite Hrate.
  destruct (truthy _) eqn:Etruthy.
  - destruct (proj1 Ht eq_refl) as [q [Eq Hq]]. rewrite Eq in *.
    destruct Hv as [[_ Hnan]|[Hfin _]]; [discriminate Hnan|].
    split; [split; intros H; [discriminate H | rewrite H in Hfin; discriminate Hfin]|].
    split; [right; right; exists q; split; [reflexivity | apply Qlt_le_weak; exact Hq]|].
    split; [discriminate|].
    intros [H|[H|[q0 [H H0]]]]; try discriminate H.
    injection H as H. subst q0. rewrite H0 in Hq. discriminate Hq.
  - destruct Hv as [[Hinf Hnan]|[Hfin Hnn]].
    + rewrite Hnan, Hinf. split; [split; reflexivity|].
      split; [left; reflexivity|]. split; [left; reflexivity | reflexivity].
    + split.
      { split; intros H.
        - destruct Hnn as [E|[q [E _]]]; rewrite E in H; discriminate H.
        - rewrite H in Hfin. discriminate Hfin. }
      destruct Hnn as [E|[q [E Hq]]]; rewrite E in *.
      * split; [right; left; reflexivity|].
        split; [right; left; reflexivity | reflexivity].
      * split; [right; right; exists q; split; [reflexivity | exact Hq]|].
        split; [|reflexivity]. intros _. right. right.
        destruct (Qlt_le_dec 0 q) as [Hlt|Hle].
        { assert (Hex : exists q0, Fin q = Fin q0 /\ 0 < q0)
            by (exists q; split; [reflexivity | exact Hlt]).
          apply (proj2 Ht) in Hex. discriminate Hex. }
        exists q. split; [reflexivity|]. apply Qle_antisym; assumption.
Qed.

Lemma money_amount_and_fallback_witness :
  truthy (formatTimeFromMoney DEFAULT
            (MONEY.amountFromMatch (str "$0")
               (mkResult 0 2 [("num1"%string, (1, 2)%nat);
                              ("sym"%string, (0, 1)%nat)]))
            (hourlyRate DEFAULT)) = false.
Proof.
  destruct (money_amount_and_fallback DEFAULT (str "$0") 0
              (mkResult 0 2 [("num1"%string, (1, 2)%nat);
                             ("sym"%string, (0, 1)%nat)]) 15)
    as [_ [_ [_ Hfallback]]]; [reflexivity | reflexivity | reflexivity |].
  apply Hfallback. right. right. exists 0. split; reflexivity.
Defined.

(* ----------------------------------------------------------------- *)

Definition paragraph (text : string) : node :=
  Element (str "P") [] [Text (str text)].

Definition body (children : list node) : node :=
  Element (str "BODY") [] children.

(** C1, counterexample.  In "5 USD7 EUR" only "7 EUR" is a match (no word
    boundary follows "USD"), so the first pass leaves "5 USD" as a plain text
    node in front of the wrapper; on its own that node is a match, and the
    second pass replaces it by a wrapper. *)
Lemma processDocument_twice_counterexample :
  let root := body [paragraph "5 USD7 EUR"] in
  let once := fst (processDocument DEFAULT root) in
  map (fun m => (index m, matchEnd m)) (moneyMatches (str "5 USD7 EUR"))
  = [(5, 10)%nat]
  /\ map removedNode (snd (processDocument DEFAULT once)) = [Text (str "5 USD")]
  /\ fst (processDocument DEFAULT once) <> once.
Proof.
  cbv zeta. split; [reflexivity|]. split; [reflexivity|].
  vm_compute. discriminate.
Qed.

(** C1, as amended.  Every element of a fragment built by
    [buildAnnotatedFragment] carries the processed marker, and below an
    element that carries it a scan changes nothing: annotated regions are
    excluded from every later pass.  When moreover every text node that the
    first pass rewrites gets a fragment none of whose plain text nodes
    contains a match of the money pattern (each match was convertible, and no
    text left around the wrappers is a match on its own), a second
    [processDocument] makes no mutation and leaves the tree as the first pass
    left it. *)
Theorem processDocument_second_pass (st : Settings) (root : node) :
  (forall text, Forall fragmentNode (buildAnnotatedFragment st text))
  /\ (forall anc n, closestAttr PROCESSED anc = true ->
        scanNode st anc n = ([n], []))
  /\ (settled st root = true ->
      processDocument st (fst (processDocument st root))
      = (fst (processDocument st root), [])).
Proof.
  split; [apply fragment_nodes|].
  split; [intros anc n H; apply scan_marked; exact H|].
  intros Hs. destruct root as [v|tag a children]; [reflexivity|].
  pose proof (scan_again st (Element tag a children) [] Hs) as H.
  cbn [scanNode fst] in H. inversion H as [|? ? Hroot _]; subst.
  cbn [scanNode] in Hroot. injection Hroot as E1 E2.
  cbn [processDocument fst]. rewrite E1, E2. reflexivity.
Qed.

Lemma processDocument_second_pass_witness :
  let root := body [paragraph "Pay $5 now"] in
  scanNode DEFAULT [(str "SPAN", wrapperAttrs); (str "P", [])]
           (Text (str "$5 "))
  = ([Text (str "$5 ")], [])
  /\ processDocument DEFAULT (fst (processDocument DEFAULT root))
     = (fst (processDocument DEFAULT root), []).
Proof.
  intro root.
  destruct (processDocument_second_pass DEFAULT root) as [_ [Hmarked Hsettled]].
  split.
  - apply Hmarked. reflexivity.
  - apply Hsettled. reflexivity.
Defined.

(** C7.  For "Pay $5 now" in inline mode at 15 an hour, the formatter gives
    "20min"; the fragment is the text "Pay ", a wrapper holding "$5 " and the
    annotation "(20min) ", and the text "now"; from the wrapper on its text
    content reads "$5 (20min) now" (after "Pay "), with one space on each
    side of the parenthesis. *)
Theorem inline_spacing_scenario :
  displayMode DEFAULT = str "inline"
  /\ hourlyRate DEFAULT = Fin 15
  /\ formatTimeFromMoney DEFAULT (Fin 5) (Fin 15) = Some (str "20min")
  /\ buildAnnotatedFragment DEFAULT (str "Pay $5 now")
     = [ Text (str "Pay ");
         Element (str "SPAN") wrapperAttrs
           [ Text (str "$5 ");
             Element (str "SPAN") [(str "class", str "mt-annotation")]
               [Text (str "(20min) ")] ];
         Text (str "now") ]
  /\ flat_map textContent (buildAnnotatedFragment DEFAULT (str "Pay $5 now"))
     = str "Pay $5 (20min) now"
  /\ flat_map textContent
       (tl (buildAnnotatedFragment DEFAULT (str "Pay $5 now")))
     = str "$5 (20min) now".
Proof.
  repeat split; reflexivity.
Qed.

(** C8, counterexample.  For the text "$0" the fragment is one text node
    "$0", equal in content to the original, and [processTextNode] replaces
    the original node by it all the same: a mutation is made. *)
Lemma commit_equal_content_counterexample :
  let frag := buildAnnotatedFragment DEFAULT (str "$0") in
  flat_map textContent frag = str "$0"
  /\ frag = [Text (str "$0")]
  /\ processTextNode DEFAULT [(str "P", [])] (str "$0") = Some frag
  /\ processTextNode DEFAULT [(str "P", [])] (str "$0") <> None
  /\ snd (processDocument DEFAULT (body [paragraph "$0"]))
     = [mkMutation (Text (str "$0")) [Text (str "$0")]].
Proof.
  cbv zeta. repeat split; try reflexivity. vm_compute. discriminate.
Qed.

(** C8, as amended.  Committing an empty fragment leaves the tree alone, and
    committing any other fragment replaces the node, whatever its content.
    [processTextNode] leaves the node in place exactly when one of its guards
    holds or the text has no match; when it goes on, the fragment it has
    built is not empty and replaces the node. *)
Theorem commitFragment_replaces (st : Settings) (anc : ancestors)
  (text : jsstring) :
  commitFragment [] = None
  /\ (forall frag, frag <> [] -> commitFragment frag = Some frag)
  /\ (processTextNode st anc text = None
      <-> guarded anc = true \/ Regex.test MONEY.regex text = false)
  /\ (forall frag, processTextNode st anc text = Some frag ->
        frag = buildAnnotatedFragment st text /\ frag <> []).
Proof.
  split; [reflexivity|]. split; [|split].
  - intros [|n frag] H; [congruence | reflexivity].
  - apply processTextNode_none.
  - intros frag H. destruct (processTextNode_some st anc text frag H) as [H1 [H2 _]].
    split; assumption.
Qed.

Lemma commitFragment_replaces_witness :
  commitFragment [Text (str "$0")] = Some [Text (str "$0")]
  /\ [Text (str "$0")] = buildAnnotatedFragment DEFAULT (str "$0").
Proof.
  destruct (commitFragment_replaces DEFAULT [(str "P", [])] (str "$0"))
    as [_ [Hcommit [_ Hsome]]].
  split.
  - apply Hcommit. discriminate.
  - apply (Hsome [Text (str "$0")]). reflexivity.
Defined.

(** The composite price of claim C9: symbol, whole and fraction parts and no
    off-screen text. *)
Definition price4999 : node :=
  Element (str "SPAN") [(str "class", str "a-price")]
    [ Element (str "SPAN") [(str "class", str "a-price-symbol")] [Text (str "$")];
      Element (str "SPAN") [(str "class", str "a-price-whole")] [Text (str "49")];
      Element (str "SPAN") [(str "class", str "a-price-fraction")]
        [Text (str "99")] ].

(** C9.  For the price with parts "$", "49" and "99" and no off-screen text,
    the reconstructed string is "$4999", its first numeric substring is
    "4999", and the amount parsed is 4999. *)
Theorem structured_price_4999 :
  querySelectorClass (str "a-offscreen") price4999 = None
  /\ priceText price4999 = Some (str "$4999")
  /\ option_map (fun m => group (str "$4999") m "1")
       (exec NUMERIC (str "$4999") 0) = Some (Some (str "4999"))
  /\ priceAmount price4999 = Some (Fin 4999).
Proof.
  repeat split; reflexivity.
Qed.

Module StructuredPriceFacts.

Lemma eqb_refl (s : jsstring) : JsString.eqb s s = true.
Proof.
  unfold JsString.eqb. destruct (list_eq_dec N.eq_dec s s); congruence.
Qed.

Lemma hasAttribute_setAttribute (name value : jsstring) (a : attrs) :
  hasAttribute name (setAttribute name value a) = true.
Proof.
  unfold hasAttribute. induction a as [|e a IH]; cbn [setAttribute existsb fst].
  - rewrite eqb_refl. reflexivity.
  - destruct (JsString.eqb (fst e) name) eqn:E; cbn [existsb fst].
    + rewrite eqb_refl. reflexivity.
    + rewrite E, IH. reflexivity.
Qed.

(** The structured path guards itself: an element it has annotated carries
    the processed marker, and a second call leaves it as it is. *)
Lemma processStructuredPrice_again (st : Settings) (anc : ancestors) (el : node) :
  processStructuredPrice st anc (processStructuredPrice st anc el)
  = processStructuredPrice st anc el.
Proof.
  destruct el as [v|tag a children]; [reflexivity|].
  remember (Element tag a children) as el eqn:Eel.
  assert (Hstay : processStructuredPrice st anc el = el ->
                  processStructuredPrice st anc (processStructuredPrice st anc el)
                  = processStructuredPrice st anc el)
    by (intros E; rewrite !E; reflexivity).
  assert (Hcases :
    processStructuredPrice st anc el = el
    \/ exists ann, processStructuredPrice st anc el
                   = Element tag (setAttribute PROCESSED (str "true") a)
                             (children ++ [ann])).
  { subst el. unfold processStructuredPrice.
    destruct (closestAttr PROCESSED ((tag, a) :: anc)); [left; reflexivity|].
    destruct (priceAmount (Element tag a children)) as [amount|];
      [|left; reflexivity].
    destruct (negb (truthy _)); [left; reflexivity|].
    destruct (querySelectorClass _ _); [left; reflexivity|].
    right. eexists. reflexivity. }
  destruct Hcases as [E|[ann E]]; [apply Hstay; exact E|].
  rewrite E. unfold processStructuredPrice at 1.
  unfold closestAttr. cbn [existsb snd].
  rewrite hasAttribute_setAttribute. reflexivity.
Qed.

Example structured_price_annotated :
  textContent (processStructuredPrice DEFAULT [] price4999)
  = str "$4999 (~1mo 3w 4d)".
Proof. reflexivity. Qed.

End StructuredPriceFacts.

(* ================================================================= *)
(** * What the annotation keeps of the text *)

Module TextFacts.

Local Open Scope nat_scope.

Definition ANNOTATION : jsstring := str "mt-annotation".

(** The text of a node without what the script has added to it: the content
    of the elements of class [mt-annotation] is left out. *)
Fixpoint sourceText (n : node) : jsstring :=
  match n with
  | Text v => v
  | Element _ a children =>
      if hasClass ANNOTATION a then [] else flat_map sourceText children
  end.

Lemma firstn_slice (s : jsstring) (i j : nat) :
  i <= j -> firstn i s ++ slice s i j = firstn j s.
Proof.
  intros H. unfold slice.
  replace j with (i + (j - i)) at 2 by lia.
  rewrite firstn_plus. reflexivity.
Qed.

Section Cover.

(** [cover] reads a node; it reads a text node as its value and a wrapper as
    the matched text. *)
Variable st : Settings.
Variable cover : node -> jsstring.
Hypothesis cover_text : forall v, cover (Text v) = v.
Hypothesis cover_wrapper :
  forall fullMatch timeStr, cover (wrapperFor st fullMatch timeStr) = fullMatch.

Lemma annotate_cover (text : jsstring) : forall fuel lastIndex frag,
  lastIndex <= length text ->
  flat_map cover frag = firstn lastIndex text ->
  let final :=
    fold_left (annotateMatch st text)
      (execLoop MONEY.regex text fuel lastIndex) (lastIndex, frag) in
  flat_map cover (snd final) = firstn (fst final) text
  /\ fst final <= length text.
Proof.
  induction fuel as [|fuel IH]; intros lastIndex frag Hlen Hfrag;
    cbn [execLoop]; [cbn; auto|].
  destruct (exec MONEY.regex text lastIndex) as [m|] eqn:E; [|cbn; auto].
  destruct (exec_some text _ _ _ E) as [[Hi Hie] [Hend _]].
  cbn [fold_left]. unfold annotateMatch at 2.
  apply IH; [exact Hend|].
  assert (Hgap :
    flat_map cover
      (if lastIndex <? index m
       then frag ++ [Text (slice text lastIndex (index m))] else frag)
    = firstn (index m) text).
  { destruct (lastIndex <? index m) eqn:Hlt.
    - rewrite flat_map_app, Hfrag. cbn [flat_map]. rewrite cover_text, app_nil_r.
      apply firstn_slice. exact Hi.
    - apply Nat.ltb_ge in Hlt. replace (index m) with lastIndex by lia.
      exact Hfrag. }
  destruct (truthy _); rewrite flat_map_app, Hgap; cbn [flat_map];
    rewrite ?cover_text, ?cover_wrapper, app_nil_r;
    apply firstn_slice; exact Hie.
Qed.

(** Read through [cover], a fragment is the text it was built from. *)
Lemma fragment_cover (text : jsstring) :
  flat_map cover (buildAnnotatedFragment st text) = text.
Proof.
  unfold buildAnnotatedFragment, moneyMatches.
  pose proof (annotate_cover text (S (length text)) 0 []
                (Nat.le_0_l _) eq_refl) as H.
  cbv zeta in H. destruct (fold_left _ _ _) as [lastIndex frag].
  cbn [fst snd] in H. destruct H as [Hfrag Hlen].
  destruct (lastIndex <? length text) eqn:Hlt.
  - rewrite flat_map_app, Hfrag. cbn [flat_map].
    rewrite cover_text, app_nil_r. apply firstn_skipn.
  - apply Nat.ltb_ge in Hlt. rewrite Hfrag.
    apply firstn_all2. exact Hlt.
Qed.

(** [cover] reads an element through its attributes and what it reads in
    the children. *)
Variable wrap : attrs -> jsstring -> jsstring.
Hypothesis cover_element :
  forall tag a children,
    cover (Element tag a children) = wrap a (flat_map cover children).

Lemma scan_cover (n : node) : forall anc,
  flat_map cover (fst (scanNode st anc n)) = cover n.
Proof.
  induction n as [v|tag a children IH] using node_induction; intros anc.
  - cbn [scanNode]. destruct (acceptNode anc v); [|cbn; apply app_nil_r].
    destruct (processTextNode st anc v) as [frag|] eqn:Hp;
      [|cbn; apply app_nil_r].
    apply processTextNode_some in Hp. destruct Hp as [-> _].
    cbn [fst]. rewrite fragment_cover, cover_text. reflexivity.
  - cbn [scanNode fst flat_map]. rewrite app_nil_r, !cover_element. f_equal.
    induction children as [|c children IHc]; [reflexivity|].
    inversion IH as [|? ? IHhead IHtail]; subst.
    cbn [map flat_map]. rewrite flat_map_app, IHhead, IHc; [reflexivity|].
    exact IHtail.
Qed.

Lemma processDocument_cover (root : node) :
  cover (fst (processDocument st root)) = cover root.
Proof.
  destruct root as [v|tag a children]; [reflexivity|].
  pose proof (scan_cover (Element tag a children) []) as H.
  cbn [scanNode fst flat_map] in H. rewrite app_nil_r in H. exact H.
Qed.

End Cover.

Lemma textContent_wrapper_tooltip (st : Settings) (fullMatch timeStr : jsstring) :
  displayMode st = str "tooltip" ->
  textContent (wrapperFor st fullMatch timeStr) = fullMatch.
Proof.
  intros H. unfold wrapperFor. rewrite H. cbn. apply app_nil_r.
Qed.

Lemma sourceText_wrapper (st : Settings) (fullMatch timeStr : jsstring) :
  displayMode st = str "tooltip" \/ displayMode st = str "inline" ->
  sourceText (wrapperFor st fullMatch timeStr) = fullMatch.
Proof.
  intros [H|H]; unfold wrapperFor; rewrite H.
  - cbn. apply app_nil_r.
  - change (JsString.eqb (str "inline") (str "tooltip")) with false.
    change (JsString.eqb (str "inline") (str "inline")) with true.
    cbv iota. cbn [sourceText].
    change (hasClass ANNOTATION wrapperAttrs) with false. cbv iota.
    cbn [flat_map sourceText]. unfold annotationSpan.
    cbn [sourceText].
    change (hasClass ANNOTATION [(str "class", str "mt-annotation")]) with true.
    cbv iota. rewrite !app_nil_r. reflexivity.
Qed.

End TextFacts.
Import TextFacts.

(** X1.  In tooltip mode the text content of the fragment built for a text is
    that text: wrappers enclose the matched text and nothing else. *)
Theorem tooltip_fragment_keeps_text (st : Settings) (text : jsstring) :
  displayMode st = str "tooltip" ->
  flat_map textContent (buildAnnotatedFragment st text) = text.
Proof.
  intros H. apply fragment_cover; [reflexivity|].
  intros fullMatch timeStr. apply textContent_wrapper_tooltip. exact H.
Qed.

Definition TOOLTIP : Settings :=
  {| hourlyRate := Fin 15; displayMode := str "tooltip";
     hoursPerDay := Fin 8; daysPerWeek := Fin 5 |}.

Lemma tooltip_fragment_keeps_text_witness :
  flat_map textContent
    (buildAnnotatedFragment TOOLTIP (str "From $1,200 to 3 k EUR, or $0"))
  = str "From $1,200 to 3 k EUR, or $0".
Proof.
  apply (tooltip_fragment_keeps_text TOOLTIP). reflexivity.
Defined.

(** X2.  In inline mode (and in tooltip mode) the fragment built for a text,
    read without the annotation spans, is that text: every code unit of the
    original is kept, in order, and the only additions are the annotations. *)
Theorem inline_fragment_keeps_source (st : Settings) (text : jsstring) :
  displayMode st = str "tooltip" \/ displayMode st = str "inline" ->
  flat_map sourceText (buildAnnotatedFragment st text) = text.
Proof.
  intros H. apply fragment_cover; [reflexivity|].
  intros fullMatch timeStr. apply sourceText_wrapper. exact H.
Qed.

Lemma inline_fragment_keeps_source_witness :
  flat_map sourceText
    (buildAnnotatedFragment DEFAULT (str "From $1,200 to 3 k EUR, or $0"))
  = str "From $1,200 to 3 k EUR, or $0".
Proof.
  apply (inline_fragment_keeps_source DEFAULT). right. reflexivity.
Defined.

(** X3.  A pass of [processDocument] in tooltip mode leaves the text content
    of the document as it was; in inline or tooltip mode it leaves the text
    read without annotation spans as it was. *)
Theorem processDocument_keeps_text (st : Settings) (root : node) :
  (displayMode st = str "tooltip" ->
   textContent (fst (processDocument st root)) = textContent root)
  /\ (displayMode st = str "tooltip" \/ displayMode st = str "inline" ->
      sourceText (fst (processDocument st root)) = sourceText root).
Proof.
  split; intros H.
  - apply (processDocument_cover st textContent (fun v => eq_refl)
             (fun f t => textContent_wrapper_tooltip st f t H)
             (fun _ x => x)).
    reflexivity.
  - apply (processDocument_cover st sourceText (fun v => eq_refl)
             (fun f t => sourceText_wrapper st f t H)
             (fun a x => if hasClass ANNOTATION a then [] else x)).
    reflexivity.
Qed.

Lemma processDocument_keeps_text_witness :
  let root := body [paragraph "Pay $5 now"; paragraph "or 3 k EUR"] in
  textContent (fst (processDocument TOOLTIP root)) = textContent root
  /\ sourceText (fst (processDocument DEFAULT root)) = sourceText root.
Proof.
  intro root. split.
  - apply (proj1 (processDocument_keeps_text TOOLTIP root)). reflexivity.
  - apply (proj2 (processDocument_keeps_text DEFAULT root)). right. reflexivity.
Defined.

Module WalkFacts.

Local Open Scope nat_scope.

Lemma guarded_ignore (anc : ancestors) :
  closestAttr IGNORE anc = true -> guarded anc = true.
Proof.
  intros H. unfold guarded. destruct anc as [|parent anc']; [reflexivity|].
  rewrite H. apply orb_true_r.
Qed.

(** Below an element that carries [data-mt-ignore] no text node is
    replaced. *)
Lemma scan_ignored (st : Settings) (n : node) :
  forall anc, closestAttr IGNORE anc = true ->
    scanNode st anc n = ([n], []).
Proof.
  induction n as [v|tag a children IH] using node_induction; intros anc Hanc.
  - cbn [scanNode].
    assert (E : processTextNode st anc v = None)
      by (apply processTextNode_none; left; apply guarded_ignore; exact Hanc).
    rewrite E. destruct (acceptNode anc v); reflexivity.
  - cbn [scanNode].
    assert (Hanc' : closestAttr IGNORE ((tag, a) :: anc) = true).
    { unfold closestAttr in *. cbn [existsb]. rewrite Hanc. apply orb_true_r. }
    destruct (children_fixed (scanNode st ((tag, a) :: anc)) children)
      as [E1 E2].
    { eapply Forall_impl; [|exact IH]. intros c Hc. apply Hc. exact Hanc'. }
    rewrite E1, E2. reflexivity.
Qed.

Lemma textNodes_accepted (n : node) : forall anc p,
  In p (textNodes anc n) -> acceptNode (fst p) (snd p) = true.
Proof.
  induction n as [v|tag a children IH] using node_induction; intros anc p Hp.
  - cbn [textNodes] in Hp. destruct (acceptNode anc v) eqn:E; [|destruct Hp].
    destruct Hp as [<-|[]]. exact E.
  - cbn [textNodes] in Hp. apply in_flat_map in Hp.
    destruct Hp as [c [Hc Hp]]. rewrite Forall_forall in IH.
    exact (IH c Hc _ _ Hp).
Qed.

Lemma acceptNode_not_blank (anc : ancestors) (v : jsstring) :
  acceptNode anc v = true -> isBlank v = false /\ v <> [].
Proof.
  unfold acceptNode. destruct v as [|c v]; [discriminate|].
  destruct (isBlank (c :: v)); [discriminate|].
  intros _. split; [reflexivity | discriminate].
Qed.

End WalkFacts.
Import WalkFacts.

(** X4.  An element that carries [data-mt-ignore] is left as it is by the
    scan, with everything below it, wherever it stands in the document; so is
    the whole document when the root carries the attribute. *)
Theorem ignore_subtree_untouched (st : Settings) (anc : ancestors)
  (tag : jsstring) (a : attrs) (children : list node) :
  hasAttribute IGNORE a = true ->
  scanNode st anc (Element tag a children) = ([Element tag a children], [])
  /\ processDocument st (Element tag a children)
     = (Element tag a children, []).
Proof.
  intros H.
  assert (Hc : forall anc', closestAttr IGNORE ((tag, a) :: anc') = true).
  { intros anc'. unfold closestAttr. cbn [existsb snd]. rewrite H. reflexivity. }
  assert (Hchildren : forall anc',
    flat_map fst (map (scanNode st ((tag, a) :: anc')) children) = children
    /\ flat_map snd (map (scanNode st ((tag, a) :: anc')) children) = []).
  { intros anc'. apply children_fixed. apply Forall_forall. intros c _.
    apply scan_ignored. apply Hc. }
  split.
  - cbn [scanNode]. destruct (Hchildren anc) as [E1 E2]. rewrite E1, E2.
    reflexivity.
  - cbn [processDocument]. destruct (Hchildren []) as [E1 E2]. rewrite E1, E2.
    reflexivity.
Qed.

Lemma ignore_subtree_untouched_witness :
  let el := Element (str "DIV") [(str "data-mt-ignore", [])]
              [paragraph "Pay $5 now"] in
  scanNode DEFAULT [(str "BODY", [])] el = ([el], [])
  /\ processDocument DEFAULT el = (el, []).
Proof.
  intro el.
  apply (ignore_subtree_untouched DEFAULT [(str "BODY", [])] (str "DIV")
           [(str "data-mt-ignore", [])] [paragraph "Pay $5 now"]).
  reflexivity.
Defined.

(** X5.  Every mutation of a pass of [processDocument] takes out one text
    node and puts the fragment built from its value in its place.  That text
    node is not blank, contains a match of the money pattern, has a parent
    that is not one of [SKIP_TAGS], and has no ancestor that carries the
    processed or the ignore marker: nothing else is ever removed. *)
Theorem mutations_replace_matching_text (st : Settings) (root : node) :
  Forall (fun mu =>
    exists anc v,
      In (anc, v) (textNodes [] root)
      /\ removedNode mu = Text v
      /\ addedNodes mu = buildAnnotatedFragment st v
      /\ addedNodes mu <> []
      /\ isBlank v = false
      /\ Regex.test MONEY.regex v = true
      /\ guarded anc = false)
    (snd (processDocument st root)).
Proof.
  destruct root as [v|tag a children]; [constructor|].
  assert (E : snd (processDocument st (Element tag a children))
              = snd (scanNode st [] (Element tag a children)))
    by reflexivity.
  rewrite E, scan_log. apply Forall_forall. intros mu Hmu.
  apply in_flat_map in Hmu. destruct Hmu as [[anc v] [Hin Hmu]].
  cbn [fst snd] in Hmu.
  destruct (processTextNode st anc v) as [frag|] eqn:Hp; [|destruct Hmu].
  destruct Hmu as [<-|[]]. exists anc, v. cbn [removedNode addedNodes].
  pose proof (processTextNode_some st anc v frag Hp) as [Hfrag [Hne Htest]].
  pose proof (textNodes_accepted _ _ _ Hin) as Hacc. cbn [fst snd] in Hacc.
  destruct (acceptNode_not_blank anc v Hacc) as [Hblank _].
  repeat split; try assumption.
  destruct (guarded anc) eqn:Hg; [|reflexivity].
  assert (processTextNode st anc v = None)
    by (apply processTextNode_none; left; exact Hg).
  congruence.
Qed.

(** X6.  Conversely, every text node the walker hands out that contains a
    match and has no ancestor with the ignore marker is replaced by its
    fragment.  Only the parent is held against [SKIP_TAGS]: a text in a
    [span] inside a [pre] is replaced like any other. *)
Theorem matching_text_is_replaced (st : Settings) (root : node)
  (anc : ancestors) (v : jsstring) :
  In (anc, v) (textNodes [] root) ->
  closestAttr IGNORE anc = false ->
  Regex.test MONEY.regex v = true ->
  In (mkMutation (Text v) (buildAnnotatedFragment st v))
     (snd (processDocument st root)).
Proof.
  intros Hin Hig Ht.
  destruct root as [r|tag a children].
  { cbn [textNodes] in Hin. unfold acceptNode in Hin.
    destruct r; [destruct Hin|]. destruct (isBlank _); destruct Hin. }
  assert (E : snd (processDocument st (Element tag a children))
              = snd (scanNode st [] (Element tag a children)))
    by reflexivity.
  rewrite E, scan_log. apply in_flat_map. exists (anc, v).
  split; [exact Hin|]. cbn [fst snd].
  pose proof (textNodes_accepted _ _ _ Hin) as Hacc. cbn [fst snd] in Hacc.
  destruct (processTextNode st anc v) as [frag|] eqn:Hp.
  - apply processTextNode_some in Hp. destruct Hp as [-> _].
    left. reflexivity.
  - exfalso. apply processTextNode_none in Hp. destruct Hp as [Hg|Hf];
      [|congruence].
    unfold acceptNode in Hacc. unfold guarded in Hg.
    destruct v as [|c v]; [discriminate|].
    destruct (isBlank (c :: v)); [discriminate|].
    destruct anc as [|parent anc']; [discriminate|].
    destruct (isSkipTag (fst parent)); [discriminate|].
    destruct (closestAttr PROCESSED (parent :: anc')); [discriminate|].
    rewrite Hig in Hg. discriminate.
Qed.

Lemma matching_text_is_replaced_witness :
  In (mkMutation (Text (str "$5"))
        (buildAnnotatedFragment DEFAULT (str "$5")))
     (snd (processDocument DEFAULT
             (body [Element (str "PRE") []
                      [Element (str "SPAN") [] [Text (str "$5")]]]))).
Proof.
  apply (matching_text_is_replaced DEFAULT
           (body [Element (str "PRE") []
                    [Element (str "SPAN") [] [Text (str "$5")]]])
           [(str "SPAN", []); (str "PRE", []); (str "BODY", [])] (str "$5")).
  - left. reflexivity.
  - reflexivity.
  - reflexivity.
Defined.

(* ================================================================= *)
(** * More on the matches of the money pattern *)

Module LexerFacts.

Local Open Scope nat_scope.

(** A pattern without groups. *)
Fixpoint groupFree (r : regex) : bool :=
  match r with
  | Seq a b | Alt a b => groupFree a && groupFree b
  | Quant r' _ _ => groupFree r'
  | Group _ _ => false
  | _ => true
  end.

Ltac leaf_end Hy :=
  repeat match type of Hy with
         | In _ (match nth_error ?s ?e with _ => _ end) =>
             destruct (nth_error s e); [|destruct Hy]
         | In _ (if ?b then _ else _) => destruct b; [|destruct Hy]
         end;
  destruct Hy as [<-|[]].

Section Inversion.

Variable text : jsstring.

Lemma seq_inv (a b : regex) (x y : MatchState) :
  In y (rmatch (Seq a b) text x) ->
  exists z, In z (rmatch a text x) /\ In y (rmatch b text z).
Proof. cbn [rmatch]. intros H. apply in_flat_map in H. exact H. Qed.

Lemma group_inv (n : string) (r : regex) (x y : MatchState) :
  In y (rmatch (Group n r) text x) ->
  exists z, In z (rmatch r text x)
            /\ endIndex y = endIndex z
            /\ captures y = (n, (endIndex x, endIndex z)) :: captures z.
Proof.
  cbn [rmatch]. intros H. apply in_map_iff in H. destruct H as [z [<- Hz]].
  exists z. auto.
Qed.

Lemma opt_inv (r : regex) (x y : MatchState) :
  In y (rmatch (Opt r) text x) -> y = x \/ In y (rmatch r text x).
Proof.
  unfold Opt. cbn [rmatch]. intros H.
  apply repeatMatcher_iterates in H. destruct H as [n [Hit [Hub _]]].
  specialize (Hub 1 eq_refl).
  destruct Hit as [x|n x z y Hz Hit]; [left; reflexivity|].
  right. destruct Hit as [z|n z z' y Hz' Hit]; [exact Hz | lia].
Qed.

Lemma groupFree_captures (r : regex) :
  groupFree r = true ->
  forall x y, In y (rmatch r text x) -> captures y = captures x.
Proof.
  induction r as [|items| |a IHa b IHb|a IHa b IHb|r IH min max|name r IH];
    intros Hg x y Hy; cbn [groupFree] in Hg; try discriminate;
    cbn [rmatch] in Hy.
  1-3: leaf_end Hy; reflexivity.
  - apply andb_true_iff in Hg. destruct Hg as [Ha Hb].
    apply in_flat_map in Hy. destruct Hy as [z [Hz Hy]].
    rewrite (IHb Hb _ _ Hy). exact (IHa Ha _ _ Hz).
  - apply andb_true_iff in Hg. destruct Hg as [Ha Hb].
    apply in_app_or in Hy. destruct Hy as [Hy|Hy];
      [exact (IHa Ha _ _ Hy) | exact (IHb Hb _ _ Hy)].
  - apply repeatMatcher_iterates in Hy. destruct Hy as [n [Hit _]].
    induction Hit as [x|n x z y Hz _ IHit]; [reflexivity|].
    rewrite IHit. exact (IH Hg _ _ Hz).
Qed.

(** The code unit before offset [e] satisfies [p]. *)
Definition unitBefore (p : N -> bool) (e : nat) : Prop :=
  exists e' c, e = S e' /\ nth_error text e' = Some c /\ p c = true.

Lemma class_inv (items : list classItem) (x y : MatchState) :
  In y (rmatch (Class items) text x) ->
  exists ch, nth_error text (endIndex x) = Some ch
             /\ classMatches items ch = true
             /\ endIndex y = S (endIndex x)
             /\ captures y = captures x.
Proof.
  cbn [rmatch]. intros H.
  destruct (nth_error text (endIndex x)) as [ch|]; [|destruct H].
  destruct (classMatches items ch) eqn:E; [|destruct H].
  destruct H as [<-|[]]. exists ch. auto.
Qed.

(** After [\s*] the offset has not moved, or a white space unit lies just
    before it. *)
Lemma star_space_inv (x y : MatchState) :
  In y (rmatch (Star Space) text x) ->
  captures y = captures x
  /\ (endIndex y = endIndex x \/ unitBefore isSpace (endIndex y)).
Proof.
  intros H. split; [exact (groupFree_captures (Star Space) eq_refl _ _ H)|].
  unfold Star in H. cbn [rmatch] in H.
  apply repeatMatcher_iterates in H. destruct H as [n [Hit _]].
  induction Hit as [x|n x z y Hz Hit IH]; [left; reflexivity|].
  right. destruct IH as [E|IH]; [|exact IH].
  apply class_inv in Hz. destruct Hz as [ch [Hnth [Hc [He _]]]].
  exists (endIndex x), ch. rewrite E, He. split; [reflexivity|].
  split; [exact Hnth|].
  unfold classMatches in Hc. simpl in Hc. rewrite orb_false_r in Hc. exact Hc.
Qed.

Lemma slice_last (i j : nat) (w : jsstring) (c : N) :
  i <= j -> j = i \/ j <= length text ->
  slice text i j = w ++ [c] -> unitBefore (N.eqb c) j.
Proof.
  intros Hij Hj Hs.
  assert (Hlen : length (slice text i j) = S (length w))
    by (rewrite Hs, length_app; simpl; lia).
  unfold slice in *. rewrite length_firstn, length_skipn in Hlen.
  destruct j as [|j]; [lia|].
  exists j, c. split; [reflexivity|]. split; [|apply N.eqb_refl].
  assert (Hnth : nth_error (firstn (S j - i) (skipn i text)) (j - i) = Some c).
  { rewrite Hs, nth_error_app2 by lia.
    replace (j - i - length w) with 0 by lia. reflexivity. }
  rewrite nth_error_firstn in Hnth.
  destruct (j - i <? S j - i) eqn:E; [|discriminate].
  rewrite nth_error_skipn in Hnth. replace (i + (j - i)) with j in Hnth by lia.
  exact Hnth.
Qed.

End Inversion.

Lemma digits_last (w : jsstring) :
  digitsOnly w -> w <> [] ->
  exists w' c, w = w' ++ [c] /\ isDigit c = true.
Proof.
  intros Hd Hne. destruct (exists_last Hne) as [w' [c ->]].
  exists w', c. split; [reflexivity|].
  apply Forall_app in Hd. destruct Hd as [_ Hc]. inversion Hc; assumption.
Qed.

Lemma quant_digits_last (min : nat) (max : option nat) (w : jsstring) :
  0 < min -> matchesWord (Quant Digit min max) w ->
  exists w' c, w = w' ++ [c] /\ isDigit c = true.
Proof.
  intros Hmin H. apply word_digits in H. destruct H as [Hd Hlen].
  apply digits_last; [exact Hd|]. destruct w; [simpl in Hlen; lia | discriminate].
Qed.

(** A word of [NUMBER] ends with a digit. *)
Lemma number_last_digit (w : jsstring) :
  matchesWord MONEY.NUMBER w ->
  exists w' c, w = w' ++ [c] /\ isDigit c = true.
Proof.
  unfold MONEY.NUMBER. intros [u [v [-> [Hint Hfrac]]]].
  assert (Hu : exists u' c, u = u' ++ [c] /\ isDigit c = true).
  { destruct Hint as [Hgrouped|Hplain].
    - destruct Hgrouped as [u1 [u2 [-> [_ H2]]]].
      unfold Plus in H2. destruct H2 as [ws [-> [Hall [Hmin _]]]].
      destruct ws as [|g ws]; [simpl in Hmin; lia|].
      destruct (exists_last (l := g :: ws)) as [ws' [g' E]]; [discriminate|].
      rewrite E in *. apply Forall_app in Hall. destruct Hall as [_ Hlast].
      inversion Hlast as [|? ? Hg _]; subst.
      destruct Hg as [a [b [-> [_ Hb]]]].
      apply quant_digits_last in Hb; [|lia].
      destruct Hb as [b' [c [-> Hc]]].
      exists (u1 ++ concat ws' ++ a ++ b'), c. split; [|exact Hc].
      rewrite concat_app. simpl. rewrite app_nil_r, <- !app_assoc. reflexivity.
    - unfold Plus in Hplain. apply quant_digits_last in Hplain; [|lia].
      exact Hplain. }
  unfold Opt in Hfrac. destruct Hfrac as [ws [-> [Hall [_ Hmax]]]].
  specialize (Hmax 1 eq_refl).
  destruct ws as [|f [|f' ws]]; [| |simpl in Hmax; lia].
  - simpl. rewrite app_nil_r. exact Hu.
  - inversion Hall as [|? ? Hf _]; subst.
    destruct Hf as [a [b [-> [_ Hb]]]].
    unfold Plus in Hb. apply quant_digits_last in Hb; [|lia].
    destruct Hb as [b' [c [-> Hc]]].
    exists (u ++ a ++ b'), c. split; [|exact Hc].
    simpl. rewrite app_nil_r, <- !app_assoc. reflexivity.
Qed.

Section Suffix.

Variable text : jsstring.

Lemma number_inv (num : string) (x y : MatchState) :
  In y (rmatch (Group num MONEY.NUMBER) text x) ->
  (exists n, captures y = (num, n) :: captures x)
  /\ unitBefore text isDigit (endIndex y).
Proof.
  intros H. apply group_inv in H. destruct H as [z [Hz [He Hc]]].
  split.
  - rewrite Hc, (groupFree_captures text MONEY.NUMBER eq_refl _ _ Hz). eauto.
  - pose proof (rmatch_word text MONEY.NUMBER eq_refl _ _ Hz) as Hw.
    apply number_last_digit in Hw. destruct Hw as [w' [c [Hs Hd]]].
    destruct (rmatch_advances text MONEY.NUMBER _ _ Hz) as [Hle Hend].
    destruct (slice_last text _ _ _ _ Hle Hend Hs) as [e' [c' [E [Hnth Hc']]]].
    apply N.eqb_eq in Hc'. subst c'.
    exists e', c. rewrite He. auto.
Qed.

Lemma isWordChar_canonical (ch c : N) :
  isUpper c = true -> canonicalize ch = c -> isWordChar ch = true.
Proof.
  unfold canonicalize, toUpperUnit, isWordChar, isUpper, isLower.
  intros Hc E.
  apply andb_true_iff in Hc. destruct Hc as [H1 H2].
  apply N.leb_le in H1, H2.
  destruct ((97 <=? ch)%N && (ch <=? 122)%N) eqn:El; [apply orb_true_iff; left;
    apply orb_true_iff; left; apply orb_true_r|].
  subst c.
  assert (((65 <=? ch)%N && (ch <=? 90)%N) = true)
    by (apply andb_true_iff; split; apply N.leb_le; assumption).
  rewrite H. reflexivity.
Qed.

(** A literal word starts with the letter it is written with. *)
Lemma word_first (w : string) (x y : MatchState) :
  In y (rmatch (Word w) text x) ->
  match str w with
  | c :: _ =>
      exists ch, nth_error text (endIndex x) = Some ch
                 /\ canonicalize ch = canonicalize c
  | [] => True
  end.
Proof.
  unfold Word. destruct (str w) as [|c rest]; [exact (fun _ => I)|].
  cbn [fold_right]. intros H. apply seq_inv in H. destruct H as [z [Hz _]].
  apply class_inv in Hz. destruct Hz as [ch [Hnth [Hc _]]].
  exists ch. split; [exact Hnth|].
  unfold classMatches in Hc. simpl in Hc. rewrite orb_false_r in Hc.
  apply N.eqb_eq. exact Hc.
Qed.

(** [SCALE] matches only at a word boundary that a letter follows. *)
Lemma scale_start (x y : MatchState) :
  In y (rmatch MONEY.SCALE text x) ->
  isWordBoundary text (endIndex x) = true
  /\ isWordCharAt text (endIndex x) = true.
Proof.
  unfold MONEY.SCALE. intros H.
  apply seq_inv in H. destruct H as [z [Hz H]].
  cbn [rmatch] in Hz.
  destruct (isWordBoundary text (endIndex x)) eqn:Hb; [|destruct Hz].
  destruct Hz as [<-|[]]. split; [reflexivity|].
  apply seq_inv in H. destruct H as [z [Hz _]].
  cbn [rmatch] in Hz.
  repeat (apply in_app_or in Hz; destruct Hz as [Hz|Hz]).
  all: apply word_first in Hz; simpl in Hz;
       destruct Hz as [ch [Hnth Hc]]; unfold isWordCharAt; rewrite Hnth;
       eapply isWordChar_canonical; [|exact Hc]; reflexivity.
Qed.

Lemma suffix_inv (suf : string) (x y : MatchState) :
  unitBefore text isDigit (endIndex x)
  \/ unitBefore text isSpace (endIndex x) ->
  In y (rmatch (Opt (Group suf MONEY.SCALE)) text x) ->
  captures y = captures x
  \/ (exists b, captures y = (suf, (endIndex x, b)) :: captures x)
     /\ unitBefore text isSpace (endIndex x).
Proof.
  intros Hbefore H. apply opt_inv in H. destruct H as [->|H]; [left; reflexivity|].
  right. apply group_inv in H. destruct H as [z [Hz [_ Hc]]].
  split.
  - rewrite Hc, (groupFree_captures text MONEY.SCALE eq_refl _ _ Hz). eauto.
  - destruct Hbefore as [Hd|Hs]; [|exact Hs]. exfalso.
    apply scale_start in Hz. destruct Hz as [Hb Hw].
    destruct Hd as [e' [c [E [Hnth Hd]]]].
    unfold isWordBoundary in Hb. rewrite E in Hb, Hw. rewrite Hw in Hb.
    unfold isWordCharAt in Hb at 1. rewrite Hnth in Hb.
    unfold isWordChar in Hb. rewrite Hd in Hb.
    rewrite orb_true_r in Hb. discriminate.
Qed.

(** [NUMBER \s* SCALE?]: the number is captured, and the suffix only after
    white space. *)
Lemma number_suffix_inv (num suf : string) (x y : MatchState) :
  In y (rmatch (Seq (Group num MONEY.NUMBER)
                  (Seq (Star Space) (Opt (Group suf MONEY.SCALE)))) text x) ->
  exists n,
    captures y = (num, n) :: captures x
    \/ exists a b, captures y = (suf, (a, b)) :: (num, n) :: captures x
                   /\ unitBefore text isSpace a.
Proof.
  intros H. apply seq_inv in H. destruct H as [z1 [Hz1 H]].
  apply seq_inv in H. destruct H as [z2 [Hz2 H]].
  apply number_inv in Hz1. destruct Hz1 as [[n Hc1] Hd].
  apply star_space_inv in Hz2. destruct Hz2 as [Hc2 Hpos].
  exists n.
  assert (Hbefore : unitBefore text isDigit (endIndex z2)
                    \/ unitBefore text isSpace (endIndex z2)).
  { destruct Hpos as [E|Hs]; [left; rewrite E; exact Hd | right; exact Hs]. }
  destruct (suffix_inv suf _ _ Hbefore H) as [Hc|[[b Hc] Hs]].
  - left. congruence.
  - right. exists (endIndex z2), b. split; [congruence | exact Hs].
Qed.

End Suffix.

Definition suffixGroups : list string := ["suf1"; "suf2"; "suf3"]%string.
Definition SYMBOL_UNITS : list N := [36; 163; 8364]%N.
Definition CODE_WORDS : list jsstring := [str "USD"; str "GBP"; str "EUR"].

Lemma symbol_word (w : jsstring) :
  matchesWord MONEY.SYMBOLS w -> exists c, w = [c] /\ In c SYMBOL_UNITS.
Proof.
  intros [ch [-> H]]. exists ch. split; [reflexivity|].
  unfold classMatches in H. simpl in H. rewrite orb_false_r in H.
  assert (Hcan : forall c, isLower c = false -> isUpper c = false ->
            (canonicalize ch =? canonicalize c)%N = true -> ch = c).
  { intros c Hl Hu E.
    assert (Hw : matchesWord (Class [CChar c]) [ch]).
    { exists ch. split; [reflexivity|]. unfold classMatches. simpl.
      rewrite E. reflexivity. }
    apply word_symbol in Hw; [|assumption|assumption]. congruence. }
  apply orb_true_iff in H. destruct H as [H|H];
    [left; symmetry; apply Hcan; auto|].
  apply orb_true_iff in H. destruct H as [H|H];
    [right; left; symmetry; apply Hcan; auto
    |right; right; left; symmetry; apply Hcan; auto].
Qed.

Lemma literal_word (w : string) (u : jsstring) :
  matchesWord (Word w) u -> map canonicalize u = map canonicalize (str w).
Proof.
  unfold Word. revert u. induction (str w) as [|c rest IH]; intros u H.
  - cbn in H. subst u. reflexivity.
  - cbn [fold_right] in H. destruct H as [a [b [-> [[ch [-> Hc]] Hb]]]].
    unfold classMatches in Hc. simpl in Hc. rewrite orb_false_r in Hc.
    apply N.eqb_eq in Hc. simpl. rewrite Hc, (IH _ Hb). reflexivity.
Qed.

Lemma code_word (w : jsstring) :
  matchesWord MONEY.CODES w -> In (map toUpperUnit w) CODE_WORDS.
Proof.
  unfold MONEY.CODES. intros [a [b [-> [Ha [c [d [-> [Hc Hd]]]]]]]].
  cbn in Ha, Hd. subst a d. rewrite app_nil_r. cbn [app].
  destruct Hc as [Hc|[Hc|Hc]]; apply literal_word in Hc;
    change (map canonicalize c) with (map toUpperUnit c) in Hc; rewrite Hc;
    [left | right; left | right; right; left]; reflexivity.
Qed.

Lemma lower_of_canonical (ch c : N) :
  isLower c = true -> canonicalize ch = canonicalize c -> toLowerUnit ch = c.
Proof.
  unfold canonicalize, toUpperUnit, toLowerUnit, isUpper, isLower.
  intros Hc E. rewrite Hc in E.
  apply andb_true_iff in Hc. destruct Hc as [H1 H2].
  apply N.leb_le in H1, H2.
  destruct ((97 <=? ch)%N && (ch <=? 122)%N) eqn:El.
  - apply andb_true_iff in El. destruct El as [L1 L2].
    apply N.leb_le in L1, L2.
    assert (Hu : ((65 <=? ch)%N && (ch <=? 90)%N) = false)
      by (apply andb_false_iff; right; apply N.leb_gt; lia).
    rewrite Hu. lia.
  - assert (Hu : ((65 <=? ch)%N && (ch <=? 90)%N) = true)
      by (apply andb_true_iff; split; apply N.leb_le; lia).
    rewrite Hu. lia.
Qed.

Lemma literal_lower (w : string) (u : jsstring) :
  forallb isLower (str w) = true ->
  matchesWord (Word w) u -> toLowerCase u = str w.
Proof.
  intros Hlow H. apply literal_word in H.
  revert u H. induction (str w) as [|c rest IH]; intros u H.
  - destruct u; [reflexivity | discriminate].
  - destruct u as [|ch u]; [discriminate|].
    cbn [forallb] in Hlow. apply andb_true_iff in Hlow. destruct Hlow as [Hc Hr].
    cbn [map] in H. injection H as Hch Hu.
    cbn [toLowerCase map]. rewrite (lower_of_canonical ch c Hc Hch).
    f_equal. apply IH; assumption.
Qed.

(** A word of [SCALE] is a key of [SCALE_MAP] in some letter case, and
    [multiplier] returns the entry of that key. *)
Lemma scale_word (w : jsstring) :
  matchesWord MONEY.SCALE w ->
  In (toLowerCase w, MONEY.multiplier w) MONEY.SCALE_MAP.
Proof.
  unfold MONEY.SCALE. intros [a [b [-> [Ha [c [d [-> [Hc Hd]]]]]]]].
  cbn in Ha, Hd. subst a d. rewrite app_nil_r. cbn [app].
  assert (Hkey : forall k, toLowerCase c = str k -> str k <> [] ->
            MONEY.multiplier c
            = match find (fun e => JsString.eqb (fst e) (str k)) MONEY.SCALE_MAP
              with Some e => snd e | None => 1%Q end).
  { intros k E Hne. unfold MONEY.multiplier.
    destruct c as [|ch c]; [cbn in E; congruence|].
    rewrite E. reflexivity. }
  cbn [matchesWord] in Hc.
  repeat (destruct Hc as [Hc|Hc]).
  all: apply literal_lower in Hc; [|reflexivity];
       rewrite (Hkey _ Hc) by discriminate; rewrite Hc.
  all: vm_compute; tauto.
Qed.

End LexerFacts.
Import LexerFacts.

(** X7.  Every match of the money pattern carries a currency marker: the
    group [sym] holds one of the signs $, pound or euro, or one of the groups
    [code1], [code2] holds USD, GBP or EUR in some letter case.  A number
    alone is never a match. *)
Theorem match_has_currency_marker (text : jsstring) (lastIndex : nat)
  (m : MatchResult) :
  exec MONEY.regex text lastIndex = Some m ->
  (exists c, group text m "sym" = Some [c] /\ In c SYMBOL_UNITS)
  \/ (exists name w, In name ["code1"; "code2"]%string
                     /\ group text m name = Some w
                     /\ In (map toUpperUnit w) CODE_WORDS).
Proof.
  intros H. destruct (exec_some text _ _ _ H) as [_ [_ [y [rest [Hy [_ Hg]]]]]].
  assert (Hin : In y (rmatch MONEY.regex text (mkState (index m) [])))
    by (rewrite Hy; left; reflexivity).
  clear Hy H. unfold group. rewrite Hg. clear Hg.
  assert (Hmark : forall r n i inner,
    wellFormed r = true -> groupsNamed n r = [inner] ->
    alwaysSets n r = true ->
    In y (rmatch r text (mkState i [])) ->
    exists a b, capture n (captures y) = Some (a, b)
                /\ matchesWord inner (slice text a b)).
  { intros r n i inner Hwf Hgroups Hsets Hr.
    pose proof (capture_from_start text r i y n Hwf Hr) as Hc.
    destruct (capture n (captures y)) as [[a b]|]; [|congruence].
    destruct Hc as [r' [Hr' Hw]]. rewrite Hgroups in Hr'.
    destruct Hr' as [<-|[]]. exists a, b. auto. }
  unfold MONEY.regex in Hin. cbn [rmatch] in Hin.
  apply in_app_or in Hin. destruct Hin as [Hin|Hin];
    [|apply in_app_or in Hin; destruct Hin as [Hin|Hin]].
  - left. destruct (Hmark MONEY.SYMBOL_FIRST "sym"%string _ MONEY.SYMBOLS
                      eq_refl eq_refl eq_refl Hin) as [a [b [Hc Hw]]].
    apply symbol_word in Hw. destruct Hw as [c [Hs Hc']].
    exists c. rewrite Hc, Hs. auto.
  - right. destruct (Hmark MONEY.CODE_LAST "code1"%string _ MONEY.CODES
                       eq_refl eq_refl eq_refl Hin) as [a [b [Hc Hw]]].
    exists "code1"%string, (slice text a b). rewrite Hc.
    split; [left; reflexivity|]. split; [reflexivity | apply code_word; exact Hw].
  - right. destruct (Hmark MONEY.CODE_FIRST "code2"%string _ MONEY.CODES
                       eq_refl eq_refl eq_refl Hin) as [a [b [Hc Hw]]].
    exists "code2"%string, (slice text a b). rewrite Hc.
    split; [right; left; reflexivity|].
    split; [reflexivity | apply code_word; exact Hw].
Qed.

Lemma match_has_currency_marker_witness :
  exists name w, In name ["code1"; "code2"]%string
    /\ group (str "about 3 k eur")
         (mkResult 6 13 [("code1"%string, (10, 13)%nat);
                         ("suf2"%string, (8, 9)%nat);
                         ("num2"%string, (6, 7)%nat)]) name = Some w
    /\ In (map toUpperUnit w) CODE_WORDS.
Proof.
  destruct (match_has_currency_marker (str "about 3 k eur") 0
              (mkResult 6 13 [("code1"%string, (10, 13)%nat);
                              ("suf2"%string, (8, 9)%nat);
                              ("num2"%string, (6, 7)%nat)]) eq_refl)
    as [[c [Hc _]]|H]; [discriminate Hc | exact H].
Defined.

(** X8.  In every match of the money pattern, a captured scale suffix starts
    right after a white space unit: a scale word written directly after the
    digits (as in "$5k") is not part of the match and does not scale the
    amount. *)
Theorem suffix_follows_white_space (text : jsstring) (lastIndex : nat)
  (m : MatchResult) (name : string) (a b : nat) :
  exec MONEY.regex text lastIndex = Some m ->
  In name suffixGroups ->
  capture name (groups m) = Some (a, b) ->
  unitBefore text isSpace a.
Proof.
  intros H Hname Hcap.
  destruct (exec_some text _ _ _ H) as [_ [_ [y [rest [Hy [_ Hg]]]]]].
  assert (Hin : In y (rmatch MONEY.regex text (mkState (index m) [])))
    by (rewrite Hy; left; reflexivity).
  clear Hy H. rewrite Hg in Hcap. clear Hg.
  unfold MONEY.regex in Hin. cbn [rmatch] in Hin.
  apply in_app_or in Hin. destruct Hin as [Hin|Hin];
    [|apply in_app_or in Hin; destruct Hin as [Hin|Hin]].
  - unfold MONEY.SYMBOL_FIRST in Hin.
    apply seq_inv in Hin. destruct Hin as [z1 [Hz1 Hin]].
    apply seq_inv in Hin. destruct Hin as [z2 [Hz2 Hin]].
    apply group_inv in Hz1. destruct Hz1 as [s [Hs [_ Hc1]]].
    rewrite (groupFree_captures text MONEY.SYMBOLS eq_refl _ _ Hs) in Hc1.
    apply star_space_inv in Hz2. destruct Hz2 as [Hc2 _].
    destruct (number_suffix_inv text _ _ _ _ Hin) as [n [Hc|[a' [b' [Hc Hsp]]]]];
      rewrite Hc, Hc2, Hc1 in Hcap; cbn [captures] in Hcap;
      simpl in Hname; decompose [or] Hname; subst; try contradiction;
      try discriminate Hcap.
    injection Hcap as <- <-. exact Hsp.
  - unfold MONEY.CODE_LAST in Hin.
    apply seq_inv in Hin. destruct Hin as [z1 [Hz1 Hin]].
    apply seq_inv in Hin. destruct Hin as [z2 [Hz2 Hin]].
    apply seq_inv in Hin. destruct Hin as [z3 [Hz3 Hin]].
    apply seq_inv in Hin. destruct Hin as [z4 [Hz4 Hin]].
    assert (Hcore : In z3 (rmatch
              (Seq (Group "num2" MONEY.NUMBER)
                 (Seq (Star Space) (Opt (Group "suf2" MONEY.SCALE))))
              text (mkState (index m) []))).
    { cbn [rmatch]. apply in_flat_map. exists z1. split; [exact Hz1|].
      apply in_flat_map. exists z2. split; [exact Hz2 | exact Hz3]. }
    apply star_space_inv in Hz4. destruct Hz4 as [Hc4 _].
    apply group_inv in Hin. destruct Hin as [c [Hcd [_ Hc5]]].
    rewrite (groupFree_captures text MONEY.CODES eq_refl _ _ Hcd), Hc4 in Hc5.
    destruct (number_suffix_inv text _ _ _ _ Hcore)
      as [n [Hc|[a' [b' [Hc Hsp]]]]];
      rewrite Hc5, Hc in Hcap; cbn [captures] in Hcap;
      simpl in Hname; decompose [or] Hname; subst; try contradiction;
      try discriminate Hcap.
    injection Hcap as <- <-. exact Hsp.
  - unfold MONEY.CODE_FIRST in Hin.
    apply seq_inv in Hin. destruct Hin as [z1 [Hz1 Hin]].
    apply seq_inv in Hin. destruct Hin as [z2 [Hz2 Hin]].
    apply group_inv in Hz1. destruct Hz1 as [s [Hs [_ Hc1]]].
    rewrite (groupFree_captures text MONEY.CODES eq_refl _ _ Hs) in Hc1.
    apply star_space_inv in Hz2. destruct Hz2 as [Hc2 _].
    destruct (number_suffix_inv text _ _ _ _ Hin) as [n [Hc|[a' [b' [Hc Hsp]]]]];
      rewrite Hc, Hc2, Hc1 in Hcap; cbn [captures] in Hcap;
      simpl in Hname; decompose [or] Hname; subst; try contradiction;
      try discriminate Hcap.
    injection Hcap as <- <-. exact Hsp.
Qed.

Lemma suffix_follows_white_space_witness :
  unitBefore (str "about 3 k eur") isSpace 8.
Proof.
  apply (suffix_follows_white_space (str "about 3 k eur") 0
           (mkResult 6 13 [("code1"%string, (10, 13)%nat);
                           ("suf2"%string, (8, 9)%nat);
                           ("num2"%string, (6, 7)%nat)])
           "suf2"%string 8 9);
    [reflexivity | right; left; reflexivity | reflexivity].
Defined.

(** The amounts of "$5k" and "$5 k". *)
Example attached_suffix_not_scaled :
  map (MONEY.amountFromMatch (str "$5k")) (moneyMatches (str "$5k")) = [Fin 5]
  /\ map (MONEY.amountFromMatch (str "$5 k")) (moneyMatches (str "$5 k"))
     = [Fin 5000].
Proof. split; reflexivity. Qed.

(** X9.  A captured scale suffix is always a key of [SCALE_MAP] once put in
    lower case, and [multiplier] returns the entry of that key: the fallback
    factor 1 of [multiplier] is never used for a captured suffix. *)
Theorem captured_suffix_has_scale (text : jsstring) (lastIndex : nat)
  (m : MatchResult) (name : string) (w : jsstring) :
  exec MONEY.regex text lastIndex = Some m ->
  In name suffixGroups ->
  group text m name = Some w ->
  In (toLowerCase w, MONEY.multiplier w) MONEY.SCALE_MAP.
Proof.
  intros H Hname Hw.
  destruct (exec_some text _ _ _ H) as [_ [_ [y [rest [Hy [_ Hg]]]]]].
  assert (Hin : In y (rmatch MONEY.regex text (mkState (index m) [])))
    by (rewrite Hy; left; reflexivity).
  clear Hy H. unfold group in Hw. rewrite Hg in Hw. clear Hg.
  pose proof (capture_from_start text MONEY.regex (index m) y name eq_refl Hin)
    as Hc.
  destruct (capture name (captures y)) as [[a b]|]; [|discriminate].
  injection Hw as <-.
  destruct Hc as [r' [Hr' Hword]]. cbn [fst snd] in Hword.
  assert (r' = MONEY.SCALE).
  { simpl in Hname. decompose [or] Hname; subst; try contradiction;
      cbn in Hr'; destruct Hr' as [<-|[]]; reflexivity. }
  subst r'. apply scale_word. exact Hword.
Qed.

Lemma captured_suffix_has_scale_witness :
  In (toLowerCase (str "K"), MONEY.multiplier (str "K")) MONEY.SCALE_MAP.
Proof.
  apply (captured_suffix_has_scale (str "3 K eur") 0
           (mkResult 0 7 [("code1"%string, (4, 7)%nat);
                          ("suf2"%string, (2, 3)%nat);
                          ("num2"%string, (0, 1)%nat)])
           "suf2"%string (str "K"));
    [reflexivity | right; left; reflexivity | reflexivity].
Defined.

(* ================================================================= *)
(** * More on the formatter *)

Module FormatterFacts.

(** A string without the code unit of "<". *)
Definition noLt (s : jsstring) : Prop := Forall (fun c => c <> 60%N) s.

Lemma noLt_app (s t : jsstring) : noLt s -> noLt t -> noLt (s ++ t).
Proof. intros Hs Ht. apply Forall_app. split; assumption. Qed.

Lemma noLt_uint (d : Decimal.uint) : noLt (str (NilEmpty.string_of_uint d)).
Proof.
  induction d; cbn [NilEmpty.string_of_uint]; unfold str;
    cbn [list_ascii_of_string map]; constructor;
    try exact IHd; try (vm_compute; discriminate).
Qed.

Lemma noLt_digitsOf (n : N) : noLt (digitsOf n).
Proof.
  unfold digitsOf, NilZero.string_of_uint.
  destruct (N.to_uint n) eqn:E; try (rewrite <- E; apply noLt_uint).
  repeat constructor. vm_compute. discriminate.
Qed.

Lemma dropTrailingZeros_cons (c : N) (s : jsstring) :
  dropTrailingZeros (c :: s) = dropTrailingZeros s
  \/ dropTrailingZeros (c :: s) = c :: s.
Proof.
  cbn [dropTrailingZeros].
  destruct c as [|p]; [right; reflexivity|].
  do 6 (try (destruct p as [p|p|]; try (right; reflexivity))).
  all: try (left; reflexivity); right; reflexivity.
Qed.

Lemma noLt_dropTrailingZeros (s : jsstring) :
  noLt s -> noLt (dropTrailingZeros s).
Proof.
  induction s as [|c s IH]; intros H; [exact H|].
  destruct (dropTrailingZeros_cons c s) as [E|E]; rewrite E; [|exact H].
  inversion H; subst. apply IH. assumption.
Qed.

Lemma noLt_integerToString (z : Z) : noLt (integerToString z).
Proof.
  unfold integerToString.
  assert (Hsign : noLt (if (z <? 0)%Z then str "-" else [])).
  { destruct (z <? 0)%Z; repeat constructor. vm_compute. discriminate. }
  set (digits := digitsOf (Z.to_N (shortestDecimal (Z.abs z)))).
  assert (Hd : noLt digits) by apply noLt_digitsOf.
  cbv zeta.
  destruct (Z.abs z <? 10 ^ 21)%Z; [apply noLt_app; assumption|].
  pose proof (noLt_digitsOf (N.of_nat (length digits - 1))) as He.
  assert (Hm : noLt (rev (dropTrailingZeros (rev digits)))).
  { apply Forall_rev, noLt_dropTrailingZeros, Forall_rev. exact Hd. }
  destruct (rev (dropTrailingZeros (rev digits)))
    as [|d [|d' more]]; [apply noLt_app; assumption| |].
  - inversion Hm; subst.
    repeat apply noLt_app; try assumption; repeat constructor;
      try assumption; vm_compute; discriminate.
  - inversion Hm as [|? ? Hd1 Hm']; subst.
    repeat apply noLt_app; try assumption; repeat constructor;
      try assumption; vm_compute; discriminate.
Qed.

Lemma noLt_numberToString (x : number) : noLt (numberToString x).
Proof.
  destruct x as [| | |q]; cbn [numberToString];
    [| | |apply noLt_integerToString];
    repeat constructor; vm_compute; discriminate.
Qed.

Lemma noLt_join (sep : jsstring) (parts : list jsstring) :
  noLt sep -> Forall noLt parts -> noLt (join sep parts).
Proof.
  intros Hsep. induction parts as [|p rest IH]; intros H; [constructor|].
  inversion H as [|? ? Hp Hrest]; subst. cbn [join].
  destruct rest; [exact Hp|].
  repeat apply noLt_app; auto.
Qed.

(** The loop only appends. *)
Lemma unitsLoop_appends (units : list timeUnit) : forall remaining parts,
  exists more, unitsLoop units remaining parts = parts ++ more.
Proof.
  induction units as [|unit rest IH]; intros remaining parts; cbn [unitsLoop].
  - exists []. rewrite app_nil_r. reflexivity.
  - destruct (3 <=? length parts)%nat;
      [exists []; rewrite app_nil_r; reflexivity|].
    destruct (leZero (minutes unit)); [apply IH|].
    destruct (gtZero _); [|apply IH].
    match goal with
    | |- exists _, unitsLoop _ ?r ?p = _ => destruct (IH r p) as [more E]
    end.
    rewrite E, <- app_assoc. eauto.
Qed.

(** A number that is at least one, divided by one, has a positive floor. *)
Lemma quotient_by_one (remaining : number) :
  atLeastOne remaining -> gtZero (floor (div remaining (Fin 1))) = true.
Proof.
  intros [->|[q [-> Hq]]]; [reflexivity|].
  apply atLeastOne_floor. unfold div.
  change (Qeq_bool 1 0) with false. cbv iota.
  apply round64_atLeastOne.
  setoid_replace (q / 1) with q by field. exact Hq.
Qed.

(** With a one-minute unit in the table, a remainder of a minute or more
    gives at least one part. *)
Lemma unitsLoop_nonempty (units : list timeUnit) (remaining : number) :
  (exists u, In u units /\ minutes u = Fin 1) ->
  atLeastOne remaining ->
  unitsLoop units remaining [] <> [].
Proof.
  intros Hu Hr. induction units as [|unit rest IH];
    [destruct Hu as [u [[] _]]|].
  cbn [unitsLoop length Nat.leb].
  destruct (leZero (minutes unit)) eqn:Eg.
  - apply IH. destruct Hu as [u [[<-|Hin] Hm]]; [|eauto].
    rewrite Hm in Eg. discriminate Eg.
  - destruct (gtZero (floor (div remaining (minutes unit)))) eqn:Ec.
    + match goal with
      | |- unitsLoop _ ?r ?p <> _ =>
          destruct (unitsLoop_appends rest r p) as [more E]
      end.
      rewrite E. discriminate.
    + apply IH. destruct Hu as [u [[<-|Hin] Hm]]; [|eauto].
      rewrite Hm, (quotient_by_one remaining Hr) in Ec. discriminate Ec.
Qed.

Lemma one_minute_unit (st : Settings) :
  exists u, In u (UNITS st) /\ minutes u = Fin 1.
Proof.
  exists (mkUnit (str "min") (Fin 1)). split; [|reflexivity].
  unfold UNITS. do 6 right. left. reflexivity.
Qed.

(** ** Below one minute *)

(** [total < 1], for the total as the script computes it. *)
Definition belowOne (total : number) : bool := ltb total (Fin 1).

Lemma belowOne_floor (total : number) :
  nonneg total -> belowOne total = true -> floor total = Fin 0.
Proof.
  intros [->|[q [-> Hq]]] H; [discriminate H|].
  unfold belowOne in H. cbn [ltb] in H. apply negb_true_iff in H.
  apply Qle_bool_false in H. cbn [floor].
  assert (E : Qfloor q = 0%Z).
  { pose proof (Qfloor_resp_le 0 q Hq) as H0. change (Qfloor 0) with 0%Z in H0.
    pose proof (Qfloor_le q) as H1.
    assert (H2 : inject_Z (Qfloor q) < inject_Z 1)
      by (change (inject_Z 1) with 1; lra).
    rewrite <- Zlt_Qlt in H2. lia. }
  rewrite E. reflexivity.
Qed.

Lemma not_belowOne_floor (total : number) :
  nonneg total -> belowOne total = false -> atLeastOne (floor total).
Proof.
  intros [->|[q [-> Hq]]] H; [left; reflexivity|].
  unfold belowOne in H. cbn [ltb] in H. apply negb_false_iff in H.
  apply Qle_bool_iff in H. right. cbn [floor].
  exists (inject_Z (Qfloor q)). split; [reflexivity|].
  pose proof (Qfloor_resp_le 1 q H) as Hf. change (Qfloor 1) with 1%Z in Hf.
  change 1 with (inject_Z 1). rewrite <- Zle_Qle. exact Hf.
Qed.

(** The string returned for a valid amount and rate is "<1m" exactly when
    the computed total is below one minute, whatever the separator of the
    parts. *)
Lemma sentinel_iff (sep : jsstring) (st : Settings) (a r : Q) :
  noLt sep -> 0 < a -> 0 < r ->
  (match timeParts st (Fin a) (Fin r) with
   | None => None
   | Some parts =>
       if (length parts =? 0)%nat then Some (str "<1m")
       else Some (join sep (map partString parts))
   end = Some (str "<1m")
   <-> belowOne (totalMinutes (Fin a) (Fin r)) = true).
Proof.
  intros Hsep Ha Hr.
  rewrite (timeParts_valid st a r Ha Hr).
  pose proof (totalMinutes_nonneg a r Ha Hr) as Hnn. split.
  - intros H. destruct (belowOne _) eqn:Eb; [reflexivity|]. exfalso.
    pose proof (unitsLoop_nonempty (UNITS st) _ (one_minute_unit st)
                  (not_belowOne_floor _ Hnn Eb)) as Hne.
    pose proof (unitsLoop_units (fun u => noLt (short u)) (UNITS st)
                  (floor (totalMinutes (Fin a) (Fin r))) []) as Hshorts.
    destruct (unitsLoop (UNITS st) _ []) as [|p ps]; [congruence|].
    cbn [length Nat.eqb] in H.
    assert (Hno : noLt (join sep (map partString (p :: ps)))).
    { apply noLt_join; [exact Hsep|].
      apply Forall_map.
      assert (Hall : Forall (fun p => noLt (short (unit_of p))) (p :: ps)).
      { apply Hshorts; [|constructor].
        repeat constructor; vm_compute; discriminate. }
      revert Hall. apply Forall_impl. intros q Hq.
      apply noLt_app; [apply noLt_numberToString | exact Hq]. }
    assert (E : join sep (map partString (p :: ps)) = str "<1m")
      by congruence.
    rewrite E in Hno. inversion Hno as [|? ? Hc _]. apply Hc. reflexivity.
  - intros Hlt. rewrite (belowOne_floor _ Hnn Hlt), unitsLoop_done.
    reflexivity.
Qed.

(** ** A run without rounding, to the last minute *)

Lemma unitsLoop_finished (units : list timeUnit) : forall r parts,
  r == 0 -> unitsLoop units (Fin r) parts = parts.
Proof.
  induction units as [|unit rest IH]; intros r parts Hr;
    cbn [unitsLoop]; [reflexivity|].
  destruct (3 <=? length parts)%nat; [reflexivity|].
  destruct (leZero (minutes unit)) eqn:E; [apply IH; exact Hr|].
  assert (Ec : gtZero (floor (div (Fin r) (minutes unit))) = false).
  { destruct (minutes unit) as [| | |m]; try reflexivity.
    cbn [leZero] in E. apply Qle_bool_false in E.
    unfold div. rewrite (positive_not_zero m E).
    rewrite (round64_zero (r / m)) by (rewrite Hr; unfold Qdiv; ring).
    reflexivity. }
  rewrite Ec. apply IH. exact Hr.
Qed.

Lemma integral_floor (q : Q) : integral q -> inject_Z (Qfloor q) == q.
Proof.
  intros [z Hz]. rewrite (Qfloor_comp _ _ Hz), Qfloor_Z. symmetry. exact Hz.
Qed.

(** When a run without rounding goes through a one-minute unit on a table of
    whole minute values and ends with fewer than three parts, the parts
    account for all of [start]. *)
Lemma exactSteps_exact (units : list timeUnit) : forall start r parts,
  loopInv start r parts ->
  Forall integralUnit units ->
  integral r ->
  (exists u, In u units /\ minutes u = Fin 1) ->
  exactSteps units (Fin r) (length parts) = true ->
  (length (unitsLoop units (Fin r) parts) < 3)%nat ->
  partsMinutes (unitsLoop units (Fin r) parts) == start.
Proof.
  induction units as [|unit rest IH];
    intros start r parts Hinv Hunits Hint Hu Hex Hlen;
    [destruct Hu as [u [[] _]]|].
  cbn [unitsLoop exactSteps] in *.
  inversion Hunits as [|? ? Hunit Hrest]; subst.
  destruct (3 <=? length parts)%nat eqn:E3;
    [apply Nat.leb_le in E3; lia|].
  destruct (leZero (minutes unit)) eqn:Eg.
  - apply (IH start r parts); try assumption.
    destruct Hu as [u [[<-|Hin] Hm]]; [|eauto].
    rewrite Hm in Eg. discriminate Eg.
  - destruct (minutes unit) as [| | |m] eqn:Eunit; try discriminate.
    cbn [leZero] in Eg. apply Qle_bool_false in Eg.
    apply andb_true_iff in Hex. destruct Hex as [Hcount Hex].
    apply sameValue_inv in Hcount. destruct Hcount as [c [Ec Hc]].
    rewrite Ec in *.
    destruct (gtZero (Fin c)) eqn:Hpos.
    + apply andb_true_iff in Hex. destruct Hex as [Hex Hsteps].
      apply andb_true_iff in Hex. destruct Hex as [Hprod Hnext].
      apply sameValue_inv in Hprod, Hnext.
      destruct Hprod as [p [Ep Hp]]. destruct Hnext as [r2 [Er2 Hr2]].
      cbn [valueOf] in *. rewrite Er2 in *.
      cbn [gtZero] in Hpos. apply negb_true_iff in Hpos.
      apply Qle_bool_false in Hpos.
      assert (Hinv' : loopInv start r2 (parts ++ [mkPart (Fin c) unit]))
        by (eapply loopInv_step; eauto).
      destruct Hu as [u [[<-|Hin] Hm]].
      * (* the one-minute unit: nothing remains after it *)
        rewrite Eunit in Hm. injection Hm as Hm.
        assert (Hzero : r2 == 0).
        { rewrite Hr2, Hc, Hm.
          setoid_replace (r / 1) with r by field.
          rewrite (integral_floor r Hint). ring. }
        rewrite (unitsLoop_finished rest r2 _ Hzero) in *.
        pose proof (inv_sum _ _ _ Hinv') as Hsum.
        rewrite Hzero in Hsum. rewrite <- Hsum. ring.
      * assert (Hl : length (parts ++ [mkPart (Fin c) unit])
                     = S (length parts))
          by (rewrite length_app; simpl; lia).
        rewrite <- Hl in Hsteps.
        apply IH; try assumption; [|eauto].
        destruct Hunit as [zm Hzm]. rewrite Eunit in Hzm.
        injection Hzm as Hzm.
        eapply integral_step; [exact Hint | | | exact Hr2].
        -- exists zm. rewrite Hzm. reflexivity.
        -- exists (Qfloor (r / m)). exact Hc.
    + destruct Hu as [u [[<-|Hin] Hm]].
      * rewrite Eunit in Hm. injection Hm as Hm.
        assert (Hzero : r == 0).
        { pose proof (inv_nonneg _ _ _ Hinv) as Hnn.
          cbn [gtZero] in Hpos. apply negb_false_iff in Hpos.
          apply Qle_bool_iff in Hpos.
          assert (Hcr : c == r).
          { rewrite Hc, Hm. setoid_replace (r / 1) with r by field.
            apply integral_floor. exact Hint. }
          rewrite Hcr in Hpos. apply Qle_antisym; assumption. }
        rewrite (unitsLoop_finished rest r _ Hzero) in *.
        pose proof (inv_sum _ _ _ Hinv) as Hsum.
        rewrite Hzero in Hsum. rewrite <- Hsum. ring.
      * apply (IH start r parts); try assumption. eauto.
Qed.

(** ** The first revision *)







End FormatterFacts.
Import FormatterFacts.

(** The binary64 numbers written 0.03 and 1.8. *)
Definition amount003 : Q := 1080863910568919 # 36028797018963968.
Definition rate18 : Q := 8106479329266893 # 4503599627370496.

(** The total that decides is the computed one.  The binary64 numbers
    written 0.03 and 1.8 give a true total a little below one minute and a
    computed total of one minute, and the string is "1min". *)
Example sentinel_follows_computed_total :
  amount003 / rate18 * 60 < 1
  /\ totalMinutes (Fin amount003) (Fin rate18) = Fin 1
  /\ belowOne (totalMinutes (Fin amount003) (Fin rate18)) = false
  /\ formatTimeFromMoney DEFAULT (Fin amount003) (Fin rate18)
     = Some (str "1min").
Proof. repeat split; vm_compute; reflexivity. Qed.

(** X10.  For a finite positive amount and rate, [formatTimeFromMoney]
    returns the string "<1m" exactly when the total of minutes it computes,
    [(amount / hourlyRate) * 60] in binary64, is below one, whatever the work
    schedule in the settings. *)
Theorem sentinel_iff_below_minute (st : Settings) (a r : Q) :
  0 < a -> 0 < r ->
  (formatTimeFromMoney st (Fin a) (Fin r) = Some (str "<1m")
   <-> belowOne (totalMinutes (Fin a) (Fin r)) = true).
Proof.
  intros Ha Hr. unfold formatTimeFromMoney.
  apply sentinel_iff; [|assumption|assumption].
  repeat constructor; vm_compute; discriminate.
Qed.

Lemma sentinel_iff_below_minute_witness :
  formatTimeFromMoney DEFAULT (Fin tenth) (Fin 15) = Some (str "<1m")
  <-> belowOne (totalMinutes (Fin tenth) (Fin 15)) = true.
Proof.
  apply (sentinel_iff_below_minute DEFAULT tenth 15); reflexivity.
Defined.

(** X11.  The revision that joins the parts without a separator returns
    "<1m" under the same condition: exactly when the total of minutes
    computed for a finite positive amount at a finite positive rate is below
    one. *)
Theorem compact_sentinel_iff_below_minute (st : Settings) (a r : Q) :
  0 < a -> 0 < r ->
  (CompactRevision.formatTimeFromMoney st (Fin a) (Fin r) = Some (str "<1m")
   <-> belowOne (totalMinutes (Fin a) (Fin r)) = true).
Proof.
  intros Ha Hr. unfold CompactRevision.formatTimeFromMoney.
  apply sentinel_iff; [constructor | assumption | assumption].
Qed.

Lemma compact_sentinel_iff_below_minute_witness :
  CompactRevision.formatTimeFromMoney DEFAULT (Fin amount003) (Fin 15)
    = Some (str "<1m")
  <-> belowOne (totalMinutes (Fin amount003) (Fin 15)) = true.
Proof.
  apply (compact_sentinel_iff_below_minute DEFAULT amount003 15); reflexivity.
Defined.

(** X12.  When the run goes through without a rounding error that matters,
    every entry of the unit table is a whole number of minutes and the
    formatter emits fewer than three parts, nothing is truncated: the parts
    add up to the whole minutes of the true total. *)
Theorem fewer_than_three_parts_exact (st : Settings) (a r : Q)
  (parts : list part) :
  0 < a -> 0 < r ->
  Forall integralUnit (UNITS st) ->
  exactRun st (Fin a) (Fin r) = true ->
  timeParts st (Fin a) (Fin r) = Some parts ->
  (length parts < 3)%nat ->
  partsMinutes parts == inject_Z (Qfloor (a / r * 60)).
Proof.
  intros Ha Hr Hunits Hexact Hparts Hlen.
  rewrite (timeParts_valid st a r Ha Hr) in Hparts.
  unfold exactRun in Hexact. apply andb_true_iff in Hexact.
  destruct Hexact as [Hfloor Hsteps].
  apply sameValue_inv in Hfloor. destruct Hfloor as [f [Ef Hf]].
  rewrite Ef in *.
  assert (E : unitsLoop (UNITS st) (Fin f) [] = parts) by congruence.
  rewrite <- E in *. rewrite <- Hf.
  assert (Hf0 : 0 <= f).
  { rewrite Hf. change 0 with (inject_Z 0). rewrite <- Zle_Qle.
    change 0%Z with (Qfloor 0). apply Qfloor_resp_le.
    apply Qmult_le_0_compat; [|discriminate].
    apply Qle_shift_div_l; [exact Hr|]. rewrite Qmult_0_l.
    apply Qlt_le_weak. exact Ha. }
  apply exactSteps_exact.
  - apply loopInv_init. exact Hf0.
  - exact Hunits.
  - exists (Qfloor (a / r * 60)). exact Hf.
  - apply one_minute_unit.
  - exact Hsteps.
  - exact Hlen.
Qed.

Lemma fewer_than_three_parts_exact_witness :
  partsMinutes (unitsLoop (UNITS DEFAULT)
                  (floor (totalMinutes (Fin 40) (Fin 15))) [])
  == inject_Z (Qfloor (40 / 15 * 60)).
Proof.
  apply (fewer_than_three_parts_exact DEFAULT 40 15);
    [reflexivity | reflexivity | exact default_units_integral
    | vm_compute; reflexivity | reflexivity | vm_compute; lia].
Defined.



Import StructuredPriceFacts.
(* ================================================================= *)
(** * More on structured prices and on repeated passes *)

Module PriceFacts.

Local Open Scope nat_scope.

Lemma eqb_eq (s t : jsstring) : JsString.eqb s t = true <-> s = t.
Proof.
  unfold JsString.eqb. destruct (list_eq_dec N.eq_dec s t);
    split; congruence.
Qed.

Lemma find_setAttribute_other (name value other : jsstring) (a : attrs) :
  name <> other ->
  find (fun e => JsString.eqb (fst e) other) (setAttribute name value a)
  = find (fun e => JsString.eqb (fst e) other) a.
Proof.
  intros Hne. induction a as [|e a IH]; cbn [setAttribute find fst].
  - destruct (JsString.eqb name other) eqn:E; [|reflexivity].
    apply eqb_eq in E. contradiction.
  - destruct (JsString.eqb (fst e) name) eqn:E; cbn [find fst].
    + apply eqb_eq in E.
      destruct (JsString.eqb name other) eqn:E1;
        [apply eqb_eq in E1; contradiction|].
      destruct (JsString.eqb (fst e) other) eqn:E2; [|reflexivity].
      apply eqb_eq in E2. congruence.
    + rewrite IH. reflexivity.
Qed.

(** Setting the processed marker does not change the classes. *)
Lemma hasClass_marked (cls : jsstring) (a : attrs) :
  hasClass cls (setAttribute PROCESSED (str "true") a) = hasClass cls a.
Proof.
  unfold hasClass, getAttribute.
  rewrite find_setAttribute_other; [reflexivity | discriminate].
Qed.

(** The ways [processStructuredPrice] can end. *)
Lemma processStructuredPrice_cases (st : Settings) (anc : ancestors) (el : node) :
  processStructuredPrice st anc el = el
  \/ exists tag a children amount t,
       el = Element tag a children
       /\ closestAttr PROCESSED ((tag, a) :: anc) = false
       /\ priceAmount el = Some amount
       /\ formatTimeFromMoney st amount (hourlyRate st) = Some t
       /\ t <> []
       /\ querySelectorClass (str "mt-annotation") el = None
       /\ processStructuredPrice st anc el
          = Element tag (setAttribute PROCESSED (str "true") a)
              (children ++ [annotationSpan (str " (~" ++ t ++ str ")")]).
Proof.
  destruct el as [v|tag a children]; [left; reflexivity|].
  unfold processStructuredPrice.
  destruct (closestAttr PROCESSED ((tag, a) :: anc)) eqn:Hc; [left; reflexivity|].
  destruct (priceAmount (Element tag a children)) as [amount|] eqn:Ha;
    [|left; reflexivity].
  destruct (formatTimeFromMoney st amount (hourlyRate st)) as [[|c t]|] eqn:Ht;
    cbn [truthy negb]; try (left; reflexivity).
  destruct (querySelectorClass (str "mt-annotation") (Element tag a children))
    eqn:Hq; [left; reflexivity|].
  right. exists tag, a, children, amount, (c :: t).
  repeat split; try assumption; try reflexivity. discriminate.
Qed.

(** The annotation is all that [processStructuredPrice] adds. *)
Lemma processStructuredPrice_source (st : Settings) (anc : ancestors)
  (el : node) :
  sourceText (processStructuredPrice st anc el) = sourceText el.
Proof.
  destruct (processStructuredPrice_cases st anc el)
    as [E|[tag [a [children [amount [t [Hel [_ [_ [_ [_ [_ E]]]]]]]]]]]];
    rewrite E; [reflexivity|]. subst el.
  cbn [sourceText]. rewrite hasClass_marked.
  destruct (hasClass ANNOTATION a); [reflexivity|].
  rewrite flat_map_app. cbn [flat_map]. unfold annotationSpan.
  cbn [sourceText].
  change (hasClass ANNOTATION [(str "class", str "mt-annotation")]) with true.
  cbv iota. rewrite !app_nil_r. reflexivity.
Qed.

End PriceFacts.
Import PriceFacts.

(** X14.  [processStructuredPrice] is idempotent: a second call on its result
    changes nothing. *)
Theorem structured_price_idempotent (st : Settings) (anc : ancestors)
  (el : node) :
  processStructuredPrice st anc (processStructuredPrice st anc el)
  = processStructuredPrice st anc el.
Proof. apply processStructuredPrice_again. Qed.

(** X15.  A price element that [processStructuredPrice] has annotated is
    left as it is by every later call, also with other settings and wherever
    the element stands: the annotation is not refreshed when the hourly rate
    changes. *)
Theorem structured_price_not_refreshed (st st' : Settings)
  (anc anc' : ancestors) (el : node) :
  processStructuredPrice st anc el <> el ->
  processStructuredPrice st' anc' (processStructuredPrice st anc el)
  = processStructuredPrice st anc el.
Proof.
  intros Hne.
  destruct (processStructuredPrice_cases st anc el)
    as [E|[tag [a [children [amount [t [_ [_ [_ [_ [_ [_ E]]]]]]]]]]]];
    [contradiction|].
  rewrite E. unfold processStructuredPrice.
  unfold closestAttr. cbn [existsb snd].
  rewrite hasAttribute_setAttribute. reflexivity.
Qed.

(** The settings of the default schedule at a rate of 30. *)
Definition RATE30 : Settings :=
  {| hourlyRate := Fin 30; displayMode := str "inline";
     hoursPerDay := Fin 8; daysPerWeek := Fin 5 |}.

Lemma structured_price_not_refreshed_witness :
  processStructuredPrice RATE30 [(str "BODY", [])]
    (processStructuredPrice DEFAULT [] price4999)
  = processStructuredPrice DEFAULT [] price4999.
Proof.
  apply (structured_price_not_refreshed DEFAULT RATE30 [] [(str "BODY", [])]
           price4999).
  vm_compute. discriminate.
Defined.

(** X16.  [processStructuredPrice] only ever appends: the text of the element
    read without annotation spans stays as it was, and the text content is
    either unchanged or extended by " (~t)", where [t] is the non-empty
    string of [formatTimeFromMoney] for the parsed amount. *)
Theorem structured_price_appends (st : Settings) (anc : ancestors) (el : node) :
  sourceText (processStructuredPrice st anc el) = sourceText el
  /\ (processStructuredPrice st anc el = el
      \/ exists amount t,
           priceAmount el = Some amount
           /\ formatTimeFromMoney st amount (hourlyRate st) = Some t
           /\ t <> []
           /\ textContent (processStructuredPrice st anc el)
              = textContent el ++ str " (~" ++ t ++ str ")").
Proof.
  split; [apply processStructuredPrice_source|].
  destruct (processStructuredPrice_cases st anc el)
    as [E|[tag [a [children [amount [t [Hel [_ [Ha [Ht [Hne [_ E]]]]]]]]]]]];
    [left; exact E|].
  right. exists amount, t. repeat split; try assumption.
  rewrite E. subst el. cbn [textContent]. rewrite flat_map_app. f_equal.
  cbn. rewrite !app_nil_r. reflexivity.
Qed.

(** X17.  A wrapper that [buildAnnotatedFragment] has made is left as it is
    by every later scan, also with other settings and wherever it stands:
    annotations in the text are not refreshed when the hourly rate or the
    display mode changes. *)
Theorem wrappers_not_refreshed (st st' : Settings) (anc : ancestors)
  (text tag : jsstring) (a : attrs) (children : list node) :
  In (Element tag a children) (buildAnnotatedFragment st text) ->
  scanNode st' anc (Element tag a children) = ([Element tag a children], []).
Proof.
  intros Hin. apply scan_wrapper; [|exact I].
  pose proof (fragment_nodes st text) as H. rewrite Forall_forall in H.
  exact (H _ Hin).
Qed.

Lemma wrappers_not_refreshed_witness :
  let wrapper :=
    Element (str "SPAN") wrapperAttrs
      [Text (str "$5 "); annotationSpan (str "(20min) ")] in
  scanNode RATE30 [(str "P", [])] wrapper = ([wrapper], []).
Proof.
  intro wrapper.
  apply (wrappers_not_refreshed DEFAULT RATE30 [(str "P", [])]
           (str "Pay $5 now") (str "SPAN") wrapperAttrs
           [Text (str "$5 "); annotationSpan (str "(20min) ")]).
  vm_compute. right. left. reflexivity.
Defined.

(* ================================================================= *)
(** * Loading the settings *)

(** [loadSettings]: the callback given to [chrome.storage.sync.get], as a
    function from the stored items to the new value of [settings].  Every
    field of [settings] is assigned, so the value before the call plays no
    part. *)
Module Loader.

(** A stored value.  Storage holds what JSON can carry; an array or object
    is kept by the string [Number] converts it through. *)
Inductive jsvalue : Type :=
| Undefined
| Null
| Boolean (b : bool)
| Num (x : number)
| Str (s : jsstring)
| Obj (toString : jsstring).

(** The items handed to the callback: own properties by name. *)
Definition items : Type := list (string * jsvalue).

(** [res.key]: [undefined] for a key that is not stored. *)
Definition get (key : string) (res : items) : jsvalue :=
  match find (fun e => String.eqb (fst e) key) res with
  | Some e => snd e
  | None => Undefined
  end.

(** [ToBoolean]. *)
Definition truthy (v : jsvalue) : bool :=
  match v with
  | Undefined | Null => false
  | Boolean b => b
  | Num (Fin q) => negb (Qeq_bool q 0)
  | Num NaN => false
  | Num _ => true
  | Str s => match s with [] => false | _ => true end
  | Obj _ => true
  end.

(** [x > 0]; any comparison with [NaN] is false. *)
Definition gtZero (x : number) : bool :=
  match x with
  | PosInf => true
  | Fin q => negb (Qle_bool q 0)
  | _ => false
  end.

Record settings : Type := mkSettings {
  hourlyRate : number;
  currencySymbol : jsvalue;
  displayMode : jsvalue;
  hoursPerWeek : number;
  hoursPerDay : number;
  daysPerWeek : number
}.

Definition DEFAULT : settings :=
  {| hourlyRate := Fin 15;
     currencySymbol := Str [163%N];
     displayMode := Str (str "inline");
     hoursPerWeek := Fin 40;
     hoursPerDay := Fin 8;
     daysPerWeek := Fin 5 |}.

Section Load.

(** [Number(s)] on a string is the conversion of the language; the script
    relies on nothing but its result. *)
Variable stringToNumber : jsstring -> number.

(** [Number(v)]. *)
Definition Number (v : jsvalue) : number :=
  match v with
  | Undefined => NaN
  | Null => Fin 0
  | Boolean b => if b then Fin 1 else Fin 0
  | Num x => x
  | Str s => stringToNumber s
  | Obj s => stringToNumber s
  end.

(** [(v && Number(v) > 0) ? Number(v) : fallback] *)
Definition positiveOr (v : jsvalue) (fallback : number) : number :=
  if truthy v && gtZero (Number v) then Number v else fallback.

(** [v || fallback] *)
Definition valueOr (v fallback : jsvalue) : jsvalue :=
  if truthy v then v else fallback.

Definition loadSettings (res : items) : settings :=
  {| hourlyRate := positiveOr (get "hourlyRate" res) (hourlyRate DEFAULT);
     currencySymbol :=
       valueOr (get "currencySymbol" res) (currencySymbol DEFAULT);
     displayMode := valueOr (get "displayMode" res) (displayMode DEFAULT);
     hoursPerWeek := positiveOr (get "hoursPerWeek" res) (hoursPerWeek DEFAULT);
     hoursPerDay := positiveOr (get "hoursPerDay" res) (hoursPerDay DEFAULT);
     daysPerWeek := positiveOr (get "daysPerWeek" res) (daysPerWeek DEFAULT) |}.

Lemma positiveOr_positive (v : jsvalue) (fallback : number) :
  gtZero fallback = true -> gtZero (positiveOr v fallback) = true.
Proof.
  intros H. unfold positiveOr.
  destruct (truthy v); [|exact H].
  destruct (gtZero (Number v)) eqn:E; [exact E | exact H].
Qed.

Lemma positiveOr_kept (v : jsvalue) (fallback : number) :
  positiveOr v fallback = Number v \/ positiveOr v fallback = fallback.
Proof.
  unfold positiveOr. destruct (truthy v && gtZero (Number v)); auto.
Qed.

Lemma gtZero_truthy (x : number) : gtZero x = true -> truthy (Num x) = true.
Proof.
  destruct x as [| | |q]; try discriminate; [reflexivity|].
  cbn [gtZero truthy]. intros H. apply negb_true_iff in H.
  apply negb_true_iff. destruct (Qeq_bool q 0) eqn:E; [|reflexivity].
  apply Qeq_bool_iff in E.
  assert (Hle : Qle_bool q 0 = true)
    by (apply Qle_bool_iff; rewrite E; apply Qle_refl).
  congruence.
Qed.

Lemma valueOr_truthy (v fallback : jsvalue) :
  truthy fallback = true -> truthy (valueOr v fallback) = true.
Proof.
  intros H. unfold valueOr. destruct (truthy v) eqn:E; [exact E | exact H].
Qed.

Lemma loadSettings_gtZero (res : items) :
  gtZero (hourlyRate (loadSettings res)) = true
  /\ gtZero (hoursPerWeek (loadSettings res)) = true
  /\ gtZero (hoursPerDay (loadSettings res)) = true
  /\ gtZero (daysPerWeek (loadSettings res)) = true.
Proof.
  unfold loadSettings.
  cbn [hourlyRate hoursPerWeek hoursPerDay daysPerWeek].
  repeat split; apply positiveOr_positive; reflexivity.
Qed.

End Load.

End Loader.

(** The settings the scan reads, when the display mode is a string. *)
Definition scanSettings (s : Loader.settings) : option Settings :=
  match Loader.displayMode s with
  | Loader.Str mode =>
      Some {| hourlyRate := Loader.hourlyRate s;
              displayMode := mode;
              hoursPerDay := Loader.hoursPerDay s;
              daysPerWeek := Loader.daysPerWeek s |}
  | _ => None
  end.

(** ** The unit table of a loaded schedule *)

Module TableFacts.

Local Open Scope Q_scope.

Lemma gtZero_cases (x : number) :
  Loader.gtZero x = true -> x = PosInf \/ exists q, x = Fin q /\ 0 < q.
Proof.
  destruct x as [| | |q]; try discriminate; [left; reflexivity|].
  cbn [Loader.gtZero]. intros H. apply negb_true_iff in H.
  right. exists q. split; [reflexivity | apply Qle_bool_false; exact H].
Qed.

Lemma mul_nonneg (x : number) (k : Q) :
  nonneg x -> 0 < k -> nonneg (mul x (Fin k)).
Proof.
  intros [->|[q [-> Hq]]] Hk; cbn [mul].
  - rewrite (positive_not_zero k Hk). unfold infinityOf.
    rewrite (proj2 (Qle_bool_false k 0) Hk). left. reflexivity.
  - apply round64_nonneg. apply Qmult_le_0_compat;
      [exact Hq | apply Qlt_le_weak; exact Hk].
Qed.

Lemma one_positive (b : Q) : 1 <= b -> 0 < b.
Proof. intros H. apply Qlt_le_trans with 1; [reflexivity | exact H]. Qed.

Lemma mul_atLeastOne (x y : number) :
  atLeastOne x -> atLeastOne y -> atLeastOne (mul x y).
Proof.
  intros [->|[a [-> Ha]]] [->|[b [-> Hb]]]; cbn [mul].
  - left. reflexivity.
  - rewrite (positive_not_zero b (one_positive b Hb)). unfold infinityOf.
    rewrite (proj2 (Qle_bool_false b 0) (one_positive b Hb)).
    left. reflexivity.
  - rewrite (positive_not_zero a (one_positive a Ha)). unfold infinityOf.
    rewrite (proj2 (Qle_bool_false a 0) (one_positive a Ha)).
    left. reflexivity.
  - apply round64_atLeastOne.
    setoid_replace 1 with (1 * 1) by ring.
    apply Qle_trans with (a * 1).
    + apply Qmult_le_compat_r; [exact Ha | discriminate].
    + rewrite !(Qmult_comm a). apply Qmult_le_compat_r;
        [exact Hb | apply Qlt_le_weak, one_positive; exact Ha].
Qed.

Lemma atLeastOne_leZero (x : number) : atLeastOne x -> leZero x = false.
Proof.
  intros [->|[q [-> Hq]]]; [reflexivity|].
  apply Qle_bool_false, one_positive. exact Hq.
Qed.

Lemma atLeastOne_nat (z : positive) : atLeastOne (Fin (inject_Z (Zpos z))).
Proof.
  right. eexists. split; [reflexivity|].
  change 1 with (inject_Z 1). rewrite <- Zle_Qle. lia.
Qed.

(** The weeks of a month, [52 / 12] as computed. *)
Lemma weeks_of_month :
  exists k, div (Fin 52) (Fin 12) = Fin k /\ 1 <= k.
Proof.
  eexists. split; [vm_compute; reflexivity | vm_compute; discriminate].
Qed.

(** With a finite number of days a week, no entry of the table is negative
    or [NaN]. *)
Lemma units_nonneg (st : Settings) :
  Loader.gtZero (hoursPerDay st) = true ->
  Loader.gtZero (daysPerWeek st) = true ->
  isFinite (daysPerWeek st) = true ->
  Forall (fun u => nonneg (minutes u)) (UNITS st).
Proof.
  intros Hh Hd Hfin.
  destruct (gtZero_cases _ Hd) as [E|[d [Ed Hdpos]]];
    [rewrite E in Hfin; discriminate Hfin|].
  assert (Hday : nonneg (workMinutesPerDay st)).
  { unfold workMinutesPerDay. apply mul_nonneg; [|reflexivity].
    destruct (gtZero_cases _ Hh) as [->|[h [-> Hhpos]]];
      [left; reflexivity|].
    right. exists h. split; [reflexivity | apply Qlt_le_weak; exact Hhpos]. }
  assert (Hweek : nonneg (workMinutesPerWeek st)).
  { unfold workMinutesPerWeek. rewrite Ed. apply mul_nonneg; assumption. }
  assert (Hyear : nonneg (workMinutesPerYear st)).
  { unfold workMinutesPerYear. apply mul_nonneg; [assumption | reflexivity]. }
  destruct weeks_of_month as [k [Ek Hk]].
  unfold UNITS. repeat apply Forall_cons; try apply Forall_nil; cbn [minutes].
  - apply mul_nonneg; [assumption | reflexivity].
  - assumption.
  - unfold workMinutesPerMonth. rewrite Ek.
    apply mul_nonneg; [assumption | apply one_positive; exact Hk].
  - assumption.
  - assumption.
  - right. exists 60. split; [reflexivity | discriminate].
  - right. exists 1. split; [reflexivity | discriminate].
Qed.

(** With at least an hour a day and a day a week, every entry of the table is
    a minute or more. *)
Lemma units_atLeastOne (st : Settings) :
  atLeastOne (hoursPerDay st) -> atLeastOne (daysPerWeek st) ->
  Forall (fun u => atLeastOne (minutes u)) (UNITS st).
Proof.
  intros Hh Hd.
  assert (Hday : atLeastOne (workMinutesPerDay st)).
  { unfold workMinutesPerDay. apply mul_atLeastOne;
      [assumption | apply (atLeastOne_nat 60)]. }
  assert (Hweek : atLeastOne (workMinutesPerWeek st)).
  { unfold workMinutesPerWeek. apply mul_atLeastOne; assumption. }
  assert (Hyear : atLeastOne (workMinutesPerYear st)).
  { unfold workMinutesPerYear. apply mul_atLeastOne;
      [assumption | apply (atLeastOne_nat 52)]. }
  destruct weeks_of_month as [k [Ek Hk]].
  unfold UNITS. repeat apply Forall_cons; try apply Forall_nil; cbn [minutes].
  - apply mul_atLeastOne; [assumption | apply (atLeastOne_nat 100)].
  - assumption.
  - unfold workMinutesPerMonth. rewrite Ek.
    apply mul_atLeastOne; [assumption|].
    right. exists k. split; [reflexivity | exact Hk].
  - assumption.
  - assumption.
  - apply (atLeastOne_nat 60).
  - apply (atLeastOne_nat 1).
Qed.

End TableFacts.

(** X18.  Whatever the storage holds and however strings convert to numbers,
    the four numeric settings are greater than zero after [loadSettings]
    (never zero, negative or [NaN]), and the currency symbol and the display
    mode are truthy. *)
Theorem loadSettings_positive (stringToNumber : jsstring -> number)
  (res : Loader.items) :
  let s := Loader.loadSettings stringToNumber res in
  Loader.gtZero (Loader.hourlyRate s) = true
  /\ Loader.gtZero (Loader.hoursPerWeek s) = true
  /\ Loader.gtZero (Loader.hoursPerDay s) = true
  /\ Loader.gtZero (Loader.daysPerWeek s) = true
  /\ Loader.truthy (Loader.currencySymbol s) = true
  /\ Loader.truthy (Loader.displayMode s) = true.
Proof.
  cbv zeta.
  destruct (Loader.loadSettings_gtZero stringToNumber res)
    as [H1 [H2 [H3 H4]]].
  repeat split; try assumption;
    unfold Loader.loadSettings;
    cbn [Loader.currencySymbol Loader.displayMode];
    apply Loader.valueOr_truthy; reflexivity.
Qed.

(** The numeric settings: key, field and default. *)
Definition numericSettings
  : list (string * (Loader.settings -> number) * number) :=
  [ ("hourlyRate"%string, Loader.hourlyRate, Fin 15);
    ("hoursPerWeek"%string, Loader.hoursPerWeek, Fin 40);
    ("hoursPerDay"%string, Loader.hoursPerDay, Fin 8);
    ("daysPerWeek"%string, Loader.daysPerWeek, Fin 5) ].

(** X19.  For each numeric setting: a stored number greater than zero is
    loaded as it is; a key that is missing, or holds zero, a negative number,
    [NaN], [null], [false] or the empty string, gives the default. *)
Theorem loadSettings_number_or_default (stringToNumber : jsstring -> number)
  (res : Loader.items) (key : string) (field : Loader.settings -> number)
  (fallback x : number) :
  In (key, field, fallback) numericSettings ->
  (Loader.get key res = Loader.Num x -> Loader.gtZero x = true ->
   field (Loader.loadSettings stringToNumber res) = x)
  /\ (Loader.truthy (Loader.get key res) = false
      \/ Loader.get key res = Loader.Num x /\ Loader.gtZero x = false ->
      field (Loader.loadSettings stringToNumber res) = fallback).
Proof.
  intros Hin.
  assert (Hgen : forall v,
    (v = Loader.Num x -> Loader.gtZero x = true ->
     Loader.positiveOr stringToNumber v fallback = x)
    /\ (Loader.truthy v = false
        \/ v = Loader.Num x /\ Loader.gtZero x = false ->
        Loader.positiveOr stringToNumber v fallback = fallback)).
  { intros v. unfold Loader.positiveOr. split.
    - intros -> Hx. cbn [Loader.Number].
      rewrite (Loader.gtZero_truthy x Hx), Hx. reflexivity.
    - intros [H|[-> Hx]].
      + rewrite H. reflexivity.
      + cbn [Loader.Number]. rewrite Hx, andb_false_r. reflexivity. }
  simpl in Hin. decompose [or] Hin; try contradiction;
    match goal with E : (_, _, _) = (_, _, _) |- _ =>
      injection E as <- <- <- end;
    apply Hgen.
Qed.

Lemma loadSettings_number_or_default_witness :
  (Loader.get "hoursPerDay"
     [("hoursPerDay"%string, Loader.Num (Fin (15 # 2)))]
   = Loader.Num (Fin (15 # 2)) ->
   Loader.gtZero (Fin (15 # 2)) = true ->
   Loader.hoursPerDay
     (Loader.loadSettings parseFloat
        [("hoursPerDay"%string, Loader.Num (Fin (15 # 2)))]) = Fin (15 # 2))
  /\ (Loader.truthy
        (Loader.get "hoursPerDay"
           [("hoursPerDay"%string, Loader.Num (Fin (15 # 2)))]) = false
      \/ Loader.get "hoursPerDay"
           [("hoursPerDay"%string, Loader.Num (Fin (15 # 2)))]
         = Loader.Num (Fin (15 # 2))
         /\ Loader.gtZero (Fin (15 # 2)) = false ->
      Loader.hoursPerDay
        (Loader.loadSettings parseFloat
           [("hoursPerDay"%string, Loader.Num (Fin (15 # 2)))]) = Fin 8).
Proof.
  apply (loadSettings_number_or_default parseFloat
           [("hoursPerDay"%string, Loader.Num (Fin (15 # 2)))]
           "hoursPerDay"%string Loader.hoursPerDay (Fin 8) (Fin (15 # 2))).
  right. right. left. reflexivity.
Defined.

(** The binary64 number written 1e-200. *)
Definition tiny : Q :=
  1723641332219371 # (2 ^ 715).

(** A schedule of [1e-200] hours a day on [1e-200] days a week. *)
Definition tinySchedule : Settings :=
  {| hourlyRate := Fin 15;
     displayMode := str "inline";
     hoursPerDay := Fin tiny;
     daysPerWeek := Fin tiny |}.

(** Positive settings do not make every entry positive: the products for the
    week, the month, the year and the century underflow to zero, and the
    loop skips these four units. *)
Example tiny_schedule_units_skipped :
  Loader.gtZero (hoursPerDay tinySchedule) = true
  /\ Loader.gtZero (daysPerWeek tinySchedule) = true
  /\ map (fun u => (short u, leZero (minutes u))) (UNITS tinySchedule)
     = [ (str "c", true); (str "y", true); (str "mo", true); (str "w", true);
         (str "d", false); (str "h", false); (str "min", false) ]
  /\ map minutes (firstn 4 (UNITS tinySchedule))
     = [Fin 0; Fin 0; Fin 0; Fin 0].
Proof. repeat split; vm_compute; reflexivity. Qed.

(** X20.  With settings that come from [loadSettings] and a finite number of
    days a week, no entry of the unit table of [formatTimeFromMoney] is
    negative or [NaN]; with at least an hour a day and at least a day a week
    every entry is a minute or more, and the test [unit.minutes <= 0] of the
    loop skips no unit.  Empty storage gives the default settings. *)
Theorem loaded_units_positive (stringToNumber : jsstring -> number)
  (res : Loader.items) (st : Settings) :
  scanSettings (Loader.loadSettings stringToNumber res) = Some st ->
  (isFinite (daysPerWeek st) = true ->
   Forall (fun u => nonneg (minutes u)) (UNITS st))
  /\ (atLeastOne (hoursPerDay st) -> atLeastOne (daysPerWeek st) ->
      Forall (fun u => atLeastOne (minutes u) /\ leZero (minutes u) = false)
             (UNITS st))
  /\ (res = [] -> st = DEFAULT).
Proof.
  intros H.
  destruct (Loader.loadSettings_gtZero stringToNumber res)
    as [_ [_ [Hh Hd]]].
  unfold scanSettings in H.
  destruct (Loader.displayMode _) as [| | | |mode|] eqn:Em; try discriminate.
  injection H as <-.
  split; [|split].
  - intros Hfin. apply TableFacts.units_nonneg; assumption.
  - intros H1 H2.
    pose proof (TableFacts.units_atLeastOne _ H1 H2) as Hall.
    revert Hall. apply Forall_impl. intros u Hu.
    split; [exact Hu | apply TableFacts.atLeastOne_leZero; exact Hu].
  - intros ->. cbn in Em. injection Em as <-. reflexivity.
Qed.

Lemma loaded_units_positive_witness :
  Forall (fun u => nonneg (minutes u)) (UNITS DEFAULT)
  /\ Forall (fun u => atLeastOne (minutes u) /\ leZero (minutes u) = false)
            (UNITS DEFAULT).
Proof.
  destruct (loaded_units_positive parseFloat [] DEFAULT) as [H1 [H2 _]];
    [reflexivity|].
  split.
  - apply H1. reflexivity.
  - apply H2; right; eexists; (split; [reflexivity | discriminate]).
Defined.

(* ================================================================= *)
(** * The debounce helper *)

(** [debounce(fn, wait)]: the closure it returns keeps one variable [t], the
    handle of the timer it has set last.  The timers of the page are a table
    from handles to callbacks; a callback set by the closure is kept by the
    arguments it will pass to [fn].  The platform runs a pending timer once
    and takes it out of the table; when it does so is left open, so the
    delay [wait] does not appear and every order of calls and timers is a
    sequence of events. *)
Module Debounce.

Local Open Scope nat_scope.

Section Debounce.

Variable Args : Type.

Record timers : Type := mkTimers {
  pending : list (nat * Args);
  nextHandle : nat
}.

(** [setTimeout(() => fn(...args), wait)]: the new handle and the table. *)
Definition setTimeout (args : Args) (tm : timers) : nat * timers :=
  (nextHandle tm,
   mkTimers (pending tm ++ [(nextHandle tm, args)]) (S (nextHandle tm))).

Definition without (handle : nat) (l : list (nat * Args)) : list (nat * Args) :=
  filter (fun e => negb (fst e =? handle)) l.

(** [clearTimeout(t)]; nothing happens for [undefined] or a handle that is
    not pending. *)
Definition clearTimeout (t : option nat) (tm : timers) : timers :=
  match t with
  | None => tm
  | Some handle => mkTimers (without handle (pending tm)) (nextHandle tm)
  end.

Record debounced : Type := mkDebounced { t : option nat; page : timers }.

(** The state after [debounce(fn, wait)] has returned. *)
Definition init : debounced := mkDebounced None (mkTimers [] 0).

(** A call of the returned closure. *)
Definition call (args : Args) (s : debounced) : debounced :=
  let cleared := clearTimeout (t s) (page s) in
  let (handle, tm) := setTimeout args cleared in
  mkDebounced (Some handle) tm.

(** The platform runs the timer [handle]: the state afterwards and the
    arguments [fn] is run with. *)
Definition fire (handle : nat) (s : debounced) : debounced * list Args :=
  match find (fun e => fst e =? handle) (pending (page s)) with
  | Some e =>
      (mkDebounced (t s)
         (mkTimers (without handle (pending (page s))) (nextHandle (page s))),
       [snd e])
  | None => (s, [])
  end.

Inductive event : Type :=
| Call (args : Args)
| Fire (handle : nat).

Definition step (e : event) (s : debounced) : debounced * list Args :=
  match e with
  | Call args => (call args s, [])
  | Fire handle => fire handle s
  end.

(** The state after a sequence of events, and the runs of [fn] in order. *)
Fixpoint run (events : list event) (s : debounced) : debounced * list Args :=
  match events with
  | [] => (s, [])
  | e :: rest =>
      let (s1, out1) := step e s in
      let (s2, out2) := run rest s1 in
      (s2, out1 ++ out2)
  end.

Definition isCall (e : event) : bool :=
  match e with Call _ => true | Fire _ => false end.

(** At most one timer of the closure is pending, and [t] is its handle. *)
Definition single (s : debounced) : Prop :=
  pending (page s) = []
  \/ exists handle args,
       pending (page s) = [(handle, args)] /\ t s = Some handle.

Lemma run_app (e1 e2 : list event) (s : debounced) :
  run (e1 ++ e2) s
  = let (s1, out1) := run e1 s in
    let (s2, out2) := run e2 s1 in
    (s2, out1 ++ out2).
Proof.
  revert s. induction e1 as [|e e1 IH]; intros s; cbn [run app].
  - destruct (run e2 s). reflexivity.
  - destruct (step e s) as [s1 out1]. rewrite IH.
    destruct (run e1 s1) as [s2 out2]. destruct (run e2 s2) as [s3 out3].
    rewrite app_assoc. reflexivity.
Qed.

Lemma call_single (args : Args) (s : debounced) :
  single s ->
  exists handle,
    pending (page (call args s)) = [(handle, args)]
    /\ t (call args s) = Some handle.
Proof.
  intros [E|[handle [args' [E Et]]]]; unfold call, clearTimeout, setTimeout.
  - exists (nextHandle (page s)).
    destruct (t s); cbn [pending page t nextHandle]; rewrite E; auto.
  - exists (nextHandle (page s)). rewrite Et.
    cbn [pending page t nextHandle]. rewrite E. unfold without.
    cbn [filter fst]. rewrite Nat.eqb_refl. auto.
Qed.

Lemma fire_single (handle : nat) (s : debounced) :
  single s ->
  single (fst (fire handle s))
  /\ length (snd (fire handle s))
     + length (pending (page (fst (fire handle s))))
     = length (pending (page s)).
Proof.
  intros Hs. unfold fire. destruct Hs as [E|[h [args [E Et]]]].
  - rewrite E. cbn [find fst snd]. split; [left; exact E|]. rewrite E. reflexivity.
  - rewrite E. cbn [find fst]. destruct (h =? handle) eqn:Eh.
    + cbn [fst snd page pending length]. unfold without. cbn [filter fst].
      rewrite Eh. cbn. split; [left|]; reflexivity.
    + cbn [fst snd]. split; [right; eauto|]. rewrite E. reflexivity.
Qed.

Lemma step_single (e : event) (s : debounced) :
  single s -> single (fst (step e s)).
Proof.
  intros Hs. destruct e as [args|handle]; cbn [step fst].
  - destruct (call_single args s Hs) as [h [E Et]]. right. eauto.
  - apply fire_single. exact Hs.
Qed.

Lemma run_single (events : list event) : forall s,
  single s -> single (fst (run events s)).
Proof.
  induction events as [|e events IH]; intros s Hs; cbn [run]; [exact Hs|].
  pose proof (step_single e s Hs) as H1.
  destruct (step e s) as [s1 out1]. cbn [fst] in H1.
  specialize (IH s1 H1). destruct (run events s1) as [s2 out2]. exact IH.
Qed.

Lemma init_single : single init.
Proof. left. reflexivity. Qed.

(** Calls alone run nothing, and leave the timer of the last call. *)
Lemma calls_pending (pre : list Args) (args : Args) : forall s,
  single s ->
  snd (run (map Call (pre ++ [args])) s) = []
  /\ exists handle,
       pending (page (fst (run (map Call (pre ++ [args])) s)))
       = [(handle, args)].
Proof.
  induction pre as [|a pre IH]; intros s Hs; cbn [app map run step].
  - destruct (call_single args s Hs) as [h [E _]]. split; [reflexivity|].
    exists h. exact E.
  - assert (H1 : single (call a s)).
    { destruct (call_single a s Hs) as [h [E Et]]. right. eauto. }
    destruct (IH (call a s) H1) as [Hout Hp].
    destruct (run (map Call (pre ++ [args])) (call a s)) as [s2 out2].
    cbn [fst snd] in *. split; [exact Hout | exact Hp].
Qed.

Lemma fires_idle (handles : list nat) : forall s,
  pending (page s) = [] -> snd (run (map Fire handles) s) = [].
Proof.
  induction handles as [|h handles IH]; intros s E; cbn [map run step];
    [reflexivity|].
  unfold fire. rewrite E. cbn [find].
  specialize (IH s E). destruct (run (map Fire handles) s) as [s2 out2].
  exact IH.
Qed.

Lemma fires_one (handle : nat) (args : Args) (handles : list nat) : forall s,
  pending (page s) = [(handle, args)] ->
  snd (run (map Fire handles) s)
  = if existsb (Nat.eqb handle) handles then [args] else [].
Proof.
  induction handles as [|h handles IH]; intros s E; cbn [map run step existsb];
    [reflexivity|].
  unfold fire. rewrite E. cbn [find fst].
  destruct (handle =? h) eqn:Eh; cbn [orb].
  - pose proof (fires_idle handles
      (mkDebounced (t s)
         (mkTimers (without h [(handle, args)]) (nextHandle (page s))))) as Hidle.
    destruct (run (map Fire handles) _) as [s2 out2].
    cbn [snd] in *. rewrite Hidle; [reflexivity|].
    cbn [page pending]. unfold without. cbn [filter fst]. rewrite Eh.
    reflexivity.
  - specialize (IH s E). destruct (run (map Fire handles) s) as [s2 out2].
    exact IH.
Qed.

Lemma run_bound (events : list event) : forall s,
  single s ->
  length (snd (run events s)) + length (pending (page (fst (run events s))))
  <= length (filter isCall events) + length (pending (page s)).
Proof.
  induction events as [|e events IH]; intros s Hs; cbn [run filter];
    [cbn; lia|].
  pose proof (step_single e s Hs) as H1.
  destruct e as [args|handle]; cbn [step isCall] in *.
  - specialize (IH (call args s) H1).
    destruct (call_single args s Hs) as [h [E _]].
    destruct (run events (call args s)) as [s2 out2].
    cbn [fst snd length app] in *. rewrite E in IH. cbn [length] in IH. lia.
  - pose proof (fire_single handle s Hs) as [_ Hlen].
    destruct (fire handle s) as [s1 out1]. cbn [fst snd] in *.
    specialize (IH s1 H1). destruct (run events s1) as [s2 out2].
    cbn [fst snd] in *. rewrite length_app. lia.
Qed.

End Debounce.

End Debounce.

(** X21.  After any history, a burst of calls of the debounced function runs
    [fn] no further time by itself and leaves exactly one timer pending;
    whatever timers the platform fires afterwards, [fn] is run once, with
    the arguments of the last call of the burst, or not at all when that
    timer is not among them. *)
Theorem debounce_burst_runs_last_call (Args : Type)
  (history : list (Debounce.event Args)) (burst : list Args) (last : Args)
  (handles : list nat) :
  let calls := map (Debounce.Call Args) (burst ++ [last]) in
  let s := fst (Debounce.run Args (history ++ calls) (Debounce.init Args)) in
  snd (Debounce.run Args (history ++ calls) (Debounce.init Args))
  = snd (Debounce.run Args history (Debounce.init Args))
  /\ exists handle,
       Debounce.pending Args (Debounce.page Args s) = [(handle, last)]
       /\ snd (Debounce.run Args (map (Debounce.Fire Args) handles) s)
          = if existsb (Nat.eqb handle) handles then [last] else [].
Proof.
  cbv zeta. rewrite Debounce.run_app.
  pose proof (Debounce.run_single Args history _ (Debounce.init_single Args))
    as Hs.
  destruct (Debounce.run Args history (Debounce.init Args)) as [s1 out1].
  cbn [fst snd] in *.
  destruct (Debounce.calls_pending Args burst last s1 Hs) as [Hout [h Hp]].
  destruct (Debounce.run Args (map (Debounce.Call Args) (burst ++ [last])) s1)
    as [s2 out2].
  cbn [fst snd] in *. subst out2. split; [apply app_nil_r|].
  exists h. split; [exact Hp|].
  apply Debounce.fires_one. exact Hp.
Qed.

(** X22.  The debounced function never runs [fn] more often than it has been
    called, in any interleaving of calls and timers. *)
Theorem debounce_runs_at_most_calls (Args : Type)
  (events : list (Debounce.event Args)) :
  (length (snd (Debounce.run Args events (Debounce.init Args)))
   <= length (filter (Debounce.isCall Args) events))%nat.
Proof.
  pose proof (Debounce.run_bound Args events _ (Debounce.init_single Args)) as H.
  cbn [Debounce.init Debounce.page Debounce.pending length] in H. lia.
Qed.

(* ================================================================= *)
(** * The style sheet *)

(** [injectStyles], on the tree below [document.documentElement]. *)
Module Styles.

Local Open Scope nat_scope.

Definition STYLE_ID : jsstring := str "money-time-extension-styles".

Definition hasId (id : jsstring) (a : attrs) : bool :=
  match getAttribute (str "id") a with
  | Some v => JsString.eqb v id
  | None => false
  end.

(** The first element with the given [id] among [n] and its descendants, in
    document order. *)
Fixpoint findId (id : jsstring) (n : node) : option node :=
  match n with
  | Text _ => None
  | Element _ a children =>
      if hasId id a then Some n
      else
        (fix first (l : list node) : option node :=
           match l with
           | [] => None
           | c :: rest =>
               match findId id c with
               | Some found => Some found
               | None => first rest
               end
           end) children
  end.

Definition findIdIn (id : jsstring) : list node -> option node :=
  fix first (l : list node) : option node :=
    match l with
    | [] => None
    | c :: rest =>
        match findId id c with
        | Some found => Some found
        | None => first rest
        end
    end.

(** [document.getElementById(id)]. *)
Definition getElementById (id : jsstring) (documentElement : node)
  : option node :=
  findId id documentElement.

Definition line (s : string) : jsstring := str s ++ [10%N].

(** The text of the template literal. *)
Definition CSS : jsstring :=
  [10%N]
  ++ line "      .mt-wrapper { white-space: pre-wrap; }"
  ++ line "      .mt-annotation { font-size: 0.95em; opacity: 0.8; margin-left: 3px; }"
  ++ line "      .mt-annotation { color: inherit; font-style: italic; }"
  ++ line "      .mt-wrapper { pointer-events: auto; }"
  ++ str "    ".

Definition styleElement : node :=
  Element (str "STYLE") [(str "id", STYLE_ID)] [Text CSS].

(** [document.head.appendChild(style)] on the children of the document
    element: the first [head] child gets the new last child; without a
    [head] child [document.head] is [null] and nothing is appended. *)
Fixpoint appendToHead (style : node) (children : list node) : list node :=
  match children with
  | [] => []
  | Element tag a below :: rest =>
      if JsString.eqb tag (str "HEAD")
      then Element tag a (below ++ [style]) :: rest
      else Element tag a below :: appendToHead style rest
  | c :: rest => c :: appendToHead style rest
  end.

Definition injectStyles (documentElement : node) : node :=
  match getElementById STYLE_ID documentElement with
  | Some _ => documentElement
  | None =>
      match documentElement with
      | Element tag a children =>
          if JsString.eqb tag (str "HTML")
          then Element tag a (appendToHead styleElement children)
          else documentElement
      | Text _ => documentElement
      end
  end.

(** The elements of a tree that carry the given [id]. *)
Fixpoint countId (id : jsstring) (n : node) : nat :=
  match n with
  | Text _ => 0
  | Element _ a children =>
      (if hasId id a then 1 else 0)
      + (fix total (l : list node) : nat :=
           match l with
           | [] => 0
           | c :: rest => countId id c + total rest
           end) children
  end.

Definition countIdIn (id : jsstring) : list node -> nat :=
  fix total (l : list node) : nat :=
    match l with
    | [] => 0
    | c :: rest => countId id c + total rest
    end.

Lemma findId_element (id tag : jsstring) (a : attrs) (children : list node) :
  findId id (Element tag a children)
  = if hasId id a then Some (Element tag a children) else findIdIn id children.
Proof. reflexivity. Qed.

Lemma countId_element (id tag : jsstring) (a : attrs) (children : list node) :
  countId id (Element tag a children)
  = (if hasId id a then 1 else 0) + countIdIn id children.
Proof. reflexivity. Qed.

Lemma findIdIn_app (id : jsstring) (l1 l2 : list node) :
  findIdIn id (l1 ++ l2)
  = match findIdIn id l1 with
    | Some found => Some found
    | None => findIdIn id l2
    end.
Proof.
  induction l1 as [|c l1 IH]; [reflexivity|].
  cbn [app findIdIn]. destruct (findId id c); [reflexivity | exact IH].
Qed.

Lemma countIdIn_app (id : jsstring) (l1 l2 : list node) :
  countIdIn id (l1 ++ l2) = countIdIn id l1 + countIdIn id l2.
Proof.
  induction l1 as [|c l1 IH]; [reflexivity|].
  cbn [app countIdIn]. rewrite IH. lia.
Qed.

(** [getElementById] finds nothing exactly when no element carries the
    [id]. *)
Lemma findId_none (id : jsstring) (n : node) :
  findId id n = None <-> countId id n = 0.
Proof.
  induction n as [v|tag a children IH] using node_induction;
    [split; reflexivity|].
  rewrite findId_element, countId_element.
  destruct (hasId id a); [split; [discriminate | cbn; lia]|].
  cbn [Nat.add].
  induction children as [|c children IHc]; [split; reflexivity|].
  inversion IH as [|? ? Hc Hrest]; subst.
  cbn [findIdIn countIdIn].
  destruct (findId id c) eqn:E.
  - split; [discriminate|]. intros H.
    assert (countId id c = 0) by lia. apply Hc in H0. discriminate.
  - assert (E0 : countId id c = 0) by (apply Hc; reflexivity).
    rewrite E0. cbn [Nat.add]. apply IHc. exact Hrest.
Qed.

Lemma styleElement_found : findId STYLE_ID styleElement = Some styleElement.
Proof. reflexivity. Qed.

(** What appending to the head does to the number of elements with the
    style sheet's [id]. *)
Lemma appendToHead_count (children : list node) :
  (appendToHead styleElement children = children
   /\ forall c tag a below, In c children -> c = Element tag a below ->
        JsString.eqb tag (str "HEAD") = false)
  \/ countIdIn STYLE_ID (appendToHead styleElement children)
     = S (countIdIn STYLE_ID children).
Proof.
  induction children as [|c children IH].
  - left. split; [reflexivity|]. intros c tag a below [].
  - destruct c as [v|tag a below]; cbn [appendToHead].
    + destruct IH as [[E Hno]|E].
      * left. rewrite E. split; [reflexivity|].
        intros c tag a below [<-|Hin] Hc; [discriminate|]. eauto.
      * right. cbn [countIdIn]. rewrite E. reflexivity.
    + destruct (JsString.eqb tag (str "HEAD")) eqn:Eh.
      * right. cbn [countIdIn]. rewrite !countId_element, countIdIn_app.
        cbn [countIdIn]. change (countId STYLE_ID styleElement) with 1. lia.
      * destruct IH as [[E Hno]|E].
        -- left. rewrite E. split; [reflexivity|].
           intros c tag' a' below' [<-|Hin] Hc; [|eauto].
           injection Hc as <- _ _. exact Eh.
        -- right. cbn [countIdIn]. rewrite E. lia.
Qed.

Lemma injectStyles_found (documentElement : node) :
  findId STYLE_ID documentElement <> None ->
  injectStyles documentElement = documentElement.
Proof.
  intros H. unfold injectStyles, getElementById.
  destruct (findId STYLE_ID documentElement); [reflexivity | congruence].
Qed.

Lemma injectStyles_cases (documentElement : node) :
  injectStyles documentElement = documentElement
  \/ countId STYLE_ID documentElement = 0
     /\ countId STYLE_ID (injectStyles documentElement) = 1.
Proof.
  destruct (findId STYLE_ID documentElement) as [found|] eqn:E;
    [left; apply injectStyles_found; congruence|].
  pose proof (proj1 (findId_none _ _) E) as Hzero.
  unfold injectStyles, getElementById. rewrite E.
  destruct documentElement as [v|tag a children]; [left; reflexivity|].
  destruct (JsString.eqb tag (str "HTML")); [|left; reflexivity].
  destruct (appendToHead_count children) as [[Eq _]|Ecount];
    [left; rewrite Eq; reflexivity|].
  right. split; [exact Hzero|].
  rewrite countId_element in *.
  destruct (hasId STYLE_ID a); [discriminate|].
  cbn [Nat.add] in *. rewrite Ecount, Hzero. reflexivity.
Qed.

End Styles.

(** X23.  [injectStyles] is idempotent, and it adds at most one element with
    the [id] of the style sheet: afterwards the document is as before, or it
    held no such element and now holds exactly one. *)
Theorem injectStyles_idempotent (documentElement : node) :
  Styles.injectStyles (Styles.injectStyles documentElement)
  = Styles.injectStyles documentElement
  /\ (Styles.injectStyles documentElement = documentElement
      \/ Styles.countId Styles.STYLE_ID documentElement = 0%nat
         /\ Styles.countId Styles.STYLE_ID (Styles.injectStyles documentElement)
            = 1%nat).
Proof.
  split; [|apply Styles.injectStyles_cases].
  destruct (Styles.injectStyles_cases documentElement) as [E|[_ Hone]].
  - rewrite !E. reflexivity.
  - apply Styles.injectStyles_found. intros Hnone.
    apply Styles.findId_none in Hnone. rewrite Hone in Hnone. discriminate.
Qed.

(** X24.  When the document element is [html] with a [head] child and no
    element carries the [id] of the style sheet, [injectStyles] puts the
    style element in, and [getElementById] finds it afterwards. *)
Theorem injectStyles_adds_style (a : attrs) (children : list node) :
  Styles.getElementById Styles.STYLE_ID (Element (str "HTML") a children)
    = None ->
  (exists ha below, In (Element (str "HEAD") ha below) children) ->
  Styles.getElementById Styles.STYLE_ID
    (Styles.injectStyles (Element (str "HTML") a children))
  = Some Styles.styleElement.
Proof.
  intros Hnone [ha [below Hhead]].
  unfold Styles.getElementById in *. unfold Styles.injectStyles.
  unfold Styles.getElementById. rewrite Hnone.
  change (JsString.eqb (str "HTML") (str "HTML")) with true. cbv iota.
  rewrite Styles.findId_element in *.
  destruct (Styles.hasId Styles.STYLE_ID a); [discriminate|].
  clear a. induction children as [|c children IH]; [destruct Hhead|].
  cbn [Styles.findIdIn] in Hnone.
  destruct (Styles.findId Styles.STYLE_ID c) eqn:Ec; [discriminate|].
  destruct c as [v|tag ca cbelow]; cbn [Styles.appendToHead].
  - cbn [Styles.findIdIn Styles.findId]. apply IH; [exact Hnone|].
    destruct Hhead as [H|H]; [discriminate | exact H].
  - destruct (JsString.eqb tag (str "HEAD")) eqn:Eh.
    + cbn [Styles.findIdIn]. rewrite Styles.findId_element in *.
      destruct (Styles.hasId Styles.STYLE_ID ca); [discriminate|].
      rewrite Styles.findIdIn_app, Ec. reflexivity.
    + cbn [Styles.findIdIn]. rewrite Ec. apply IH; [exact Hnone|].
      destruct Hhead as [H|H]; [|exact H].
      injection H as -> _ _. discriminate Eh.
Qed.

Lemma injectStyles_adds_style_witness :
  Styles.getElementById Styles.STYLE_ID
    (Styles.injectStyles
       (Element (str "HTML") []
          [Element (str "HEAD") [] []; body [paragraph "Pay $5 now"]]))
  = Some Styles.styleElement.
Proof.
  apply (injectStyles_adds_style []
           [Element (str "HEAD") [] []; body [paragraph "Pay $5 now"]]).
  - reflexivity.
  - exists [], []. left. reflexivity.
Defined.

(* ================================================================= *)
(** * The pass over the structured prices *)

(** [document.querySelectorAll(selector).forEach(el =>
    processStructuredPrice(el))]: the node list is made once, in document
    order, and the elements are processed one after the other on the tree
    as the calls before have left it.  An element is named by its path, the
    child indices from the document element; the calls only append
    children, so the paths stay good. *)
Module PricePass.

Local Open Scope nat_scope.

Definition path : Type := list nat.

(** The paths of the elements with class [cls], in document order. *)
Fixpoint querySelectorAll (cls : jsstring) (n : node) : list path :=
  match n with
  | Text _ => []
  | Element _ a children =>
      (if hasClass cls a then [[]] else [])
      ++ (fix below (i : nat) (l : list node) : list path :=
            match l with
            | [] => []
            | c :: rest =>
                map (cons i) (querySelectorAll cls c) ++ below (S i) rest
            end) 0 children
  end.

(** [g] applied to the child of index [i]. *)
Fixpoint updateChild (i : nat) (g : node -> node) (l : list node) : list node :=
  match l, i with
  | [], _ => []
  | c :: rest, 0 => g c :: rest
  | c :: rest, S i' => c :: updateChild i' g rest
  end.

(** [f] applied to the element at path [p] below [n], with its ancestors. *)
Fixpoint applyAt (f : ancestors -> node -> node) (p : path) (anc : ancestors)
  (n : node) : node :=
  match p with
  | [] => f anc n
  | i :: rest =>
      match n with
      | Text _ => n
      | Element tag a children =>
          Element tag a (updateChild i (applyAt f rest ((tag, a) :: anc)) children)
      end
  end.

Definition structuredPriceSelectors : list jsstring := [str "a-price"].

Definition forEachPrice (st : Settings) (cls : jsstring) (document : node)
  : node :=
  fold_left (fun doc p => applyAt (processStructuredPrice st) p [] doc)
            (querySelectorAll cls document) document.

(** The second part of [processDocument] in the revision with structured
    prices. *)
Definition processPrices (st : Settings) (document : node) : node :=
  fold_left (fun doc cls => forEachPrice st cls doc)
            structuredPriceSelectors document.

Lemma updateChild_source (g : node -> node) (l : list node) : forall i,
  (forall c, sourceText (g c) = sourceText c) ->
  flat_map sourceText (updateChild i g l) = flat_map sourceText l.
Proof.
  induction l as [|c l IH]; intros i Hg; [destruct i; reflexivity|].
  destruct i as [|i]; cbn [updateChild flat_map].
  - rewrite Hg. reflexivity.
  - rewrite IH; [reflexivity | exact Hg].
Qed.

Lemma applyAt_source (f : ancestors -> node -> node) (p : path) :
  (forall anc n, sourceText (f anc n) = sourceText n) ->
  forall anc n, sourceText (applyAt f p anc n) = sourceText n.
Proof.
  intros Hf. induction p as [|i rest IH]; intros anc n; cbn [applyAt];
    [apply Hf|].
  destruct n as [v|tag a children]; [reflexivity|].
  cbn [sourceText]. destruct (hasClass ANNOTATION a); [reflexivity|].
  apply updateChild_source. intros c. apply IH.
Qed.

Lemma fold_source (f : ancestors -> node -> node) (ps : list path) :
  (forall anc n, sourceText (f anc n) = sourceText n) ->
  forall doc,
    sourceText (fold_left (fun d p => applyAt f p [] d) ps doc)
    = sourceText doc.
Proof.
  intros Hf. induction ps as [|p ps IH]; intros doc; cbn [fold_left];
    [reflexivity|].
  rewrite IH. apply applyAt_source. exact Hf.
Qed.

End PricePass.

(** X25.  The pass over the structured prices only appends annotation
    spans: the text of the document read without annotation spans is as it
    was before the pass, whatever the settings. *)
Theorem processPrices_keeps_source (st : Settings) (document : node) :
  sourceText (PricePass.processPrices st document) = sourceText document.
Proof.
  unfold PricePass.processPrices, PricePass.structuredPriceSelectors.
  cbn [fold_left]. unfold PricePass.forEachPrice.
  apply PricePass.fold_source. intros anc n.
  apply processStructuredPrice_source.
Qed.
